(** * Transcription studio: response normalisers and chunk combiner

    A shallow embedding of the pure parts of the dictation application:

    - [TranscriptionService]: [combineTranscriptionResults] and
      [transcribeAudioChunks] of [transcription-service.ts];
    - [Gemini]: the keyword heuristics [analyzeSentiment], [extractTopics]
      and [detectLanguage] of the Gemini route, and
      [processGeminiResponse];
    - [Deepgram]: [processDeepgramResponse] and [calculateOverallSentiment]
      of the Deepgram route;
    - [OptionsPanel]: [handleProviderChange] and the topic handlers of
      the options component;
    - [AudioProcessor]: [chunkAudio] and [detectSilence] of
      [audio-processor.ts];
    - [Recordings]: the recordings route with its in-memory store, and
      [getRecordingMetadata];
    - [App]: [combineTranscriptionResults], [transcribeWithOpenAI] and
      [transcribeAudioChunks] of the page [stt-enhanced.tsx].

    Modelling conventions.  JavaScript numbers that carry times and
    confidences are rationals ([Q]); counters and identifiers are integers.
    A string is held as the bytes of its UTF-8 form, and is taken to be
    well formed (no lone surrogate).  The classes [[A-Z]], [[a-z]], [\d]
    and [\w] of the regular expressions are the ASCII ones, as in the
    code; the white space of [\s] and of [trim] is the Unicode one, read
    off the bytes; lengths and positions are counted in UTF-16 code
    units.  [toLowerCase] is left open where the code applies it to an
    arbitrary text: the theorems hold for every lower-casing.  An absent
    object field ([undefined]) is [None]. *)

From Stdlib Require Import List String Ascii Bool Arith ZArith NArith QArith Qminmax.
From Stdlib Require Import Lia Permutation Sorted DecimalString.
From Stdlib Require Import Qabs Qround.
Import ListNotations.

Open Scope string_scope.

(* ================================================================== *)
(** ** The JavaScript built-ins the code relies on                     *)
(* ================================================================== *)

Module JS.

(** *** Character classes *)

Definition code (c : ascii) : nat := nat_of_ascii c.

Definition between (lo hi : nat) (c : ascii) : bool :=
  (lo <=? code c)%nat && (code c <=? hi)%nat.

(** [[A-Z]], [[a-z]] and [\d]. *)
Definition is_upper : ascii -> bool := between 65 90.
Definition is_lower : ascii -> bool := between 97 122.
Definition is_digit : ascii -> bool := between 48 57.

(** [\w]: letters, digits and the underscore. *)
Definition is_word (c : ascii) : bool :=
  is_upper c || is_lower c || is_digit c || (code c =? 95)%nat.

(** *** Strings

    A string is held as the bytes of its UTF-8 form.  A byte below 128 is
    the character of that code; the bytes of a longer character are all
    above 127, so none of them is a letter, a digit or a word
    character. *)

(** The number of UTF-16 code units that a byte stands for: a
    continuation byte counts for nothing, the first byte of a four-byte
    character for two. *)
Definition units_of (c : ascii) : nat :=
  if between 128 191 c then 0
  else if (240 <=? code c)%nat then 2
  else 1.

(** [s.length] *)
Fixpoint length (s : string) : nat :=
  match s with
  | EmptyString => 0
  | String c r => units_of c + length r
  end.

(** [s] begins with the bytes of these codes. *)
Fixpoint begins (codes : list nat) (s : string) : bool :=
  match codes with
  | [] => true
  | n :: more =>
      match s with
      | EmptyString => false
      | String c r => (code c =? n)%nat && begins more r
      end
  end.

(** The white space of [\s] and of [trim]: tab, line feed, vertical
    tab, form feed, carriage return, space, and U+00A0, U+1680, U+2000
    to U+200A, U+2028, U+2029, U+202F, U+205F, U+3000 and U+FEFF.
    [space_width s] is the number of bytes of the white-space character
    at the head of [s], and 0 when there is none.  In UTF-8, U+00A0 is
    194 160, U+1680 is 225 154 128, U+2000 to U+200A are 226 128 128 to
    226 128 138, U+2028, U+2029 and U+202F are 226 128 168, 169 and 175,
    U+205F is 226 129 159, U+3000 is 227 128 128 and U+FEFF is
    239 187 191. *)
Definition space_width (s : string) : nat :=
  match s with
  | EmptyString => 0
  | String c _ =>
      if (code c =? 32)%nat || between 9 13 c then 1
      else if begins [194; 160]%nat s then 2
      else if begins [225; 154; 128]%nat s then 3
      else if begins [226; 128]%nat s
              && match s with
                 | String _ (String _ (String c3 _)) =>
                     between 128 138 c3 || (code c3 =? 168)%nat
                     || (code c3 =? 169)%nat || (code c3 =? 175)%nat
                 | _ => false
                 end then 3
      else if begins [226; 129; 159]%nat s then 3
      else if begins [227; 128; 128]%nat s then 3
      else if begins [239; 187; 191]%nat s then 3
      else 0
  end.

(** U+00A0, the no-break space. *)
Definition nbsp : string := String (ascii_of_nat 194) (String (ascii_of_nat 160) "").

(** A string read character by character, as far as white space goes:
    a white-space character with its bytes, or any other byte. *)
Inductive Char :=
| blank (bytes : string)
| plain (c : ascii).

(** [skip] counts the bytes of the white-space character just read that
    are still to be passed. *)
Fixpoint chars (skip : nat) (s : string) : list Char :=
  match s with
  | EmptyString => []
  | String c r =>
      match skip with
      | S k => chars k r
      | O =>
          match space_width s with
          | S w => blank (substring 0 (S w) s) :: chars w r
          | O => plain c :: chars 0 r
          end
      end
  end.

Definition read (s : string) : list Char := chars 0 s.

Fixpoint write (l : list Char) : string :=
  match l with
  | [] => EmptyString
  | blank bytes :: r => bytes ++ write r
  | plain c :: r => String c (write r)
  end.

Definition is_blank (x : Char) : bool :=
  match x with
  | blank _ => true
  | plain _ => false
  end.

(** The lower-casing used in the examples: [s.toLowerCase()] for a text
    of the Basic Latin and Latin-1 Supplement blocks.  It changes the
    capitals A to Z, and U+00C0 to U+00DE but for the multiplication
    sign, whose second byte follows the byte 195.  [lead] holds when the
    byte before was 195. *)
Definition lower_byte (lead : bool) (c : ascii) : ascii :=
  if lead then
    if between 128 158 c && negb (code c =? 151)%nat
    then ascii_of_nat (code c + 32) else c
  else if is_upper c then ascii_of_nat (code c + 32) else c.

Fixpoint lower_from (lead : bool) (s : string) : string :=
  match s with
  | EmptyString => EmptyString
  | String c r => String (lower_byte lead c) (lower_from (code c =? 195)%nat r)
  end.

Definition lower_latin1 (s : string) : string := lower_from false s.

Definition snoc (s : string) (c : ascii) : string := s ++ String c "".

(** [s.split(/\s+/)].  [acc] is the piece being read; [skipping] holds
    while a run of white space is being consumed.  The empty string
    splits into one empty piece, and white space at either end of [s]
    leaves an empty piece there. *)
Fixpoint split_go (skipping : bool) (acc : string) (l : list Char) : list string :=
  match l with
  | [] => [acc]
  | blank _ :: r =>
      if skipping then split_go true acc r
      else acc :: split_go true "" r
  | plain c :: r => split_go false (snoc acc c) r
  end.

Definition split_ws (s : string) : list string := split_go false "" (read s).

(** [hay.includes(needle)]. *)
Fixpoint includes (hay needle : string) : bool :=
  prefix needle hay
  || match hay with
     | EmptyString => false
     | String _ r => includes r needle
     end.

(** [arr.includes(x)] on an array of strings. *)
Definition arr_includes (arr : list string) (x : string) : bool :=
  existsb (String.eqb x) arr.

(** [arr.join(sep)] on an array of strings. *)
Fixpoint join (sep : string) (arr : list string) : string :=
  match arr with
  | [] => ""
  | [x] => x
  | x :: rest => x ++ sep ++ join sep rest
  end.

(** *** Arrays *)

(** [Array.prototype.sort] is stable.  [after a b] holds when the
    comparison function puts [a] behind [b] (a positive result of
    [compareFn(a, b)]). *)
Section Sort.
Context {A : Type} (after : A -> A -> bool).

Fixpoint insert (x : A) (l : list A) : list A :=
  match l with
  | [] => [x]
  | y :: t => if after x y then y :: insert x t else x :: l
  end.

Definition sort (l : list A) : list A := fold_right insert [] l.
End Sort.

(** [arr[arr.length - 1]]: [undefined] on the empty array. *)
Definition final {A : Type} (arr : list A) : option A :=
  nth_error arr (List.length arr - 1).

(** [arr.reduce(f)] without an initial value, on a non-empty array. *)
Definition reduce1 {A : Type} (f : A -> A -> A) (arr : list A) : option A :=
  match arr with
  | [] => None
  | x :: rest => Some (fold_left f rest x)
  end.

(** *** Numbers *)

(** [String(n)] for a non-negative integer. *)
Definition toString (n : N) : string :=
  NilEmpty.string_of_uint (N.to_uint n).

(** The default comparison of [sort()]: the operands are converted to
    strings and compared by code units. *)
Definition default_after (a b : N) : bool :=
  String.ltb (toString b) (toString a).

(** *** [Set] in insertion order *)

Definition set_add (x : N) (s : list N) : list N :=
  if existsb (N.eqb x) s then s else (s ++ [x])%list.

(** [new Set(arr)] spread back into an array, for strings: the first
    occurrences, in order. *)
Definition str_set_add (s : list string) (x : string) : list string :=
  if existsb (String.eqb x) s then s else (s ++ [x])%list.

Definition str_set_of (arr : list string) : list string :=
  fold_left str_set_add arr [].

(** [s.trim()]: white space is removed from both ends. *)
Fixpoint trimStart (l : list Char) : list Char :=
  match l with
  | blank _ :: r => trimStart r
  | _ => l
  end.

Fixpoint trimEnd (l : list Char) : list Char :=
  match l with
  | [] => []
  | x :: r =>
      match trimEnd r with
      | [] => if is_blank x then [] else [x]
      | kept => x :: kept
      end
  end.

Definition trim (s : string) : string := write (trimEnd (trimStart (read s))).

(** *** What the pieces of [split(/\s+/)] are

    The text is its pieces with a run of white space between each two:
    [weave] puts them together again. *)
Definition bytes_of (w : string) : list Char := map plain (list_ascii_of_string w).

Fixpoint weave (words : list string) (gaps : list (list Char)) : list Char :=
  match words with
  | [] => []
  | w :: ws =>
      match gaps with
      | [] => bytes_of w
      | g :: gs => (bytes_of w ++ g ++ weave ws gs)%list
      end
  end.

(** A non-empty run of white-space characters. *)
Definition gap (g : list Char) : Prop :=
  g <> [] /\ forallb is_blank g = true.

(** The pieces but the first and the final one. *)
Definition inner {A : Type} (l : list A) : list A := removelast (tl l).

(** [words] are the pieces of [s]: [s] is the pieces with a run of white
    space between each two, and no piece but the first or the final one
    is empty, so that each run is as long as it can be. *)
Definition pieces_of (s : string) (words : list string) : Prop :=
  exists gaps,
    read s = weave words gaps /\
    List.length words = S (List.length gaps) /\
    Forall gap gaps /\
    Forall (fun w => w <> "") (inner words).

End JS.

(* ================================================================== *)
(** ** transcription-service.ts                                         *)
(* ================================================================== *)

Module TranscriptionService.

Record Segment := mkSegment {
  id : Z;
  start : Q;
  end_ : Q;
  seg_text : string
}.

Record TranscriptionResult := mkResult {
  text : string;
  segments : option (list Segment);
  language : option string
}.

(** [{ ...segment, start: segment.start + t, end: segment.end + t }] *)
Definition adjust (lastEndTime : Q) (segment : Segment) : Segment :=
  {| id := id segment;
     start := start segment + lastEndTime;
     end_ := end_ segment + lastEndTime;
     seg_text := seg_text segment |}.

(** The state of the [forEach] loop. *)
Record Acc := mkAcc {
  allSegments : list Segment;
  lastEndTime : Q
}.

(** One turn of the [forEach] callback on [(result, index)].  An empty
    [segs] has no element at [length segs - 1], and the running end
    time is then left as it is. *)
Definition step (acc : Acc) (index : nat) (result : TranscriptionResult) : Acc :=
  match segments result with
  | Some segs =>
      let adjustedSegments :=
        map (fun segment =>
               if (index =? 0)%nat then segment
               else adjust (lastEndTime acc) segment) segs in
      {| allSegments := (allSegments acc ++ adjustedSegments)%list;
         lastEndTime :=
           match JS.final segs with
           | Some lastSegment => lastEndTime acc + end_ lastSegment
           | None => lastEndTime acc
           end |}
  | None => acc
  end.

Fixpoint forEach (acc : Acc) (index : nat) (results : list TranscriptionResult) : Acc :=
  match results with
  | [] => acc
  | result :: rest => forEach (step acc index result) (S index) rest
  end.

(** The comparison [(a, b) => a.start - b.start] is positive when [a]
    starts later than [b]. *)
Definition by_start (a b : Segment) : bool := negb (Qle_bool (start a) (start b)).

Definition combineTranscriptionResults (results : list TranscriptionResult)
  : TranscriptionResult :=
  match results with
  | [] => {| text := ""; segments := None; language := None |}
  | [r] => r
  | r0 :: _ =>
      let acc := forEach {| allSegments := []; lastEndTime := 0 |} 0 results in
      {| text := JS.join " " (map text results);
         segments := Some (JS.sort by_start (allSegments acc));
         language := language r0 |}
  end.

(** The re-basing as the specification words it, to be compared with
    the loop above: the segments of every chunk are shifted by a
    running offset, and the offset handed to the next chunk is the end
    time of the final segment of this one, as re-based.  A chunk
    without segments passes the offset on unchanged. *)
Definition segments_of (r : TranscriptionResult) : list Segment :=
  match segments r with
  | Some segs => segs
  | None => []
  end.

Fixpoint rebase_spec (offset : Q) (chunks : list TranscriptionResult) : list Segment :=
  match chunks with
  | [] => []
  | chunk :: rest =>
      let rebased := map (adjust offset) (segments_of chunk) in
      (rebased ++
       rebase_spec (match JS.final rebased with
                    | Some lastSegment => end_ lastSegment
                    | None => offset
                    end) rest)%list
  end.

Definition starts_le (a b : Segment) : Prop := start a <= start b.

(** Two chunks of one recording, each with times counted from its own
    beginning. *)
Definition chunkA : TranscriptionResult :=
  {| text := "first";
     segments := Some [{| id := 0; start := 0; end_ := 30; seg_text := "a" |}];
     language := Some "en" |}.

Definition chunkB : TranscriptionResult :=
  {| text := "second";
     segments := Some [{| id := 0; start := 0; end_ := 20; seg_text := "b" |}];
     language := None |}.

(** *** The request layer

    A request either fails with a message or yields the parsed body.
    [transcribeAudio] wraps every failure in "Transcription failed: ".
    The computation threads the list of requests issued so far. *)

Inductive ResponseFormat := json | text_format | srt | verbose_json | vtt.

Inductive Granularity := segment_granularity | word_granularity.

Record Options := mkOptions {
  model : string;
  opt_language : option string;
  prompt : option string;
  responseFormat : option ResponseFormat;
  temperature : option Q;
  timestampGranularities : option (list Granularity)
}.

Section Requests.
Variable Blob : Type.

Record Request := mkRequest {
  file : Blob;
  apiKey : string;
  options : Options
}.

Variable server : Request -> string + TranscriptionResult.

Definition M (A : Type) : Type := list Request -> (string + A) * list Request.

Definition ret {A} (a : A) : M A := fun log => (inr a, log).
Definition throw {A} (msg : string) : M A := fun log => (inl msg, log).
Definition bind {A B} (m : M A) (k : A -> M B) : M B :=
  fun log =>
    match m log with
    | (inl e, log') => (inl e, log')
    | (inr a, log') => k a log'
    end.

Definition transcribeAudio (audioBlob : Blob) (key : string) (opts : Options)
  : M TranscriptionResult :=
  fun log =>
    let req := {| file := audioBlob; apiKey := key; options := opts |} in
    match server req with
    | inr data => (inr data, (log ++ [req])%list)
    | inl message => (inl ("Transcription failed: " ++ message), (log ++ [req])%list)
    end.

(** [Promise.all(chunks.map(...))]: every request is issued; the
    batch fails when one of them does (the model reports the failure
    of the lowest index). *)
Fixpoint all (ms : list (M TranscriptionResult)) : M (list TranscriptionResult) :=
  match ms with
  | [] => ret []
  | m :: rest =>
      fun log =>
        match m log with
        | (r, log1) =>
            match all rest log1 with
            | (rs, log2) =>
                match r, rs with
                | inl e, _ => (inl e, log2)
                | inr _, inl e => (inl e, log2)
                | inr x, inr xs => (inr (x :: xs), log2)
                end
            end
        end
  end.

Definition transcribeAudioChunks (chunks : list Blob) (key : string) (opts : Options)
  : M TranscriptionResult :=
  match chunks with
  | [] => throw "No audio chunks to transcribe"
  | [chunk] => transcribeAudio chunk key opts
  | _ =>
      bind (all (map (fun chunk => transcribeAudio chunk key opts) chunks))
           (fun results => ret (combineTranscriptionResults results))
  end.
End Requests.

(** A sample server for blobs that are numbers: blob 0 is refused, any
    other blob is answered with [chunkA]. *)
Definition sample_options : Options :=
  {| model := "whisper-1"; opt_language := None; prompt := None;
     responseFormat := None; temperature := None; timestampGranularities := None |}.

Definition sample_server (r : Request nat) : string + TranscriptionResult :=
  if (file nat r =? 0)%nat then inl "API Error: 500 Internal Server Error"
  else inr chunkA.

(** What re-basing leaves alone in a segment. *)
Definition id_text (s : Segment) : Z * string := (id s, seg_text s).

(** A chunk whose segments come in order of start, none starting before
    the chunk does and none starting after its final segment ends. *)
Definition chunk_in_order (c : TranscriptionResult) : Prop :=
  Sorted starts_le (segments_of c) /\
  (forall s, In s (segments_of c) -> 0 <= start s) /\
  (forall s l, In s (segments_of c) -> JS.final (segments_of c) = Some l ->
               start s <= end_ l).

End TranscriptionService.

(* ================================================================== *)
(** ** The Gemini route: heuristics over the returned text             *)
(* ================================================================== *)

Module Gemini.

(** *** analyzeSentiment *)

Definition positiveWords : list string :=
  ["good"; "great"; "excellent"; "amazing"; "wonderful"; "fantastic";
   "love"; "like"; "happy"; "pleased"].

Definition negativeWords : list string :=
  ["bad"; "terrible"; "awful"; "hate"; "dislike"; "angry"; "frustrated";
   "disappointed"; "sad"; "upset"].

(** [list.some((kw) => word.includes(kw))] *)
Definition some_included (list : list string) (word : string) : bool :=
  existsb (fun kw => JS.includes word kw) list.

Record Counters := mkCounters {
  positiveCount : Z;
  negativeCount : Z
}.

(** The body of [words.forEach]: two independent increments. *)
Definition count_step (c : Counters) (word : string) : Counters :=
  let c1 :=
    if some_included positiveWords word
    then {| positiveCount := positiveCount c + 1; negativeCount := negativeCount c |}
    else c in
  if some_included negativeWords word
  then {| positiveCount := positiveCount c1; negativeCount := negativeCount c1 + 1 |}
  else c1.

Record Distribution := mkDistribution {
  positive : Z;
  negative : Z;
  neutral : Z
}.

Record Overall := mkOverall {
  sentiment : string;
  confidence : Q;
  distribution : Distribution
}.

Record Sentiment := mkSentiment {
  overall : Overall;
  sentiment_segments : list unit
}.

(** [text.toLowerCase()] is left open: what is proved holds whatever
    the lower-casing does to the text. *)
Section Text.
Variable toLowerCase : string -> string.

Definition analyzeSentiment (text : string) : Sentiment :=
  let words := JS.split_ws (toLowerCase text) in
  let c := fold_left count_step words {| positiveCount := 0; negativeCount := 0 |} in
  let overallSentiment :=
    if (negativeCount c <? positiveCount c)%Z then "positive"
    else if (positiveCount c <? negativeCount c)%Z then "negative"
    else "neutral" in
  let len := Z.of_nat (List.length words) in
  {| overall :=
       {| sentiment := overallSentiment;
          confidence :=
            Qmin (9 # 10)
                 (inject_Z (Z.abs (positiveCount c - negativeCount c)) / inject_Z len
                  * inject_Z 10);
          distribution :=
            {| positive := positiveCount c;
               negative := negativeCount c;
               neutral := len - positiveCount c - negativeCount c |} |};
     sentiment_segments := [] |}.

(** The counts the description of the heuristic speaks of: the number
    of words of the lower-cased text that contain a keyword of the list. *)
Definition words_of (text : string) : list string :=
  JS.split_ws (toLowerCase text).

Definition keyword_count (keywords : list string) (text : string) : Z :=
  Z.of_nat (List.length (filter (some_included keywords) (words_of text))).

(** *** detectLanguage *)

Definition englishWords : list string :=
  ["the"; "and"; "is"; "in"; "to"; "of"; "a"; "that"; "it"; "with"; "for";
   "as"; "was"; "on"; "are"].

Definition spanishWords : list string :=
  ["el"; "la"; "de"; "que"; "y"; "en"; "un"; "es"; "se"; "no"; "te"; "lo";
   "le"; "da"; "su"].

Definition frenchWords : list string :=
  ["le"; "de"; "et"; "à"; "un"; "il"; "être"; "et"; "en"; "avoir"; "que";
   "pour"; "dans"; "ce"; "son"].

Record LangCounts := mkLangCounts {
  englishCount : nat;
  spanishCount : nat;
  frenchCount : nat
}.

Definition lang_step (c : LangCounts) (word : string) : LangCounts :=
  let c1 :=
    if JS.arr_includes englishWords word
    then {| englishCount := S (englishCount c); spanishCount := spanishCount c;
            frenchCount := frenchCount c |}
    else c in
  let c2 :=
    if JS.arr_includes spanishWords word
    then {| englishCount := englishCount c1; spanishCount := S (spanishCount c1);
            frenchCount := frenchCount c1 |}
    else c1 in
  if JS.arr_includes frenchWords word
  then {| englishCount := englishCount c2; spanishCount := spanishCount c2;
          frenchCount := S (frenchCount c2) |}
  else c2.

Definition lang_counts (text : string) : LangCounts :=
  fold_left lang_step (JS.split_ws (toLowerCase text))
            {| englishCount := 0; spanishCount := 0; frenchCount := 0 |}.

Definition detectLanguage (text : string) : string :=
  let c := lang_counts text in
  let e := englishCount c in
  let s := spanishCount c in
  let f := frenchCount c in
  if (s <? e)%nat && (f <? e)%nat then "en"
  else if (e <? s)%nat && (f <? s)%nat then "es"
  else if (e <? f)%nat && (s <? f)%nat then "fr"
  else "en".

(** The number of words of the lower-cased text that are entries of a
    vocabulary. *)
Definition vocabulary_count (vocabulary : list string) (text : string) : nat :=
  List.length (filter (JS.arr_includes vocabulary) (words_of text)).
End Text.

(** Two words held together by a no-break space, and a third. *)
Definition sample_text : string := "GOOD" ++ JS.nbsp ++ "great bad".

(** *** extractTopics *)

(** The pattern [/\b[A-Z][a-z]+(?:\s+[A-Z][a-z]+)*\b/g], read as the
    automaton a backtracking matcher follows, over the characters of
    the text.  Every quantifier is greedy, and giving back a letter or
    a blank never helps: the final [\b] would then stand before a
    lower-case letter, and a capital would be sought at a blank.  So
    each run is taken whole, and the only choice left is how many
    [\s+[A-Z][a-z]+] groups to keep; [best] is the longest prefix read
    so far that ends in a complete word followed by a boundary, [cur]
    everything read so far. *)
Inductive Phase :=
| Cap   (* a capital was read; a lower-case letter must follow *)
| Low   (* inside the lower-case letters of a word *)
| Gap.  (* inside the white space after a word *)

Definition lower_case (x : JS.Char) : bool :=
  match x with
  | JS.plain c => JS.is_lower c
  | JS.blank _ => false
  end.

Definition upper_case (x : JS.Char) : bool :=
  match x with
  | JS.plain c => JS.is_upper c
  | JS.blank _ => false
  end.

Definition word_char (x : JS.Char) : bool :=
  match x with
  | JS.plain c => JS.is_word c
  | JS.blank _ => false
  end.

Fixpoint run (ph : Phase) (best : option (list JS.Char)) (cur : list JS.Char)
         (s : list JS.Char) : option (list JS.Char) :=
  match s with
  | [] =>
      match ph with
      | Low => Some cur
      | _ => best
      end
  | x :: r =>
      match ph with
      | Cap => if lower_case x then run Low best (cur ++ [x]) r else best
      | Low =>
          if lower_case x then run Low best (cur ++ [x]) r
          else if word_char x then best
          else if JS.is_blank x then run Gap (Some cur) (cur ++ [x]) r
          else Some cur
      | Gap =>
          if JS.is_blank x then run Gap best (cur ++ [x]) r
          else if upper_case x then run Cap best (cur ++ [x]) r
          else best
      end
  end.

(** A match attempt at the head of [s]; [prev] is the character before
    it, which the leading [\b] inspects. *)
Definition match_here (prev : option JS.Char) (s : list JS.Char)
  : option (list JS.Char) :=
  match s with
  | [] => None
  | x :: r =>
      let boundary :=
        match prev with
        | None => true
        | Some p => negb (word_char p)
        end in
      if boundary && upper_case x then run Cap None [x] r else None
  end.

(** [text.match(topicPattern)]: the matches from left to right, each
    search resuming where the previous match ended.  [skip] counts the
    characters of the last match still to be passed over. *)
Fixpoint scan (skip : nat) (prev : option JS.Char) (s : list JS.Char)
  : list (list JS.Char) :=
  match s with
  | [] => []
  | x :: r =>
      match skip with
      | S k => scan k (Some x) r
      | O =>
          match match_here prev s with
          | Some m => m :: scan (List.length m - 1) (Some x) r
          | None => scan 0 (Some x) r
          end
      end
  end.

(** [text.match(topicPattern) || []] *)
Definition matches (text : string) : list string :=
  map JS.write (scan 0 None (JS.read text)).

Definition commonWords : list string :=
  ["The"; "This"; "That"; "And"; "But"; "Or"; "So"; "If"; "When"; "Where";
   "How"; "What"; "Who"; "Why"].

Record Topic := mkTopic {
  topic : string;
  topic_confidence : Q
}.

(** [acc.find((t) => t.topic === name)] followed by
    [existing.confidence += 0.1]: the first entry of that name is
    updated in place. *)
Fixpoint bump (name : string) (acc : list Topic) : list Topic :=
  match acc with
  | [] => []
  | t :: rest =>
      if String.eqb (topic t) name
      then {| topic := topic t; topic_confidence := topic_confidence t + (1 # 10) |} :: rest
      else t :: bump name rest
  end.

Definition found (name : string) (acc : list Topic) : bool :=
  existsb (fun t => String.eqb (topic t) name) acc.

(** [Math.random()] is a supply of samples, [random k] being the
    [k]-th draw; the reduction carries the number of draws made. *)
Section Topics.
Variable random : nat -> Q.

Definition reduce_step (st : list Topic * nat) (name : string) : list Topic * nat :=
  let (acc, draws) := st in
  if found name acc then (bump name acc, draws)
  else ((acc ++ [{| topic := name;
                    topic_confidence := (6 # 10) + random draws * (3 # 10) |}])%list,
        S draws).

(** [(a, b) => b.confidence - a.confidence] is positive when [a] is
    the less confident of the two. *)
Definition by_confidence (a b : Topic) : bool :=
  negb (Qle_bool (topic_confidence b) (topic_confidence a)).

Definition extractTopics (text : string) : list Topic :=
  let kept :=
    filter (fun m => (2 <? JS.length m)%nat
                     && negb (JS.arr_includes commonWords m))
           (matches text) in
  let reduced := fst (fold_left reduce_step kept ([], O)) in
  firstn 10 (JS.sort by_confidence reduced).

(** The confidence a phrase starts with when it is the [k]-th new one. *)
Definition base_confidence (k : nat) : Q := (6 # 10) + random k * (3 # 10).

(** What holds of the accumulator of the reduction once the names [seen]
    have gone through it: the names kept are those seen, each once, and
    an entry seen [n] times carries its starting confidence plus
    [(n - 1) / 10]. *)
Definition reduced_inv (seen : list string) (st : list Topic * nat) : Prop :=
  NoDup (map topic (fst st)) /\
  (forall n, In n (map topic (fst st)) <-> In n seen) /\
  (forall t, In t (fst st) ->
     exists k, (k < snd st)%nat /\
       topic_confidence t ==
       base_confidence k
       + inject_Z (Z.of_nat (count_occ string_dec seen (topic t)) - 1) * (1 # 10)).
End Topics.

(** The matches that pass the filter of [extractTopics], and the number
    of times a phrase occurs among them. *)
Definition kept_matches (text : string) : list string :=
  filter (fun m => (2 <? JS.length m)%nat
                   && negb (JS.arr_includes commonWords m))
         (matches text).

Definition occurrences (name : string) (names : list string) : nat :=
  count_occ string_dec names name.

Definition less_confident (a b : Topic) : Prop :=
  topic_confidence b <= topic_confidence a.

(** The language of the topic pattern: a word is a capital followed by
    one or more lower-case letters, and a phrase is one word, or a
    phrase, a non-empty run of white space and a word. *)
Definition word (w : list JS.Char) : Prop :=
  exists c lows,
    w = JS.plain c :: map JS.plain lows /\
    JS.is_upper c = true /\ lows <> [] /\ forallb JS.is_lower lows = true.

Inductive phrase : list JS.Char -> Prop :=
| phrase_one w : word w -> phrase w
| phrase_more p g w :
    phrase p -> JS.gap g -> word w -> phrase (p ++ g ++ w)%list.

(** A white-space character with its own bytes. *)
Definition well_read (x : JS.Char) : Prop :=
  match x with
  | JS.blank bytes =>
      bytes <> "" /\ JS.space_width bytes = String.length bytes
  | JS.plain _ => True
  end.

(** The character counts for one UTF-16 code unit. *)
Definition one_unit (x : JS.Char) : Prop :=
  match x with
  | JS.blank bytes => JS.length bytes = 1%nat
  | JS.plain c => JS.units_of c = 1%nat
  end.

(** The string is a phrase: its characters are those of a phrase, each
    white-space character with its own bytes. *)
Definition phrase_string (m : string) : Prop :=
  exists cs, m = JS.write cs /\ phrase cs /\ Forall well_read cs.

(** What [run] has read when it is in a phase: [lead] is what may stand
    before a word. *)
Definition lead (pre : list JS.Char) : Prop :=
  pre = [] \/ exists p g, pre = (p ++ g)%list /\ phrase p /\ JS.gap g.

Definition reading (ph : Phase) (cur : list JS.Char) : Prop :=
  match ph with
  | Cap =>
      exists pre c,
        cur = (pre ++ [JS.plain c])%list /\ JS.is_upper c = true /\ lead pre
  | Low =>
      exists pre c lows,
        cur = (pre ++ JS.plain c :: map JS.plain lows)%list /\
        JS.is_upper c = true /\ lows <> [] /\
        forallb JS.is_lower lows = true /\ lead pre
  | Gap => exists p g, cur = (p ++ g)%list /\ phrase p /\ JS.gap g
  end.

Fixpoint all_chars (p : ascii -> bool) (s : string) : bool :=
  match s with
  | EmptyString => true
  | String c r => p c && all_chars p r
  end.

(** A city named twice, its two words held together by a no-break
    space. *)
Definition new_york : string := "New" ++ JS.nbsp ++ "York".

Definition sample_cities : string := new_york ++ ", " ++ new_york ++ " and Paris".

(** *** processGeminiResponse *)

Definition MODEL_NAME : string := "gemini-2.0-flash-exp".

(** [s.split(sep)] for a one-character separator. *)
Fixpoint split_on (sep : ascii) (acc : string) (s : string) : list string :=
  match s with
  | EmptyString => [acc]
  | String c r =>
      if Ascii.eqb c sep then acc :: split_on sep "" r
      else split_on sep (JS.snoc acc c) r
  end.

Definition newline : ascii := ascii_of_nat 10.

(** The longest prefix of characters of a class, and what follows it: a
    greedy [\d+], [\d*] or [[a-z]+] before a character outside the
    class. *)
Fixpoint take_while (p : ascii -> bool) (s : string) : string * string :=
  match s with
  | EmptyString => (EmptyString, EmptyString)
  | String c r =>
      if p c then let (taken, rest) := take_while p r in (String c taken, rest)
      else (EmptyString, s)
  end.

Fixpoint strip_prefix (p s : string) : option string :=
  match p with
  | EmptyString => Some s
  | String a p' =>
      match s with
      | String b s' => if Ascii.eqb a b then strip_prefix p' s' else None
      | EmptyString => None
      end
  end.

(** A line terminator begins here: LF, CR, or the three bytes of U+2028
    or U+2029.  The dot of a pattern matches anything else. *)
Definition terminator_ahead (s : string) : bool :=
  match s with
  | EmptyString => false
  | String c r =>
      (JS.code c =? 10)%nat || (JS.code c =? 13)%nat
      || match r with
         | String c2 (String c3 _) =>
             (JS.code c =? 226)%nat && (JS.code c2 =? 128)%nat
             && ((JS.code c3 =? 168)%nat || (JS.code c3 =? 169)%nat)
         | _ => false
         end
  end.

(** What a greedy [.*] takes. *)
Fixpoint dot_run (s : string) : string :=
  match s with
  | EmptyString => EmptyString
  | String c r => if terminator_ahead s then EmptyString else String c (dot_run r)
  end.

(** [:(.+)] behind the label: a colon and at least one character. *)
Definition after_label (rest : string) : option string :=
  match rest with
  | String c body =>
      if Ascii.eqb c ":" then
        let text := dot_run body in
        if String.eqb text "" then None else Some text
      else None
  | EmptyString => None
  end.

(** The three alternatives of the label, each with what follows it.
    Giving back digits or letters never helps: the colon, or the blank,
    would be sought at a digit or a letter. *)
Definition label_speaker (line : string) : option (string * string) :=
  match strip_prefix "Speaker " line with
  | Some r =>
      let (digits, rest) := take_while JS.is_digit r in
      if String.eqb digits "" then None else Some ("Speaker " ++ digits, rest)
  | None => None
  end.

Definition label_person (line : string) : option (string * string) :=
  match strip_prefix "Person " line with
  | Some (String c rest) =>
      if JS.is_upper c then Some ("Person " ++ String c "", rest) else None
  | _ => None
  end.

Definition label_name (line : string) : option (string * string) :=
  match line with
  | String c r =>
      if JS.is_upper c then
        let (lows, r1) := take_while JS.is_lower r in
        if String.eqb lows "" then None
        else match r1 with
             | String b r2 =>
                 if Ascii.eqb b " " then
                   let (digits, rest) := take_while JS.is_digit r2 in
                   Some (String c lows ++ " " ++ digits, rest)
                 else None
             | EmptyString => None
             end
      else None
  | EmptyString => None
  end.

Definition with_text (label : option (string * string)) : option (string * string) :=
  match label with
  | Some (name, rest) =>
      match after_label rest with
      | Some text => Some (name, text)
      | None => None
      end
  | None => None
  end.

(** [line.match(...)] with the pattern of a speaker line: at the start of
    the line one of the labels [Speaker \d+], [Person [A-Z]] or
    [[A-Z][a-z]+ \d{0,}], then [:(.+)].  The result is the two groups of
    the first alternative that lets the whole pattern match. *)
Definition speakerMatch (line : string) : option (string * string) :=
  match with_text (label_speaker line) with
  | Some m => Some m
  | None =>
      match with_text (label_person line) with
      | Some m => Some m
      | None => with_text (label_name line)
      end
  end.

Record Segment := mkSegment {
  id : nat;
  speaker : option string;
  text : string
}.

(** One turn of [lines.forEach]; the state is the [Set] of speakers and
    the array of segments. *)
Definition line_step (st : list string * list Segment) (index : nat) (line : string)
  : list string * list Segment :=
  let (speakers, segments) := st in
  match speakerMatch line with
  | Some (label, said) =>
      let speaker := JS.trim label in
      (JS.str_set_add speakers speaker,
       (segments ++ [{| id := index; speaker := Some speaker; text := JS.trim said |}])%list)
  | None =>
      (speakers,
       (segments ++ [{| id := index; speaker := None; text := JS.trim line |}])%list)
  end.

Fixpoint lines_from (st : list string * list Segment) (index : nat) (lines : list string)
  : list string * list Segment :=
  match lines with
  | [] => st
  | line :: rest => lines_from (line_step st index line) (S index) rest
  end.

(** [transcriptionText.split("\n").filter((line) => line.trim())] *)
Definition lines_of (transcriptionText : string) : list string :=
  filter (fun line => negb (String.eqb (JS.trim line) ""))
         (split_on newline "" transcriptionText).

(** The time stamps [/\[(\d+:\d+(?:\.\d+)?)\]/g].  A time stamp that
    begins at the head of [s]: the text between the brackets. *)
Definition stamp_here (s : string) : option string :=
  match s with
  | String c r =>
      if Ascii.eqb c "[" then
        let (minutes, r1) := take_while JS.is_digit r in
        if String.eqb minutes "" then None
        else match r1 with
             | String c1 r2 =>
                 if Ascii.eqb c1 ":" then
                   let (secs, r3) := take_while JS.is_digit r2 in
                   if String.eqb secs "" then None
                   else
                     let (fraction, r4) :=
                       match r3 with
                       | String c3 r3' =>
                           if Ascii.eqb c3 "." then
                             let (digits, r4) := take_while JS.is_digit r3' in
                             if String.eqb digits "" then (EmptyString, r3)
                             else (String c3 digits, r4)
                           else (EmptyString, r3)
                       | EmptyString => (EmptyString, r3)
                       end in
                     match r4 with
                     | String c4 _ =>
                         if Ascii.eqb c4 "]"
                         then Some (minutes ++ ":" ++ secs ++ fraction)
                         else None
                     | EmptyString => None
                     end
                 else None
             | EmptyString => None
             end
      else None
  | EmptyString => None
  end.

Record Timestamp := mkTimestamp {
  time : string;
  position : nat
}.

(** The [exec] loop: [units] is the index of the head of [s], [skip] the
    number of characters of the last match still to pass. *)
Fixpoint stamps (skip : nat) (units : nat) (s : string) : list Timestamp :=
  match s with
  | EmptyString => []
  | String c r =>
      match skip with
      | S k => stamps k (units + JS.units_of c) r
      | O =>
          match stamp_here s with
          | Some t =>
              {| time := t; position := units |}
                :: stamps (String.length t + 1) (units + JS.units_of c) r
          | None => stamps 0 (units + JS.units_of c) r
          end
      end
  end.

(** Three lines: the second holds a no-break space and nothing else, the
    third ends in one. *)
Definition sample_lines : string :=
  "good morning" ++ String newline (JS.nbsp ++ String newline (" hello" ++ JS.nbsp)).

(** The speakers that the segments name, in segment order. *)
Definition labels (segments : list Segment) : list string :=
  flat_map (fun segment => match speaker segment with
                           | Some s => [s]
                           | None => []
                           end) segments.

(** A non-empty run of digits, and the form of the text of a time
    stamp: minutes, a colon, seconds and possibly a dot and a fraction. *)
Definition digit_string (s : string) : Prop :=
  s <> "" /\ all_chars JS.is_digit s = true.

Definition stamp_shaped (t : string) : Prop :=
  exists minutes secs fraction,
    t = minutes ++ ":" ++ secs ++ fraction /\
    digit_string minutes /\ digit_string secs /\
    (fraction = "" \/ exists d, fraction = String "." d /\ digit_string d).

Record Raw := mkRaw {
  raw_text : string;
  raw_segments : list Segment;
  raw_speakers : list string
}.

Record Result := mkResult {
  res_text : string;
  res_confidence : Q;
  language : string;
  speakers : list string;
  segments : list Segment;
  paragraphs : list Segment;
  topics : list Topic;
  res_sentiment : Sentiment;
  timestamps : list Timestamp;
  provider : string;
  model : string;
  raw : Raw
}.

Definition processGeminiResponse (toLowerCase : string -> string)
           (random : nat -> Q) (transcriptionText : string) : Result :=
  let lines := lines_of transcriptionText in
  let (speakers, segments) := lines_from ([], []) 0 lines in
  {| res_text := transcriptionText;
     res_confidence := 85 # 100;
     language := detectLanguage toLowerCase transcriptionText;
     speakers := speakers;
     segments := segments;
     (* [s.text.length > 0]: the text is not empty *)
     paragraphs := filter (fun s => (0 <? String.length (text s))%nat) segments;
     topics := extractTopics random transcriptionText;
     res_sentiment := analyzeSentiment toLowerCase transcriptionText;
     timestamps := stamps 0 0 transcriptionText;
     provider := "gemini";
     model := MODEL_NAME;
     raw := {| raw_text := transcriptionText;
               raw_segments := segments;
               raw_speakers := speakers |} |}.

End Gemini.

(* ================================================================== *)
(** ** The Deepgram route: normalising the provider's JSON             *)
(* ================================================================== *)

Module Deepgram.

(** *** The response, as the code reads it

    Field names carry a prefix where two objects share a name:
    [w_] a word, [p_] a paragraph, [s_] a sentiment segment, [a_] an
    alternative, [r_] the [results] object. *)

Record Word := mkWord {
  word : string;
  punctuated_word : option string;
  w_start : Q;
  w_end : Q;
  w_speaker : option N;
  w_confidence : Q
}.

Record Paragraph := mkParagraph {
  p_start : Q;
  p_end : Q;
  p_text : string;
  p_speaker : option N;
  p_sentiment : option string
}.

Record Paragraphs := mkParagraphs {
  paragraphs : option (list Paragraph)
}.

Record Alternative := mkAlternative {
  transcript : option string;
  a_confidence : option Q;
  words : option (list Word);
  a_paragraphs : option Paragraphs
}.

Record Channel := mkChannel {
  alternatives : option (list Alternative)
}.

Record TopicIn := mkTopicIn {
  t_topic : string;
  confidence_score : Q
}.

Record Topics := mkTopics {
  topics : option (list TopicIn)
}.

Record SentimentSegment := mkSentimentSegment {
  s_start : Q;
  s_end : Q;
  s_sentiment : option string;
  sentiment_score : option Q
}.

Record SentimentIn := mkSentimentIn {
  s_segments : option (list SentimentSegment)
}.

Record Metadata := mkMetadata {
  detected_language : option string
}.

Record Results := mkResults {
  channels : option (list Channel);
  r_topics : option Topics;
  r_sentiment : option SentimentIn;
  r_metadata : option Metadata
}.

Record Response := mkResponse {
  results : option Results
}.

(** *** calculateOverallSentiment *)

(** [sentimentCounts], an object whose own keys are, in insertion
    order, [positive], [negative] and [neutral]. *)
Record Counts := mkCounts {
  positive : nat;
  negative : nat;
  neutral : nat
}.

Definition hasOwnProperty (key : string) : bool :=
  String.eqb key "positive" || String.eqb key "negative" || String.eqb key "neutral".

Definition get (c : Counts) (key : string) : nat :=
  if String.eqb key "positive" then positive c
  else if String.eqb key "negative" then negative c
  else if String.eqb key "neutral" then neutral c
  else 0.

Definition incr (c : Counts) (key : string) : Counts :=
  if String.eqb key "positive"
  then {| positive := S (positive c); negative := negative c; neutral := neutral c |}
  else if String.eqb key "negative"
  then {| positive := positive c; negative := S (negative c); neutral := neutral c |}
  else if String.eqb key "neutral"
  then {| positive := positive c; negative := negative c; neutral := S (neutral c) |}
  else c.

(** [Object.entries(sentimentCounts)] *)
Definition entries (c : Counts) : list (string * nat) :=
  [("positive", positive c); ("negative", negative c); ("neutral", neutral c)].

(** A missing or empty value is falsy. *)
Definition truthy (s : option string) : option string :=
  match s with
  | Some v => if String.eqb v "" then None else Some v
  | None => None
  end.

Definition or_zero (q : option Q) : Q :=
  match q with
  | Some v => v
  | None => 0
  end.

Definition tally (st : Counts * Q) (seg : SentimentSegment) : Counts * Q :=
  let (sentimentCounts, totalConfidence) := st in
  match truthy (s_sentiment seg) with
  | Some key =>
      if hasOwnProperty key
      then (incr sentimentCounts key, totalConfidence + or_zero (sentiment_score seg))
      else st
  | None => st
  end.

(** The callback of [reduce]: [a] is kept only when its count is
    strictly the greater one. *)
Definition pick (c : Counts) (a b : string * nat) : string * nat :=
  if (get c (fst b) <? get c (fst a))%nat then a else b.

Record OverallSentiment := mkOverallSentiment {
  sentiment : string;
  confidence : Q;
  distribution : Counts
}.

Definition calculateOverallSentiment (segments : list SentimentSegment)
  : option OverallSentiment :=
  match segments with
  | [] => None
  | _ =>
      let (sentimentCounts, totalConfidence) :=
        fold_left tally segments ({| positive := 0; negative := 0; neutral := 0 |}, 0) in
      match JS.reduce1 (pick sentimentCounts) (entries sentimentCounts) with
      | Some maxEntry =>
          Some {| sentiment := fst maxEntry;
                  confidence := totalConfidence / inject_Z (Z.of_nat (List.length segments));
                  distribution := sentimentCounts |}
      | None => None
      end
  end.

(** The vote, as the description of the majority rule speaks of it: the
    three classes in their enumeration order, the number of segments
    labelled with a class, the highest of the three numbers, and the
    classes that reach it, again in enumeration order. *)
Definition classes : list string := ["positive"; "negative"; "neutral"].

Definition labelled (k : string) (seg : SentimentSegment) : bool :=
  match truthy (s_sentiment seg) with
  | Some v => String.eqb v k
  | None => false
  end.

Definition bit (b : bool) : nat := if b then 1 else 0.

Definition class_count (k : string) (segments : list SentimentSegment) : nat :=
  List.length (filter (labelled k) segments).

Definition max_count (segments : list SentimentSegment) : nat :=
  Nat.max (class_count "positive" segments)
          (Nat.max (class_count "negative" segments) (class_count "neutral" segments)).

Definition leaders (segments : list SentimentSegment) : list string :=
  filter (fun k => (class_count k segments =? max_count segments)%nat) classes.

Definition segment_labelled (label : string) : SentimentSegment :=
  {| s_start := 0; s_end := 1; s_sentiment := Some label; sentiment_score := Some (1 # 2) |}.

(** *** processDeepgramResponse *)

Record Segment := mkSegment {
  id : nat;
  start : Q;
  end_ : Q;
  text : string;
  speaker : option N;
  seg_confidence : Q
}.

Record TopicOut := mkTopicOut {
  topic : string;
  topic_confidence : Q
}.

Record SentimentSegmentOut := mkSentimentSegmentOut {
  so_start : Q;
  so_end : Q;
  so_sentiment : option string;
  so_confidence : option Q
}.

Record SentimentOut := mkSentimentOut {
  overall : option OverallSentiment;
  so_segments : list SentimentSegmentOut
}.

(** The object returned.  The two early returns build an object
    without [paragraphs] and [metadata]; they are [None] there. *)
Record Processed := mkProcessed {
  out_text : string;
  out_confidence : Q;
  out_language : option string;
  out_speakers : list N;
  out_segments : list Segment;
  out_paragraphs : option (list Paragraph);
  out_topics : list TopicOut;
  out_sentiment : option SentimentOut;
  out_metadata : option Metadata;
  raw : Response
}.

Definition empty_result (response : Response) : Processed :=
  {| out_text := "";
     out_confidence := 0;
     out_language := None;
     out_speakers := [];
     out_segments := [];
     out_paragraphs := None;
     out_topics := [];
     out_sentiment := None;
     out_metadata := None;
     raw := response |}.

Inductive Exn :=
| TypeError (message : string).

(** The callback of [alternatives.words.map]: it records the speaker
    in the [Set] and builds the segment. *)
Definition word_segment (index : nat) (w : Word) : Segment :=
  {| id := index;
     start := w_start w;
     end_ := w_end w;
     text := match truthy (punctuated_word w) with
             | Some p => p
             | None => word w
             end;
     speaker := w_speaker w;
     seg_confidence := w_confidence w |}.

Fixpoint map_words (index : nat) (speakers : list N) (ws : list Word)
  : list Segment * list N :=
  match ws with
  | [] => ([], speakers)
  | w :: rest =>
      let speakers' :=
        match w_speaker w with
        | Some sp => JS.set_add sp speakers
        | None => speakers
        end in
      let (segs, final) := map_words (S index) speakers' rest in
      (word_segment index w :: segs, final)
  end.

Definition processDeepgramResponse (response : Response) : Exn + Processed :=
  match results response with
  | None => inr (empty_result response)
  | Some res =>
      match channels res with
      | None | Some [] => inr (empty_result response)
      | Some (channel :: _) =>
          match alternatives channel with
          | None =>
              inl (TypeError "Cannot read properties of undefined (reading '0')")
          | Some [] => inr (empty_result response)
          | Some (alt :: _) =>
              let (segments, speakers) :=
                match words alt with
                | Some ws => map_words 0 [] ws
                | None => ([], [])
                end in
              let paragraphs :=
                match a_paragraphs alt with
                | Some ps =>
                    match paragraphs ps with
                    | Some l =>
                        map (fun p => {| p_start := p_start p; p_end := p_end p;
                                         p_text := p_text p; p_speaker := p_speaker p;
                                         p_sentiment := p_sentiment p |}) l
                    | None => []
                    end
                | None => []
                end in
              let topics :=
                match r_topics res with
                | Some ts =>
                    match topics ts with
                    | Some l =>
                        map (fun t => {| topic := t_topic t;
                                         topic_confidence := confidence_score t |}) l
                    | None => []
                    end
                | None => []
                end in
              let sentiment :=
                match r_sentiment res with
                | Some s =>
                    match s_segments s with
                    | Some (seg :: more) =>
                        Some {| overall := calculateOverallSentiment (seg :: more);
                                so_segments :=
                                  map (fun sg => {| so_start := s_start sg;
                                                    so_end := s_end sg;
                                                    so_sentiment := s_sentiment sg;
                                                    so_confidence := sentiment_score sg |})
                                      (seg :: more) |}
                    | _ => None
                    end
                | None => None
                end in
              let language :=
                match r_metadata res with
                | Some m => truthy (detected_language m)
                | None => None
                end in
              inr {| out_text := match truthy (transcript alt) with
                                 | Some t => t
                                 | None => ""
                                 end;
                     out_confidence := or_zero (a_confidence alt);
                     out_language := language;
                     out_speakers := JS.sort JS.default_after speakers;
                     out_segments := segments;
                     out_paragraphs := Some paragraphs;
                     out_topics := topics;
                     out_sentiment := sentiment;
                     out_metadata := r_metadata res;
                     raw := response |}
          end
      end
  end.

(** Sample responses: one channel with one alternative holding the given
    words; no channel; a channel without alternatives; a channel whose
    [alternatives] field is absent. *)
Definition response_of_words (ws : list Word) : Response :=
  {| results :=
       Some {| channels :=
                 Some [{| alternatives :=
                            Some [{| transcript := Some "hello";
                                     a_confidence := Some 1;
                                     words := Some ws;
                                     a_paragraphs := None |}] |}];
               r_topics := None;
               r_sentiment := None;
               r_metadata := None |} |}.

Definition spoken_by (sp : N) : Word :=
  {| word := "hello"; punctuated_word := None; w_start := 0; w_end := 1;
     w_speaker := Some sp; w_confidence := 1 |}.

Definition response_of_channels (chs : list Channel) : Response :=
  {| results := Some {| channels := Some chs; r_topics := None;
                        r_sentiment := None; r_metadata := None |} |}.

(** The speaker identifiers of the words, in order of first occurrence. *)
Definition note_speaker (seen : list N) (w : Word) : list N :=
  match w_speaker w with
  | Some sp => JS.set_add sp seen
  | None => seen
  end.

Definition observed (ws : list Word) : list N := fold_left note_speaker ws [].

(** The order [sort()] leaves numbers in: that of their decimal
    spellings. *)
Definition spelled_le (a b : N) : Prop :=
  String.ltb (JS.toString b) (JS.toString a) = false.

(** The alternative the normaliser reads: the first alternative of the
    first channel, when there is one. *)
Definition first_alternative (response : Response) : option Alternative :=
  match results response with
  | Some res =>
      match channels res with
      | Some (channel :: _) =>
          match alternatives channel with
          | Some (alt :: _) => Some alt
          | _ => None
          end
      | _ => None
      end
  | None => None
  end.

Definition words_of (alt : Alternative) : list Word :=
  match words alt with
  | Some ws => ws
  | None => []
  end.

(** The first channel is there and has no [alternatives] field. *)
Definition alternatives_absent (response : Response) : Prop :=
  exists res ch rest,
    results response = Some res /\
    channels res = Some (ch :: rest) /\
    alternatives ch = None.

(** A sentiment segment whose label is one of the three classes, and the
    scores of such segments. *)
Definition recognised (seg : SentimentSegment) : bool :=
  match truthy (s_sentiment seg) with
  | Some key => hasOwnProperty key
  | None => false
  end.

Definition recognised_scores (segments : list SentimentSegment) : list Q :=
  map (fun seg => or_zero (sentiment_score seg)) (filter recognised segments).

Definition Qsum (l : list Q) : Q := fold_right Qplus 0 l.

Definition sample_alternative : Alternative :=
  {| transcript := Some "hi there";
     a_confidence := Some (9 # 10);
     words := Some [{| word := "hi"; punctuated_word := Some "Hi"; w_start := 0;
                       w_end := 1; w_speaker := Some 1%N; w_confidence := 1 |};
                    {| word := "there"; punctuated_word := None; w_start := 1;
                       w_end := 2; w_speaker := Some 0%N; w_confidence := 1 |}];
     a_paragraphs := None |}.

Definition sample_response : Response :=
  response_of_channels [{| alternatives := Some [sample_alternative] |}].

End Deepgram.

(* ================================================================== *)
(** ** The options panel                                                *)
(* ================================================================== *)

Module OptionsPanel.

Inductive TopicMode := strict | extended | default.

(** [provider] is declared as one of three literals, but
    [handleProviderChange] receives an arbitrary string and casts it,
    so the field holds a string. *)
Record TranscriptionOptions := mkOptions {
  provider : string;
  model : string;
  language : string;
  diarize : bool;
  sentiment : bool;
  topics : bool;
  detectLanguage : bool;
  customTopicMode : TopicMode;
  customTopics : list string;
  includeTimestamps : option bool;
  speakerLabels : option bool;
  punctuation : option bool
}.

Definition with_provider (options : TranscriptionOptions) (p : string)
  : TranscriptionOptions :=
  {| provider := p;
     model := model options;
     language := language options;
     diarize := diarize options;
     sentiment := sentiment options;
     topics := topics options;
     detectLanguage := detectLanguage options;
     customTopicMode := customTopicMode options;
     customTopics := customTopics options;
     includeTimestamps := includeTimestamps options;
     speakerLabels := speakerLabels options;
     punctuation := punctuation options |}.

Definition with_model (options : TranscriptionOptions) (m : string)
  : TranscriptionOptions :=
  {| provider := provider options;
     model := m;
     language := language options;
     diarize := diarize options;
     sentiment := sentiment options;
     topics := topics options;
     detectLanguage := detectLanguage options;
     customTopicMode := customTopicMode options;
     customTopics := customTopics options;
     includeTimestamps := includeTimestamps options;
     speakerLabels := speakerLabels options;
     punctuation := punctuation options |}.

(** The options handed to [onChange]. *)
Definition handleProviderChange (options : TranscriptionOptions)
           (newProviderValue : string) : TranscriptionOptions :=
  let newProvider := newProviderValue in
  if String.eqb newProvider "openai"
  then with_model (with_provider options newProvider) "whisper-1"
  else if String.eqb newProvider "gemini"
  then with_model (with_provider options newProvider) "gemini-2.5-flash-preview-04-17"
  else if String.eqb newProvider "deepgram"
  then with_model (with_provider options newProvider) "nova-3"
  else with_provider options newProvider.

(** The default model of each provider. *)
Definition providers : list string := ["openai"; "deepgram"; "gemini"].

Definition default_model (p : string) : string :=
  if String.eqb p "openai" then "whisper-1"
  else if String.eqb p "deepgram" then "nova-3"
  else "gemini-2.5-flash-preview-04-17".

Definition sample_options : TranscriptionOptions :=
  {| provider := "openai"; model := "whisper-1"; language := "en";
     diarize := true; sentiment := false; topics := true;
     detectLanguage := false; customTopicMode := extended;
     customTopics := ["budget"]; includeTimestamps := Some true;
     speakerLabels := None; punctuation := Some false |}.

(** *** The custom topics

    [updateOption("customTopics", value)] hands to [onChange] the options
    with that one field replaced.  The parent stores what [onChange]
    receives and passes it back as [options], so a handler maps the
    options it sees to the options seen next. *)
Definition with_customTopics (options : TranscriptionOptions) (value : list string)
  : TranscriptionOptions :=
  {| provider := provider options;
     model := model options;
     language := language options;
     diarize := diarize options;
     sentiment := sentiment options;
     topics := topics options;
     detectLanguage := detectLanguage options;
     customTopicMode := customTopicMode options;
     customTopics := value;
     includeTimestamps := includeTimestamps options;
     speakerLabels := speakerLabels options;
     punctuation := punctuation options |}.

(** The options and the text of the input field ([newTopic]). *)
Record Panel := mkPanel {
  panel_options : TranscriptionOptions;
  newTopic : string
}.

Definition addCustomTopic (p : Panel) : Panel :=
  let options := panel_options p in
  let trimmed := JS.trim (newTopic p) in
  if negb (String.eqb trimmed "")
     && negb (JS.arr_includes (customTopics options) trimmed)
  then {| panel_options :=
            with_customTopics options (customTopics options ++ [trimmed])%list;
          newTopic := "" |}
  else p.

Definition removeCustomTopic (options : TranscriptionOptions) (topic : string)
  : TranscriptionOptions :=
  with_customTopics options
    (filter (fun t => negb (String.eqb t topic)) (customTopics options)).

(** The own keys of the [presets] object.  The panel passes only these
    five names. *)
Definition presets : list (string * list string) :=
  [("medical", ["medicine"; "doctor"; "surgeon"; "nurse"; "patient"; "diagnosis";
                "treatment"; "symptoms"]);
   ("business", ["meeting"; "project"; "deadline"; "budget"; "strategy"; "client";
                 "revenue"; "marketing"]);
   ("education", ["student"; "teacher"; "lesson"; "homework"; "exam"; "grade";
                  "curriculum"; "learning"]);
   ("legal", ["law"; "court"; "judge"; "lawyer"; "case"; "evidence"; "contract";
              "litigation"]);
   ("technology", ["software"; "development"; "programming"; "database"; "security";
                   "cloud"; "AI"; "API"])].

Definition preset_names : list string := map fst presets.

(** [presets[preset] || []] *)
Fixpoint lookup (table : list (string * list string)) (key : string) : list string :=
  match table with
  | [] => []
  | (k, v) :: rest => if String.eqb k key then v else lookup rest key
  end.

Definition addPresetTopics (options : TranscriptionOptions) (preset : string)
  : TranscriptionOptions :=
  let topicsToAdd := lookup presets preset in
  let newTopics := JS.str_set_of (customTopics options ++ topicsToAdd)%list in
  with_customTopics options newTopics.

End OptionsPanel.

(* ================================================================== *)
(** ** audio-processor.ts                                               *)
(* ================================================================== *)

Module AudioProcessor.

(** An [AudioBuffer]: its sample rate, its length in sample frames and
    the samples of each channel.  The platform only builds buffers with
    at least one channel, one frame and a positive rate, every channel
    holding [buffer_length] samples ([well_formed]). *)
Record AudioBuffer := mkAudioBuffer {
  sampleRate : nat;
  buffer_length : nat;
  channels : list (list Q)
}.

Definition numberOfChannels (b : AudioBuffer) : nat := List.length (channels b).

Definition getChannelData (b : AudioBuffer) (channel : nat) : list Q :=
  nth channel (channels b) [].

Definition well_formed (b : AudioBuffer) : Prop :=
  (1 <= numberOfChannels b)%nat /\
  (1 <= buffer_length b)%nat /\
  (1 <= sampleRate b)%nat /\
  Forall (fun data => List.length data = buffer_length b) (channels b).

(** [new AudioContext().createBuffer(numChannels, length, sampleRate)]:
    a silent buffer; a zero count, length or rate is refused with an
    exception. *)
Definition createBuffer (numChannels len rate : nat) : option AudioBuffer :=
  if (numChannels =? 0)%nat || (len =? 0)%nat || (rate =? 0)%nat then None
  else Some {| sampleRate := rate;
               buffer_length := len;
               channels := repeat (repeat 0 len) numChannels |}.

(** *** chunkAudio *)

(** [Math.ceil(a / b)] for whole numbers, [b] positive. *)
Definition ceil_div (a b : nat) : nat := (a + b - 1) / b.

(** The inner loop: [outputData[j] = inputData[startSample + j]] for
    [j] below [chunkLength]. *)
Definition copy_chunk (startSample chunkLength : nat) (inputData : list Q) : list Q :=
  map (fun j => nth (startSample + j) inputData 0) (seq 0 chunkLength).

(** One turn of the outer loop. *)
Definition chunk_at (audioBuffer : AudioBuffer) (maxChunkSamples i : nat)
  : option AudioBuffer :=
  let startSample := (i * maxChunkSamples)%nat in
  let endSample := Nat.min (startSample + maxChunkSamples) (buffer_length audioBuffer) in
  let chunkLength := (endSample - startSample)%nat in
  match createBuffer (numberOfChannels audioBuffer) chunkLength (sampleRate audioBuffer) with
  | None => None
  | Some chunkBuffer =>
      Some {| sampleRate := sampleRate chunkBuffer;
              buffer_length := buffer_length chunkBuffer;
              channels :=
                map (fun channel =>
                       copy_chunk startSample chunkLength
                                  (getChannelData audioBuffer channel))
                    (seq 0 (numberOfChannels audioBuffer)) |}
  end.

(** The chunks are built in order; an exception ends the loop. *)
Fixpoint build (f : nat -> option AudioBuffer) (indices : list nat)
  : option (list AudioBuffer) :=
  match indices with
  | [] => Some []
  | i :: rest =>
      match f i with
      | None => None
      | Some chunk =>
          match build f rest with
          | None => None
          | Some chunks => Some (chunk :: chunks)
          end
      end
  end.

(** [maxChunkDuration] is a whole number of seconds.  With a zero
    [maxChunkSamples] the number of chunks is infinite and the first
    chunk, of length 0, is refused (no chunk at all for an empty
    buffer). *)
Definition chunkAudio (audioBuffer : AudioBuffer) (maxChunkDuration : nat)
  : option (list AudioBuffer) :=
  let maxChunkSamples := (maxChunkDuration * sampleRate audioBuffer)%nat in
  if (maxChunkSamples =? 0)%nat then
    if (buffer_length audioBuffer =? 0)%nat then Some [] else None
  else
    let numChunks := ceil_div (buffer_length audioBuffer) maxChunkSamples in
    build (chunk_at audioBuffer maxChunkSamples) (seq 0 numChunks).

(** The chunk of index [i] as a slice of every channel: at most [max]
    samples from position [i * max] on. *)
Definition slice_chunk (b : AudioBuffer) (max i : nat) : AudioBuffer :=
  {| sampleRate := sampleRate b;
     buffer_length := Nat.min (i * max + max) (buffer_length b) - i * max;
     channels := map (fun data => firstn max (skipn (i * max) data)) (channels b) |}.

(** *** detectSilence *)

Record Range := mkRange {
  start : Q;
  end_ : Q
}.

(** The variables of the loop; [R] is the type of the ranges pushed. *)
Record Scan (R : Type) := mkScan {
  isSilence : bool;
  silenceStart : nat;
  consecutiveSilenceFrames : nat;
  silenceRanges : list R
}.
Arguments isSilence {R}.
Arguments silenceStart {R}.
Arguments consecutiveSilenceFrames {R}.
Arguments silenceRanges {R}.

(** [Math.abs(sample) < silenceThreshold] *)
Definition quiet (silenceThreshold sample : Q) : bool :=
  negb (Qle_bool silenceThreshold (Qabs sample)).

Section Silence.
Context {R : Type}.
(** The range pushed for a silence from frame [s] up to frame [e]. *)
Variable range_of : nat -> nat -> R.
Variable silenceThreshold : Q.
Variable silenceFrames : Z.

Definition long_enough (st : Scan R) : bool :=
  isSilence st && (silenceFrames <=? Z.of_nat (consecutiveSilenceFrames st))%Z.

(** The body of the loop at index [i]. *)
Definition frame (st : Scan R) (i : nat) (sample : Q) : Scan R :=
  if quiet silenceThreshold sample then
    {| isSilence := true;
       silenceStart := if isSilence st then silenceStart st else i;
       consecutiveSilenceFrames := S (consecutiveSilenceFrames st);
       silenceRanges := silenceRanges st |}
  else
    {| isSilence := false;
       silenceStart := silenceStart st;
       consecutiveSilenceFrames := 0;
       silenceRanges :=
         if long_enough st
         then (silenceRanges st ++ [range_of (silenceStart st) i])%list
         else silenceRanges st |}.

Fixpoint frames_from (st : Scan R) (i : nat) (channelData : list Q) : Scan R :=
  match channelData with
  | [] => st
  | sample :: rest => frames_from (frame st i sample) (S i) rest
  end.

(** The loop, and the check made after it for a silence that lasts to
    the end of the data. *)
Definition silences (channelData : list Q) : list R :=
  let st := frames_from {| isSilence := false; silenceStart := 0;
                           consecutiveSilenceFrames := 0; silenceRanges := [] |}
                        0 channelData in
  if long_enough st
  then (silenceRanges st ++ [range_of (silenceStart st) (List.length channelData)])%list
  else silenceRanges st.
End Silence.

(** [Math.round(x)]: the nearest integer, halves upwards. *)
Definition round (x : Q) : Z := Qfloor (x + (1 # 2)).

Definition seconds (rate : nat) (s e : nat) : Range :=
  {| start := inject_Z (Z.of_nat s) / inject_Z (Z.of_nat rate);
     end_ := inject_Z (Z.of_nat e) / inject_Z (Z.of_nat rate) |}.

Definition detectSilence (audioBuffer : AudioBuffer)
           (silenceThreshold minSilenceDuration : Q) : list Range :=
  let channelData := getChannelData audioBuffer 0 in
  let silenceFrames :=
    round (minSilenceDuration * inject_Z (Z.of_nat (sampleRate audioBuffer))) in
  silences (seconds (sampleRate audioBuffer)) silenceThreshold silenceFrames channelData.

(** The same scan with the ranges left in frames. *)
Definition silent_frames (silenceThreshold : Q) (silenceFrames : Z)
           (channelData : list Q) : list (nat * nat) :=
  silences pair silenceThreshold silenceFrames channelData.

(** Frame [k] of the data is below the threshold. *)
Definition quiet_at (silenceThreshold : Q) (channelData : list Q) (k : nat) : Prop :=
  exists sample, nth_error channelData k = Some sample /\
                 quiet silenceThreshold sample = true.

(** The frames from [s] up to [e] are a stretch of silence that can be
    extended on neither side. *)
Definition silent_stretch (silenceThreshold : Q) (channelData : list Q) (s e : nat)
  : Prop :=
  (s < e <= List.length channelData)%nat /\
  (forall k, (s <= k < e)%nat -> quiet_at silenceThreshold channelData k) /\
  (s = 0%nat \/ ~ quiet_at silenceThreshold channelData (s - 1)) /\
  (e = List.length channelData \/ ~ quiet_at silenceThreshold channelData e).

(** What the scan knows after [i] frames: the state describes the silence
    in progress, if any, and the ranges pushed are the long-enough
    stretches that a loud frame before [i] has ended, in order. *)
Definition ended_before (silenceThreshold : Q) (silenceFrames : Z)
           (channelData : list Q) (i s e : nat) : Prop :=
  (s < e)%nat /\ (e < i)%nat /\
  (forall k, (s <= k < e)%nat -> quiet_at silenceThreshold channelData k) /\
  (s = 0%nat \/ ~ quiet_at silenceThreshold channelData (s - 1)) /\
  ~ quiet_at silenceThreshold channelData e /\
  (silenceFrames <= Z.of_nat (e - s))%Z.

Definition apart (a b : nat * nat) : Prop := (snd a < fst b)%nat.

Definition scan_inv (silenceThreshold : Q) (silenceFrames : Z)
           (channelData : list Q) (i : nat) (st : Scan (nat * nat)) : Prop :=
  (isSilence st = true ->
     (silenceStart st < i)%nat /\
     consecutiveSilenceFrames st = (i - silenceStart st)%nat /\
     (forall k, (silenceStart st <= k < i)%nat ->
                quiet_at silenceThreshold channelData k) /\
     (silenceStart st = 0%nat \/
      ~ quiet_at silenceThreshold channelData (silenceStart st - 1))) /\
  (isSilence st = false ->
     consecutiveSilenceFrames st = 0%nat /\
     (i = 0%nat \/ ~ quiet_at silenceThreshold channelData (i - 1))) /\
  (forall s e, In (s, e) (silenceRanges st) <->
               ended_before silenceThreshold silenceFrames channelData i s e) /\
  StronglySorted apart (silenceRanges st).

(** A scan state with its ranges converted. *)
Definition scan_map {A B : Type} (f : A -> B) (st : Scan A) : Scan B :=
  {| isSilence := isSilence st;
     silenceStart := silenceStart st;
     consecutiveSilenceFrames := consecutiveSilenceFrames st;
     silenceRanges := map f (silenceRanges st) |}.

Definition in_seconds (rate : nat) (r : nat * nat) : Range :=
  seconds rate (fst r) (snd r).

Definition sample_buffer : AudioBuffer :=
  {| sampleRate := 2;
     buffer_length := 5;
     channels := [[1; 0; 0; 1; 0]; [0; 0; 1; 1; 1]] |}.

End AudioProcessor.

(* ================================================================== *)
(** ** The recordings route and the recording metadata                  *)
(* ================================================================== *)

Module Recordings.

(** *** Names *)

(** [[a-zA-Z0-9.-]] *)
Definition safe_char (c : ascii) : bool :=
  JS.is_upper c || JS.is_lower c || JS.is_digit c
  || Ascii.eqb c "."%char || Ascii.eqb c "-"%char.

(** [name.replace(/[^a-zA-Z0-9.-]/g, "_")]: every code unit outside
    the class becomes an underscore, so a byte gives as many underscores
    as it stands for code units. *)
Fixpoint underscores (n : nat) : string :=
  match n with
  | O => EmptyString
  | S k => String "_" (underscores k)
  end.

Fixpoint sanitize (name : string) : string :=
  match name with
  | EmptyString => EmptyString
  | String c r =>
      (if safe_char c then String c EmptyString else underscores (JS.units_of c))
      ++ sanitize r
  end.

(** [iso.replace(/[:.]/g, "-")] *)
Fixpoint dashes (iso : string) : string :=
  match iso with
  | EmptyString => EmptyString
  | String c r =>
      String (if Ascii.eqb c ":"%char || Ascii.eqb c "."%char then "-"%char else c)
             (dashes r)
  end.

(** [a || b] on strings, [a] possibly absent. *)
Definition or_else (a : option string) (b : string) : string :=
  match a with
  | Some v => if String.eqb v "" then b else v
  | None => b
  end.

(** [s.split("/")]: the pieces between the slashes. *)
Fixpoint split_slash (acc : string) (s : string) : list string :=
  match s with
  | EmptyString => [acc]
  | String c r =>
      if Ascii.eqb c "/"%char then acc :: split_slash "" r
      else split_slash (JS.snoc acc c) r
  end.

(** [parts.pop()] / [parts[parts.length - 1]] *)
Definition last_piece (pathname : string) : string :=
  last (split_slash "" pathname) "".

(** One position of the pattern
    [/^\d{4}-\d{2}-\d{2}T\d{2}-\d{2}-\d{2}-\d{3}Z_/]. *)
Inductive Slot := digit | exactly (c : ascii).

Definition fits (slot : Slot) (c : ascii) : bool :=
  match slot with
  | digit => JS.is_digit c
  | exactly d => Ascii.eqb c d
  end.

Definition stamp_pattern (sep : ascii) (dot : ascii) : list Slot :=
  [digit; digit; digit; digit; exactly "-"; digit; digit; exactly "-"; digit; digit;
   exactly "T"; digit; digit; exactly sep; digit; digit; exactly sep; digit; digit;
   exactly dot; digit; digit; digit; exactly "Z"]%char.

(** The remainder of [s] behind a prefix that fits the slots, if there
    is such a prefix. *)
Fixpoint strip (slots : list Slot) (s : string) : option string :=
  match slots with
  | [] => Some s
  | slot :: more =>
      match s with
      | EmptyString => None
      | String c r => if fits slot c then strip more r else None
      end
  end.

(** [filename.replace(/^...Z_/, "")] *)
Definition displayName_of (filename : string) : string :=
  match strip (stamp_pattern "-" "-" ++ [exactly "_"%char]) filename with
  | Some rest => rest
  | None => filename
  end.

(** The shape of [new Date().toISOString()], for the years 0 to 9999:
    [YYYY-MM-DDTHH:mm:ss.sssZ]. *)
Definition iso_instant (iso : string) : Prop :=
  strip (stamp_pattern ":" ".") iso = Some "".

(** The string holds no slash. *)
Fixpoint no_slash (s : string) : bool :=
  match s with
  | EmptyString => true
  | String c r => negb (Ascii.eqb c "/") && no_slash r
  end.

(** What [dashes] does to one character, and to a slot of the
    pattern. *)
Definition dash (c : ascii) : ascii :=
  if Ascii.eqb c ":" || Ascii.eqb c "." then "-"%char else c.

Definition dash_slot (slot : Slot) : Slot :=
  match slot with
  | digit => digit
  | exactly c => exactly (dash c)
  end.

Definition slot_no_slash (slot : Slot) : bool :=
  match slot with
  | digit => true
  | exactly c => negb (Ascii.eqb c "/")
  end.

(** *** The route, with its in-memory fallback *)

Section Route.
(** Dates and file contents are not looked into; [base64] is
    [Buffer.from(bytes).toString("base64")]. *)
Variables (Date Content : Type).
Variable base64 : Content -> string.

Record File := mkFile {
  name : string;
  size : nat;
  type : string;
  content : Content
}.

Record Recording := mkRecording {
  url : string;
  pathname : string;
  rec_size : nat;
  uploadedAt : Date;
  contentType : string
}.

Inductive Body :=
| saved (r : Recording)
| listing (recordings : list Recording)
| success (ok : bool)
| error (message : string).

Record Response := mkResponse {
  status : nat;
  body : Body
}.

(** What the blob store does with a call: there is no token, the call
    throws, or it answers. *)
Inductive Store (A : Type) := no_token | throws | answers (a : A).
Arguments no_token {A}.
Arguments throws {A}.
Arguments answers {A}.

Definition pathname_of (iso : string) (filename : option string) (file : File) : string :=
  let timestamp := dashes iso in
  let sanitizedFilename := sanitize (or_else filename (name file)) in
  "recordings/" ++ timestamp ++ "_" ++ sanitizedFilename.

(** [POST]: [iso] is the instant read for the name, [now] the one read
    for [uploadedAt], [put] the answer of the blob store ([url] and
    [pathname]). *)
Definition POST (recordings : list Recording) (file : option File)
           (filename : option string) (iso : string) (now : Date)
           (put : Store (string * string)) : list Recording * Response :=
  match file with
  | None => (recordings, {| status := 400; body := error "No file provided" |})
  | Some f =>
      let pathname := pathname_of iso filename f in
      match put with
      | answers (result_url, result_pathname) =>
          (recordings,
           {| status := 200;
              body := saved {| url := result_url; pathname := result_pathname;
                               rec_size := size f; uploadedAt := now;
                               contentType := type f |} |})
      | _ =>
          let dataUrl :=
            "data:" ++ (if String.eqb (type f) "" then "audio/webm" else type f)
            ++ ";base64," ++ base64 (content f) in
          let recording :=
            {| url := dataUrl; pathname := pathname; rec_size := size f;
               uploadedAt := now; contentType := type f |} in
          ((recordings ++ [recording])%list, {| status := 200; body := saved recording |})
      end
  end.

(** [DELETE]: [del] is the answer of the blob store. *)
Definition DELETE (recordings : list Recording) (pathname_param : option string)
           (del : Store unit) : list Recording * Response :=
  match pathname_param with
  | None => (recordings, {| status := 400; body := error "No pathname provided" |})
  | Some p =>
      if String.eqb p "" then
        (recordings, {| status := 400; body := error "No pathname provided" |})
      else
        match del with
        | answers _ => (recordings, {| status := 200; body := success true |})
        | _ =>
            let initialLength := List.length recordings in
            let kept := filter (fun r => negb (String.eqb (pathname r) p)) recordings in
            let deleted := (List.length kept <? initialLength)%nat in
            (kept, {| status := 200; body := success deleted |})
        end
  end.

(** [GET]: [list] is the answer of the blob store, already mapped to
    recordings. *)
Definition GET (recordings : list Recording) (list : Store (list Recording))
  : Response :=
  match list with
  | answers blobRecordings => {| status := 200; body := listing blobRecordings |}
  | _ => {| status := 200; body := listing recordings |}
  end.

(** *** getRecordingMetadata

    The size and the date are formatted with floating-point logarithms
    and the platform's date formats; the two formatters are left
    open. *)
Variable formatFileSize : nat -> string.
Variable formatDate : Date -> string.

Record Metadata := mkMetadata {
  filename : string;
  displayName : string;
  kind : string;
  meta_size : string;
  date : string
}.

Definition getRecordingMetadata (recording : Recording) : Metadata :=
  let filename :=
    let popped := last_piece (pathname recording) in
    if String.eqb popped "" then "unknown" else popped in
  let isUpload := JS.includes filename "upload_" || JS.includes filename "file_" in
  let isRecording := JS.includes filename "recording_" || JS.includes filename "live_" in
  {| filename := filename;
     displayName := displayName_of filename;
     kind := if isUpload then "upload" else if isRecording then "recording" else "unknown";
     meta_size := formatFileSize (rec_size recording);
     date := formatDate (uploadedAt recording) |}.
End Route.
Arguments no_token {A}.
Arguments throws {A}.
Arguments answers {A} a.

(** The blob store did not answer: there is no token, or the call threw. *)
Definition fell_back {A : Type} (s : Store A) : Prop :=
  match s with
  | answers _ => False
  | _ => True
  end.

(** The blob store, when it answers, stores under the pathname it was
    given. *)
Definition stored_as (put : Store (string * string)) (pathname : string) : Prop :=
  match put with
  | answers (_, stored) => stored = pathname
  | _ => True
  end.

(** A file whose name holds a letter outside the safe class that takes
    two bytes. *)
Definition cafe_file : File unit :=
  {| name := "café.webm"; size := 7; type := ""; content := tt |}.

End Recordings.

(* ================================================================== *)
(** ** The application page: from the chunks to the displayed text     *)
(* ================================================================== *)

Module App.
Import TranscriptionService.

(** A field of an object received as JSON: absent ([undefined]),
    [null], or a value. *)
Inductive Field (A : Type) : Type :=
| absent
| null
| present (a : A).

Arguments absent {A}.
Arguments null {A}.
Arguments present {A} a.

(** A paragraph of a provider's result, as the page reads it.  The
    speaker is held as the template literal prints it. *)
Record Paragraph := mkParagraph {
  p_start : Field Q;
  p_end : Field Q;
  p_speaker : Field string;
  p_text : Field string
}.

(** [`${v}`] *)
Definition template (v : Field string) : string :=
  match v with
  | absent => "undefined"
  | null => "null"
  | present s => s
  end.

Definition newline_string : string := String (ascii_of_nat 10) "".

(** [a || b] on strings. *)
Definition or_string (a b : string) : string :=
  if String.eqb a "" then b else a.

(** [{ text, segments: allSegments }] *)
Record Json := mkJson {
  j_text : string;
  j_segments : list Segment
}.

(** [{ text, timestamped, json }], the result for an array of chunks. *)
Record Chunked := mkChunked {
  c_text : string;
  c_timestamped : string;
  c_json : Json
}.

(** [{ text, timestamped, json, fullResults }], the result for a single
    object. *)
Record Single (O : Type) := mkSingle {
  s_text : Field string;
  s_timestamped : string;
  s_json : O;
  s_fullResults : O
}.

Arguments mkSingle {O}.
Arguments s_text {O}.
Arguments s_timestamped {O}.
Arguments s_json {O}.
Arguments s_fullResults {O}.

(** The [result.segments] of the chunks one after the other; a chunk
    without segments adds nothing. *)
Definition gather (allSegments : list Segment) (result : TranscriptionResult)
  : list Segment :=
  match segments result with
  | Some segs => (allSegments ++ segs)%list
  | None => allSegments
  end.

Section Page.
(** [n.toFixed(2)] *)
Variable toFixed2 : Q -> string.

(** The body of a provider route's answer, with the two fields the page
    reads from it. *)
Variable Body : Type.
Variable body_text : Body -> Field string.
Variable body_paragraphs : Body -> Field (list Paragraph).

(** The two routes: the parsed body, or the message of the error
    thrown.  The argument is [chunks[0]]. *)
Variable Blob : Type.
Variable transcribeWithDeepgram : option Blob -> string + Body.
Variable transcribeWithGemini : option Blob -> string + Body.

Definition segment_line (segment : Segment) : string :=
  "[" ++ toFixed2 (start segment) ++ "s - " ++ toFixed2 (end_ segment) ++ "s] "
  ++ seg_text segment.

(** The branch of [combineTranscriptionResults] for an array. *)
Definition combine_array (results : list TranscriptionResult) : Chunked :=
  let text := JS.join " " (map text results) in
  let allSegments := JS.sort by_start (fold_left gather results []) in
  let timestamped := JS.join newline_string (map segment_line allSegments) in
  {| c_text := text;
     c_timestamped := timestamped;
     c_json := {| j_text := text; j_segments := allSegments |} |}.

(** [paragraph.start?.toFixed(2) || "0.00"] *)
Definition fixed (t : Field Q) : string :=
  match t with
  | present q => or_string (toFixed2 q) "0.00"
  | _ => "0.00"
  end.

Definition speaker_tag (speaker : Field string) : string :=
  match speaker with
  | absent => ""
  | v => " [Speaker " ++ template v ++ "]"
  end.

Definition paragraph_line (paragraph : Paragraph) : string :=
  "[" ++ fixed (p_start paragraph) ++ "s - " ++ fixed (p_end paragraph) ++ "s]"
  ++ speaker_tag (p_speaker paragraph) ++ " " ++ template (p_text paragraph).

(** What [transcribeAudioChunks] resolves to: the object built by
    [transcribeWithOpenAI], or the body of a route's answer. *)
Inductive Transcribed :=
| chunked (c : Chunked)
| parsed (b : Body).

(** [results.text] and [results.paragraphs] *)
Definition text_of (results : Transcribed) : Field string :=
  match results with
  | chunked c => present (c_text c)
  | parsed b => body_text b
  end.

Definition paragraphs_of (results : Transcribed) : Field (list Paragraph) :=
  match results with
  | chunked _ => absent
  | parsed b => body_paragraphs b
  end.

(** The branch of [combineTranscriptionResults] for a single object. *)
Definition combine_object (results : Transcribed) : Single Transcribed :=
  let timestamped :=
    match paragraphs_of results with
    | present paragraphs =>
        or_string (JS.join newline_string (map paragraph_line paragraphs)) ""
    | _ => ""
    end in
  {| s_text := text_of results;
     s_timestamped := timestamped;
     s_json := results;
     s_fullResults := results |}.

Inductive Any :=
| array (results : list TranscriptionResult)
| object (results : Transcribed).

Inductive Combined :=
| of_array (c : Chunked)
| of_object (s : Single Transcribed).

Definition combineTranscriptionResults (results : Any) : Combined :=
  match results with
  | array rs => of_array (combine_array rs)
  | object o => of_object (combine_object o)
  end.

(** The result that [transcribeWithOpenAI] makes up for chunk [i]. *)
Definition chunk_number (i : nat) : string := JS.toString (N.of_nat (i + 1)).

Definition simulated_segment (i : nat) : Segment :=
  {| id := Z.of_nat i * 10 + 1;
     start := inject_Z (Z.of_nat i * 100);
     end_ := inject_Z (Z.of_nat i * 100 + 30);
     seg_text := "This is segment 1 of chunk " ++ chunk_number i ++ "." |}.

Definition simulated (i : nat) : TranscriptionResult :=
  {| text := "This is the transcription for chunk " ++ chunk_number i ++ ".";
     segments := Some [simulated_segment i];
     language := None |}.

(** [transcribeWithOpenAI]: one made-up result per chunk, combined.  The
    status messages and the pauses are left out. *)
Definition transcribeWithOpenAI (chunks : list Blob) : Chunked :=
  combine_array (map simulated (seq 0 (List.length chunks))).

Definition transcribeAudioChunks (provider : string) (chunks : list Blob)
  : string + Transcribed :=
  if String.eqb provider "deepgram" then
    match transcribeWithDeepgram (hd_error chunks) with
    | inl message => inl message
    | inr body => inr (parsed body)
    end
  else if String.eqb provider "gemini" then
    match transcribeWithGemini (hd_error chunks) with
    | inl message => inl message
    | inr body => inr (parsed body)
    end
  else inr (chunked (transcribeWithOpenAI chunks)).

(** The two steps that [processRecordedAudio], [processUploadedFile] and
    [handleRecordingSelect] share: transcribe the chunks, then combine
    what came back. *)
Definition transcribe_and_combine (provider : string) (chunks : list Blob)
  : string + Combined :=
  match transcribeAudioChunks provider chunks with
  | inl message => inl message
  | inr transcriptionResults =>
      inr (combineTranscriptionResults (object transcriptionResults))
  end.

End Page.

Arguments chunked {Body} c.
Arguments parsed {Body} b.
Arguments array {Body} results.
Arguments object {Body} results.
Arguments of_array {Body} c.
Arguments of_object {Body} s.
Arguments text_of {Body} body_text results.
Arguments paragraphs_of {Body} body_paragraphs results.
Arguments combine_object toFixed2 {Body} body_text body_paragraphs results.
Arguments combineTranscriptionResults toFixed2 {Body} body_text body_paragraphs results.
Arguments transcribeWithOpenAI toFixed2 {Blob} chunks.
Arguments transcribeAudioChunks toFixed2 {Body Blob}
  transcribeWithDeepgram transcribeWithGemini provider chunks.
Arguments transcribe_and_combine toFixed2 {Body} body_text body_paragraphs {Blob}
  transcribeWithDeepgram transcribeWithGemini provider chunks.

(** The answer of the Gemini route as the page receives it: a segment
    carries [start: null] and [end: null], and [speaker: null] when the
    line named no speaker. *)
Definition as_paragraph (segment : Gemini.Segment) : Paragraph :=
  {| p_start := null;
     p_end := null;
     p_speaker := match Gemini.speaker segment with
                  | Some s => present s
                  | None => null
                  end;
     p_text := present (Gemini.text segment) |}.

Definition gemini_text (body : Gemini.Result) : Field string :=
  present (Gemini.res_text body).

Definition gemini_paragraphs (body : Gemini.Result) : Field (list Paragraph) :=
  present (map as_paragraph (Gemini.paragraphs body)).

(** A line of the transcript that names no speaker. *)
Definition plain_line (line : string) : Prop := Gemini.speakerMatch line = None.

End App.

(* ================================================================== *)
(** ** Facts about the built-ins                                       *)
(* ================================================================== *)

(** Reading a string character by character loses nothing. *)
Lemma substring_split (r : string) :
  forall w, (substring 0 w r ++ substring w (String.length r - w) r)%string = r.
Proof.
  induction r as [|c r IH]; intros w.
  - destruct w; reflexivity.
  - destruct w as [|w]; simpl.
    + f_equal. specialize (IH 0%nat). simpl in IH.
      rewrite Nat.sub_0_r in IH. destruct r; [reflexivity|].
      simpl in IH |- *. exact IH.
    + f_equal. apply IH.
Qed.

Lemma substring_all (r : string) : substring 0 (String.length r) r = r.
Proof. induction r as [|c r IH]; simpl; [reflexivity | rewrite IH; reflexivity]. Qed.

Lemma chars_write (s : string) :
  forall skip, JS.write (JS.chars skip s) = substring skip (String.length s - skip) s.
Proof.
  induction s as [|c r IH]; intros skip.
  - destruct skip; reflexivity.
  - cbn [JS.chars]. destruct skip as [|k]; [rewrite Nat.sub_0_r, substring_all|apply IH].
    destruct (JS.space_width (String c r)) as [|w]; cbn [JS.write]; rewrite IH.
    + rewrite Nat.sub_0_r, substring_all. reflexivity.
    + change (substring 0 (S w) (String c r)) with (String c (substring 0 w r)).
      simpl. f_equal. apply substring_split.
Qed.

Lemma write_read (s : string) : JS.write (JS.read s) = s.
Proof.
  unfold JS.read. rewrite chars_write, Nat.sub_0_r. apply substring_all.
Qed.

Section SortFacts.
Context {A : Type} (after : A -> A -> bool).

Lemma insert_perm (x : A) (l : list A) :
  Permutation (JS.insert after x l) (x :: l).
Proof.
  induction l as [|y t IH]; simpl.
  - apply Permutation_refl.
  - destruct (after x y).
    + apply Permutation_trans with (y :: x :: t).
      * apply perm_skip. exact IH.
      * apply perm_swap.
    + apply Permutation_refl.
Qed.

Lemma sort_perm (l : list A) : Permutation (JS.sort after l) l.
Proof.
  induction l as [|x t IH]; simpl.
  - apply perm_nil.
  - apply Permutation_trans with (x :: JS.sort after t).
    + apply insert_perm.
    + apply perm_skip. exact IH.
Qed.

Lemma sort_length (l : list A) : List.length (JS.sort after l) = List.length l.
Proof. apply Permutation_length, sort_perm. Qed.

(** The comparison function is consistent when of two elements at most
    one is put behind the other. *)
Hypothesis after_asym : forall x y, after x y = true -> after y x = false.

Let le (x y : A) : Prop := after x y = false.

Lemma insert_hd (x y : A) (l : list A) :
  le y x -> HdRel le y l -> HdRel le y (JS.insert after x l).
Proof.
  intros Hyx Hl. destruct l as [|z t]; simpl.
  - constructor. exact Hyx.
  - destruct (after x z).
    + constructor. inversion Hl; assumption.
    + constructor. exact Hyx.
Qed.

Lemma insert_sorted (x : A) (l : list A) :
  Sorted le l -> Sorted le (JS.insert after x l).
Proof.
  induction l as [|y t IH]; intros Hs; simpl.
  - repeat constructor.
  - destruct (after x y) eqn:E.
    + inversion Hs as [|? ? Ht Hhd]; subst.
      constructor.
      * apply IH. exact Ht.
      * apply insert_hd; [apply after_asym; exact E | exact Hhd].
    + constructor; [exact Hs | constructor; exact E].
Qed.

Lemma sort_sorted (l : list A) : Sorted le (JS.sort after l).
Proof.
  induction l as [|x t IH]; simpl.
  - constructor.
  - apply insert_sorted. exact IH.
Qed.
End SortFacts.

Lemma final_map {A B : Type} (f : A -> B) (l : list A) :
  JS.final (map f l) = option_map f (JS.final l).
Proof.
  unfold JS.final. rewrite length_map. apply nth_error_map.
Qed.

Lemma join_concat (sep : string) (l : list string) :
  JS.join sep l = String.concat sep l.
Proof.
  induction l as [|x t IH]; simpl.
  - reflexivity.
  - destruct t; [reflexivity | rewrite IH; reflexivity].
Qed.

(** Addition of rationals, up to syntactic equality of the fractions. *)
Lemma Qplus_0_r_eq (x : Q) : (x + 0)%Q = x.
Proof.
  destruct x as [n d]. unfold Qplus. simpl.
  rewrite Z.mul_1_r, Z.add_0_r, Pos.mul_1_r. reflexivity.
Qed.

Lemma Qplus_0_l_eq (x : Q) : (0 + x)%Q = x.
Proof.
  destruct x as [n d]. unfold Qplus. simpl.
  rewrite Z.mul_1_r. reflexivity.
Qed.

Lemma Qplus_comm_eq (x y : Q) : (x + y)%Q = (y + x)%Q.
Proof.
  unfold Qplus. rewrite Z.add_comm, Pos.mul_comm. reflexivity.
Qed.

(* ================================================================== *)
(** ** The chunk combiner                                               *)
(* ================================================================== *)

Section Combiner.
Import TranscriptionService.

Lemma adjust_0 (s : Segment) : adjust 0 s = s.
Proof.
  destruct s as [i st en tx]. unfold adjust. simpl.
  rewrite !Qplus_0_r_eq. reflexivity.
Qed.

Lemma map_adjust_0 (l : list Segment) : map (adjust 0) l = l.
Proof.
  induction l as [|s t IH]; simpl; [reflexivity|].
  rewrite adjust_0, IH. reflexivity.
Qed.

(** What one turn of the loop does, whatever the index: at index 0 the
    running end time is still 0, and shifting by 0 changes nothing. *)
Lemma step_spec (acc : Acc) (index : nat) (r : TranscriptionResult) :
  (index = 0%nat -> lastEndTime acc = 0) ->
  step acc index r =
  {| allSegments :=
       (allSegments acc ++ map (adjust (lastEndTime acc)) (segments_of r))%list;
     lastEndTime :=
       match JS.final (map (adjust (lastEndTime acc)) (segments_of r)) with
       | Some lastSegment => end_ lastSegment
       | None => lastEndTime acc
       end |}.
Proof.
  intros H0. unfold step, segments_of.
  destruct (segments r) as [segs|].
  - rewrite final_map. f_equal.
    + f_equal. destruct index as [|k]; simpl.
      * rewrite (H0 eq_refl), map_adjust_0, map_id. reflexivity.
      * reflexivity.
    + destruct (JS.final segs) as [s|]; simpl; [apply Qplus_comm_eq | reflexivity].
  - simpl. rewrite app_nil_r. destruct acc; reflexivity.
Qed.

Lemma forEach_spec (results : list TranscriptionResult) :
  forall (acc : Acc) (index : nat),
    (index = 0%nat -> lastEndTime acc = 0) ->
    allSegments (forEach acc index results) =
    (allSegments acc ++ rebase_spec (lastEndTime acc) results)%list.
Proof.
  induction results as [|r rest IH]; intros acc index H0; simpl.
  - rewrite app_nil_r. reflexivity.
  - rewrite IH by (intros E; discriminate E).
    rewrite (step_spec acc index r H0). simpl.
    rewrite <- app_assoc. reflexivity.
Qed.

Lemma by_start_asym (a b : Segment) : by_start a b = true -> by_start b a = false.
Proof.
  unfold by_start. intros H.
  apply negb_true_iff in H. apply negb_false_iff.
  apply Qle_bool_iff.
  destruct (Qlt_le_dec (start b) (start a)) as [L|L].
  - apply Qlt_le_weak. exact L.
  - apply Qle_bool_iff in L. congruence.
Qed.

Lemma sort_by_start_sorted (l : list Segment) :
  Sorted starts_le (JS.sort by_start l).
Proof.
  assert (S : Sorted (fun a b => by_start a b = false) (JS.sort by_start l))
    by (apply sort_sorted, by_start_asym).
  revert S. generalize (JS.sort by_start l). intros l'.
  induction 1 as [|a t Ht IH Hhd]; constructor.
  - exact IH.
  - destruct Hhd as [|b t' Hab]; constructor.
    unfold by_start in Hab. apply negb_false_iff in Hab.
    apply Qle_bool_iff. exact Hab.
Qed.

(** C4.  For a list of two or more chunk results, the combined segments
    are the chunks' segments, each chunk shifted by the running offset
    (the end time of the final segment of the previous chunk, as
    re-based: [rebase_spec]), concatenated and then sorted by start
    time: the result is that stable sort, hence a permutation of the
    re-based segments in which no segment starts before an earlier one. *)
Theorem combine_rebases_and_sorts (results : list TranscriptionResult) :
  (2 <= List.length results)%nat ->
  exists segs,
    segments (combineTranscriptionResults results) = Some segs /\
    segs = JS.sort by_start (rebase_spec 0 results) /\
    Permutation segs (rebase_spec 0 results) /\
    StronglySorted starts_le segs.
Proof.
  intros Hlen.
  destruct results as [|r0 [|r1 rest]]; simpl in Hlen; try lia.
  exists (JS.sort by_start (rebase_spec 0 (r0 :: r1 :: rest))).
  split; [|split; [reflexivity | split]].
  - unfold combineTranscriptionResults. cbv zeta.
    cbn [segments]. f_equal. f_equal.
    rewrite forEach_spec by reflexivity. reflexivity.
  - apply sort_perm.
  - apply Sorted_StronglySorted; [|apply sort_by_start_sorted].
    intros a b c Hab Hbc. unfold starts_le in *.
    apply Qle_trans with (start b); assumption.
Qed.

(** Chunk A with the segment 0..30 followed by chunk B with the segment
    0..20: B's segment comes out as 30..50. *)
Lemma combine_rebases_and_sorts_witness :
  (2 <= List.length [chunkA; chunkB])%nat /\
  segments (combineTranscriptionResults [chunkA; chunkB]) =
  Some [{| id := 0; start := 0; end_ := 30; seg_text := "a" |};
        {| id := 0; start := 30; end_ := 50; seg_text := "b" |}].
Proof.
  split; [simpl; lia|].
  destruct (combine_rebases_and_sorts [chunkA; chunkB]) as [segs [H [E _]]];
    [simpl; lia|].
  rewrite H, E. reflexivity.
Defined.

(** C5.  A single result is returned as it is; for two or more results
    the combined text is the texts joined by one space, in order. *)
Theorem combine_single_and_text (r : TranscriptionResult)
        (results : list TranscriptionResult) :
  combineTranscriptionResults [r] = r /\
  ((2 <= List.length results)%nat ->
   text (combineTranscriptionResults results) = String.concat " " (map text results)).
Proof.
  split; [reflexivity|].
  intros Hlen.
  destruct results as [|r0 [|r1 rest]]; simpl in Hlen; try lia.
  unfold combineTranscriptionResults. cbn [text].
  apply join_concat.
Qed.

Lemma combine_single_and_text_witness :
  combineTranscriptionResults [chunkA] = chunkA /\
  (2 <= List.length [chunkA; chunkB; chunkA])%nat /\
  text (combineTranscriptionResults [chunkA; chunkB; chunkA]) = "first second first".
Proof.
  destruct (combine_single_and_text chunkA [chunkA; chunkB; chunkA]) as [H1 H2].
  split; [exact H1|]. split; [simpl; lia|].
  rewrite H2; [reflexivity | simpl; lia].
Defined.

(** C10.  With no chunks [transcribeAudioChunks] fails with the message
    "No audio chunks to transcribe" and the list of requests issued is
    left as it was, whereas [combineTranscriptionResults] on no results
    returns the object with the empty text and no other field. *)
Theorem empty_chunks_fail_empty_results_combine
        (Blob : Type) (server : Request Blob -> string + TranscriptionResult)
        (key : string) (opts : Options) (log : list (Request Blob)) :
  transcribeAudioChunks Blob server [] key opts log =
    (inl "No audio chunks to transcribe", log) /\
  combineTranscriptionResults [] =
    {| text := ""; segments := None; language := None |}.
Proof.
  split; reflexivity.
Qed.
End Combiner.

(* ================================================================== *)
(** ** The Gemini heuristics                                            *)
(* ================================================================== *)

Section GeminiFacts.
Import Gemini.

Variable toLowerCase : string -> string.

Lemma split_go_length (l : list JS.Char) :
  forall skipping acc, (1 <= List.length (JS.split_go skipping acc l))%nat.
Proof.
  induction l as [|x r IH]; intros skipping acc; simpl.
  - lia.
  - destruct x as [bytes|c].
    + destruct skipping; [apply IH | simpl; lia].
    + apply IH.
Qed.

Lemma bytes_of_snoc (acc : string) (c : ascii) :
  JS.bytes_of (JS.snoc acc c) = (JS.bytes_of acc ++ [JS.plain c])%list.
Proof.
  unfold JS.bytes_of, JS.snoc. induction acc as [|a acc IH]; simpl; [reflexivity|].
  f_equal. exact IH.
Qed.

Lemma snoc_not_empty (acc : string) (c : ascii) : JS.snoc acc c <> "".
Proof. destruct acc; discriminate. Qed.

(** The pieces that the splitting loop gives: read from a piece under
    way, and read from inside a run of white space. *)
Lemma split_go_pieces (l : list JS.Char) :
  (forall acc,
     exists gaps,
       (JS.bytes_of acc ++ l)%list = JS.weave (JS.split_go false acc l) gaps /\
       List.length (JS.split_go false acc l) = S (List.length gaps) /\
       Forall JS.gap gaps /\
       Forall (fun w => w <> "") (JS.inner (JS.split_go false acc l)) /\
       (acc <> "" -> hd "" (JS.split_go false acc l) <> "")) /\
  (exists blanks gaps,
     l = (blanks ++ JS.weave (JS.split_go true "" l) gaps)%list /\
     forallb JS.is_blank blanks = true /\
     List.length (JS.split_go true "" l) = S (List.length gaps) /\
     Forall JS.gap gaps /\
     Forall (fun w => w <> "") (removelast (JS.split_go true "" l))).
Proof.
  induction l as [|x r [IHf IHt]].
  - split.
    + intros acc. exists []. simpl. rewrite app_nil_r.
      repeat split; auto; constructor.
    + exists [], []. simpl. repeat split; auto; constructor.
  - destruct x as [bytes|c].
    + destruct IHt as (blanks & gaps & Hr & Hb & Hlen & Hg & Hne).
      split.
      * intros acc. exists ((JS.blank bytes :: blanks) :: gaps).
        cbn [JS.split_go JS.weave]. split; [|split; [|split; [|split]]].
        -- rewrite Hr at 1. reflexivity.
        -- simpl. rewrite Hlen. reflexivity.
        -- constructor; [|exact Hg]. split; [discriminate|]. simpl. exact Hb.
        -- unfold JS.inner. simpl. exact Hne.
        -- simpl. auto.
      * exists (JS.blank bytes :: blanks), gaps. cbn [JS.split_go].
        split; [|split; [|split; [|split]]]; auto.
        simpl. rewrite Hr at 1. reflexivity.
    + split.
      * intros acc. destruct (IHf (JS.snoc acc c)) as (gaps & Hr & Hlen & Hg & Hne & Hhd).
        exists gaps. cbn [JS.split_go].
        split; [|split; [|split; [|split]]]; auto.
        -- rewrite <- Hr, bytes_of_snoc, <- app_assoc. reflexivity.
        -- intros _. apply Hhd. apply snoc_not_empty.
      * destruct (IHf (JS.snoc "" c)) as (gaps & Hr & Hlen & Hg & Hne & Hhd).
        exists [], gaps. cbn [JS.split_go].
        split; [|split; [|split; [|split]]]; auto.
        specialize (Hhd (snoc_not_empty "" c)).
        unfold JS.inner in Hne.
        destruct (JS.split_go false (JS.snoc "" c) r) as [|w0 rest]; [constructor|].
        simpl in Hhd, Hne. destruct rest as [|w1 rest]; [constructor|].
        change (removelast (w0 :: w1 :: rest)) with (w0 :: removelast (w1 :: rest)).
        constructor; assumption.
Qed.

(** [split(/\s+/)] gives the pieces of the string. *)
Lemma split_ws_pieces (s : string) : JS.pieces_of s (JS.split_ws s).
Proof.
  destruct (split_go_pieces (JS.read s)) as [H _].
  destruct (H "") as (gaps & Hr & Hlen & Hg & Hne & _).
  exists gaps. unfold JS.split_ws. auto.
Qed.

Lemma count_fold (ws : list string) :
  forall c,
    positiveCount (fold_left count_step ws c) =
      (positiveCount c + Z.of_nat (List.length (filter (some_included positiveWords) ws)))%Z /\
    negativeCount (fold_left count_step ws c) =
      (negativeCount c + Z.of_nat (List.length (filter (some_included negativeWords) ws)))%Z.
Proof.
  induction ws as [|w t IH]; intros c.
  - simpl. lia.
  - cbn [fold_left filter]. destruct (IH (count_step c w)) as [Hp Hn].
    rewrite Hp, Hn. unfold count_step.
    destruct (some_included positiveWords w), (some_included negativeWords w);
      cbn [positiveCount negativeCount List.length]; lia.
Qed.

(** C6.  The label is positive exactly when the positive count exceeds
    the negative one, negative exactly when it is the other way round,
    neutral exactly when the two are equal; the confidence is
    min(0.9, |positive - negative| / words * 10), where the number of
    words is at least one.  The words are the pieces of the lower-cased
    text between its runs of white space, white space being that of
    [\s]; a count is the number of words that contain a keyword of the
    list.  This holds whatever the lower-casing does. *)
Theorem analyzeSentiment_label_and_confidence (text : string) :
  let o := overall (analyzeSentiment toLowerCase text) in
  let P := keyword_count toLowerCase positiveWords text in
  let N := keyword_count toLowerCase negativeWords text in
  let T := Z.of_nat (List.length (words_of toLowerCase text)) in
  (sentiment o = "positive" <-> (N < P)%Z) /\
  (sentiment o = "negative" <-> (P < N)%Z) /\
  (sentiment o = "neutral" <-> P = N) /\
  confidence o =
    Qmin (9 # 10) (inject_Z (Z.abs (P - N)) / inject_Z T * inject_Z 10) /\
  (1 <= T)%Z /\
  JS.pieces_of (toLowerCase text) (words_of toLowerCase text) /\
  positive (distribution o) = P /\ negative (distribution o) = N.
Proof.
  cbv zeta. unfold analyzeSentiment, keyword_count. fold (words_of toLowerCase text).
  cbv zeta. cbn [overall sentiment confidence distribution positive negative].
  destruct (count_fold (words_of toLowerCase text)
              {| positiveCount := 0; negativeCount := 0 |}) as [Hp Hn].
  cbn [positiveCount negativeCount] in Hp, Hn.
  rewrite Hp, Hn, !Z.add_0_l.
  set (P := Z.of_nat (List.length (filter (some_included positiveWords)
                                          (words_of toLowerCase text)))).
  set (N := Z.of_nat (List.length (filter (some_included negativeWords)
                                          (words_of toLowerCase text)))).
  assert (HT : (1 <= List.length (words_of toLowerCase text))%nat)
    by apply split_go_length.
  assert (Hpieces : JS.pieces_of (toLowerCase text) (words_of toLowerCase text))
    by apply split_ws_pieces.
  repeat split; try lia; try reflexivity; try exact Hpieces;
    destruct (Z.ltb_spec N P); destruct (Z.ltb_spec P N);
    try lia; try discriminate; try reflexivity; intros; try discriminate; lia.
Qed.

Lemma lang_fold (ws : list string) :
  forall c,
    englishCount (fold_left lang_step ws c) =
      (englishCount c + List.length (filter (JS.arr_includes englishWords) ws))%nat /\
    spanishCount (fold_left lang_step ws c) =
      (spanishCount c + List.length (filter (JS.arr_includes spanishWords) ws))%nat /\
    frenchCount (fold_left lang_step ws c) =
      (frenchCount c + List.length (filter (JS.arr_includes frenchWords) ws))%nat.
Proof.
  induction ws as [|w t IH]; intros c.
  - simpl. lia.
  - cbn [fold_left filter]. destruct (IH (lang_step c w)) as [He [Hs Hf]].
    rewrite He, Hs, Hf. unfold lang_step.
    destruct (JS.arr_includes englishWords w), (JS.arr_includes spanishWords w),
      (JS.arr_includes frenchWords w);
      cbn [englishCount spanishCount frenchCount List.length]; lia.
Qed.

(** C7.  The language whose vocabulary has the strictly highest count is
    returned; when no count is strictly the highest (in particular when
    all three are zero) the answer is "en".  A count is the number of
    words that are entries of the vocabulary, the words being the
    pieces of the lower-cased text between its runs of white space.
    This holds whatever the lower-casing does. *)
Theorem detectLanguage_strictly_highest (text : string) :
  let e := vocabulary_count toLowerCase englishWords text in
  let s := vocabulary_count toLowerCase spanishWords text in
  let f := vocabulary_count toLowerCase frenchWords text in
  ((s < e /\ f < e)%nat -> detectLanguage toLowerCase text = "en") /\
  ((e < s /\ f < s)%nat -> detectLanguage toLowerCase text = "es") /\
  ((e < f /\ s < f)%nat -> detectLanguage toLowerCase text = "fr") /\
  (~ (s < e /\ f < e)%nat /\ ~ (e < s /\ f < s)%nat /\ ~ (e < f /\ s < f)%nat ->
   detectLanguage toLowerCase text = "en") /\
  (e = 0%nat /\ s = 0%nat /\ f = 0%nat -> detectLanguage toLowerCase text = "en") /\
  JS.pieces_of (toLowerCase text) (words_of toLowerCase text).
Proof.
  cbv zeta. unfold detectLanguage, lang_counts, vocabulary_count.
  fold (words_of toLowerCase text). cbv zeta.
  destruct (lang_fold (words_of toLowerCase text)
              {| englishCount := 0; spanishCount := 0; frenchCount := 0 |})
    as [He [Hs Hf]].
  cbn [englishCount spanishCount frenchCount] in He, Hs, Hf.
  rewrite He, Hs, Hf, !Nat.add_0_l.
  set (e := List.length (filter (JS.arr_includes englishWords) (words_of toLowerCase text))).
  set (s := List.length (filter (JS.arr_includes spanishWords) (words_of toLowerCase text))).
  set (f := List.length (filter (JS.arr_includes frenchWords) (words_of toLowerCase text))).
  assert (Hpieces : JS.pieces_of (toLowerCase text) (words_of toLowerCase text))
    by apply split_ws_pieces.
  destruct (Nat.ltb_spec s e); destruct (Nat.ltb_spec f e);
    destruct (Nat.ltb_spec e s); destruct (Nat.ltb_spec f s);
    destruct (Nat.ltb_spec e f); destruct (Nat.ltb_spec s f);
    cbn [andb]; repeat split; intros; try reflexivity; try exact Hpieces; lia.
Qed.

(** *** The shape of the matches *)

Lemma space_width_own (s : string) (w : nat) :
  JS.space_width s = S w ->
  JS.space_width (substring 0 (S w) s) = S w /\
  String.length (substring 0 (S w) s) = S w.
Proof.
  assert (L : forall c1 c2 c3 r,
             String.length (String c1 (String c2 (String c3 (substring 0 0 r)))) = 3%nat).
  { intros c1 c2 c3 r. destruct r; reflexivity. }
  destruct s as [|c1 [|c2 [|c3 r]]]; unfold JS.space_width; cbn [JS.begins];
    rewrite ?andb_false_r, ?andb_true_r; cbn [andb].
  - discriminate.
  - destruct (_ || _) eqn:E1; [|discriminate].
    intros H; injection H as <-; cbn [substring]; rewrite E1; auto.
  - destruct ((JS.code c1 =? 32)%nat || JS.between 9 13 c1) eqn:E1;
      [intros H; injection H as <-; cbn [substring]; rewrite E1; auto|].
    destruct ((JS.code c1 =? 194)%nat && (JS.code c2 =? 160)%nat) eqn:E2; [|discriminate].
    intros H; injection H as <-; cbn [substring JS.begins].
    rewrite E1, ?andb_true_r, E2. auto.
  - destruct ((JS.code c1 =? 32)%nat || JS.between 9 13 c1) eqn:E1;
      [intros H; injection H as <-; cbn [substring]; rewrite E1; auto|].
    destruct ((JS.code c1 =? 194)%nat && (JS.code c2 =? 160)%nat) eqn:E2;
      [intros H; injection H as <-; cbn [substring JS.begins];
       rewrite E1, ?andb_true_r, E2; auto|].
    repeat match goal with
    | |- context [if ?b then _ else _] =>
        destruct b eqn:?;
        [intros H; injection H as <-; cbn [substring JS.space_width JS.begins];
         rewrite ?andb_true_r;
         repeat match goal with E : _ = _ |- _ => rewrite E end;
         split; [reflexivity | apply L]|]
    end.
    discriminate.
Qed.

(** Every white-space character that [read] finds has its own bytes. *)
Lemma chars_well_read (s : string) :
  forall skip, Forall well_read (JS.chars skip s).
Proof.
  induction s as [|c r IH]; intros skip; cbn [JS.chars]; [constructor|].
  destruct skip as [|k]; [|apply IH].
  destruct (JS.space_width (String c r)) as [|w] eqn:E.
  - constructor; [exact I | apply IH].
  - constructor; [|apply IH].
    destruct (space_width_own _ _ E) as [H1 H2].
    cbn [well_read]. split.
    + intros H. rewrite H in H2. discriminate H2.
    + rewrite H1, H2. reflexivity.
Qed.

Lemma low_is_phrase (cur : list JS.Char) : reading Low cur -> phrase cur.
Proof.
  intros (pre & c & lows & E & U & Hne & Hl & [Hpre|(p & g & Hpre & Hp & Hg)]); subst.
  - simpl. apply phrase_one. exists c, lows. auto.
  - rewrite <- app_assoc. apply phrase_more; [exact Hp | exact Hg |].
    exists c, lows. auto.
Qed.

Lemma gap_snoc (g : list JS.Char) (x : JS.Char) :
  JS.is_blank x = true -> (g = [] \/ JS.gap g) -> JS.gap (g ++ [x]).
Proof.
  intros Hx Hg. split.
  - destruct g; discriminate.
  - rewrite forallb_app. simpl. rewrite Hx.
    destruct Hg as [->|[_ Hg]]; [reflexivity | rewrite Hg; reflexivity].
Qed.

(** Whatever [run] returns is a phrase. *)
Lemma run_phrase (s : list JS.Char) :
  forall ph best cur m,
    reading ph cur ->
    (forall b, best = Some b -> phrase b) ->
    run ph best cur s = Some m ->
    phrase m.
Proof.
  induction s as [|x r IH]; intros ph best cur m Hcur Hbest Hrun.
  - simpl in Hrun. destruct ph; try (apply Hbest; exact Hrun).
    injection Hrun as <-. apply low_is_phrase. exact Hcur.
  - cbn [run] in Hrun. destruct ph.
    + destruct (lower_case x) eqn:L; [|apply Hbest; exact Hrun].
      destruct x as [bytes|c']; [discriminate L|]. simpl in L.
      apply (IH Low best (cur ++ [JS.plain c'])%list m); [|exact Hbest | exact Hrun].
      destruct Hcur as (pre & c & E & U & Hpre). subst cur.
      exists pre, c, [c']. rewrite <- app_assoc. simpl. rewrite L.
      repeat split; auto. discriminate.
    + destruct (lower_case x) eqn:L.
      * destruct x as [bytes|c']; [discriminate L|]. simpl in L.
        apply (IH Low best (cur ++ [JS.plain c'])%list m); [|exact Hbest | exact Hrun].
        destruct Hcur as (pre & c & lows & E & U & Hne & Hl & Hpre). subst cur.
        exists pre, c, (lows ++ [c'])%list.
        rewrite <- app_assoc. simpl. rewrite map_app, forallb_app, Hl. simpl. rewrite L.
        repeat split; auto. destruct lows; discriminate.
      * destruct (word_char x); [apply Hbest; exact Hrun|].
        pose proof (low_is_phrase cur Hcur) as Hp.
        destruct (JS.is_blank x) eqn:B.
        -- apply (IH Gap (Some cur) (cur ++ [x])%list m); [| |exact Hrun].
           ++ exists cur, [x]. split; [reflexivity|]. split; [exact Hp|].
              apply (gap_snoc [] x B). left. reflexivity.
           ++ intros b E. injection E as <-. exact Hp.
        -- injection Hrun as <-. exact Hp.
    + destruct Hcur as (p & g & E & Hp & Hg). subst cur.
      destruct (JS.is_blank x) eqn:B.
      * apply (IH Gap best ((p ++ g) ++ [x])%list m); [|exact Hbest | exact Hrun].
        exists p, (g ++ [x])%list. rewrite app_assoc. split; [reflexivity|].
        split; [exact Hp|]. apply gap_snoc; auto.
      * destruct (upper_case x) eqn:U; [|apply Hbest; exact Hrun].
        destruct x as [bytes|c']; [discriminate U|]. simpl in U.
        apply (IH Cap best ((p ++ g) ++ [JS.plain c'])%list m); [|exact Hbest | exact Hrun].
        exists (p ++ g)%list, c'. split; [reflexivity|]. split; [exact U|].
        right. exists p, g. auto.
Qed.

(** Whatever [run] returns is made of characters it was given. *)
Lemma run_well_read (s : list JS.Char) :
  forall ph best cur m,
    Forall well_read cur -> Forall well_read s ->
    (forall b, best = Some b -> Forall well_read b) ->
    run ph best cur s = Some m ->
    Forall well_read m.
Proof.
  induction s as [|x r IH]; intros ph best cur m Hcur Hs Hbest Hrun.
  - simpl in Hrun. destruct ph; try (apply Hbest; exact Hrun).
    injection Hrun as <-. exact Hcur.
  - inversion Hs as [|? ? Hx Hr]; subst.
    assert (Hnext : Forall well_read (cur ++ [x])).
    { apply Forall_app. split; [exact Hcur | constructor; [exact Hx | constructor]]. }
    assert (Hsome : forall b, Some cur = Some b -> Forall well_read b).
    { intros b E. injection E as <-. exact Hcur. }
    cbn [run] in Hrun. destruct ph.
    + destruct (lower_case x); [|apply Hbest; exact Hrun].
      apply (IH _ _ _ _ Hnext Hr Hbest Hrun).
    + destruct (lower_case x); [apply (IH _ _ _ _ Hnext Hr Hbest Hrun)|].
      destruct (word_char x); [apply Hbest; exact Hrun|].
      destruct (JS.is_blank x); [apply (IH _ _ _ _ Hnext Hr Hsome Hrun)|].
      injection Hrun as <-. exact Hcur.
    + destruct (JS.is_blank x); [apply (IH _ _ _ _ Hnext Hr Hbest Hrun)|].
      destruct (upper_case x); [|apply Hbest; exact Hrun].
      apply (IH _ _ _ _ Hnext Hr Hbest Hrun).
Qed.

Lemma match_here_phrase (prev : option JS.Char) (s m : list JS.Char) :
  Forall well_read s ->
  match_here prev s = Some m -> phrase m /\ Forall well_read m.
Proof.
  unfold match_here. destruct s as [|x r]; [discriminate|].
  intros Hs. inversion Hs as [|? ? Hx Hr]; subst.
  destruct (_ && upper_case x) eqn:E; [|discriminate].
  apply andb_true_iff in E. destruct E as [_ U].
  destruct x as [bytes|c]; [discriminate U|]. simpl in U.
  intros Hrun. split.
  - apply (run_phrase r Cap None [JS.plain c] m); [| discriminate | exact Hrun].
    exists [], c. split; [reflexivity|]. split; [exact U | left; reflexivity].
  - apply (run_well_read r Cap None [JS.plain c] m); auto. discriminate.
Qed.

Lemma scan_phrases (s : list JS.Char) :
  Forall well_read s ->
  forall skip prev m, In m (scan skip prev s) -> phrase m /\ Forall well_read m.
Proof.
  induction s as [|x r IH]; intros Hs skip prev m Hm; cbn [scan] in Hm; [contradiction|].
  assert (Hr : Forall well_read r) by (inversion Hs; assumption).
  destruct skip as [|k]; [|apply (IH Hr _ _ _ Hm)].
  destruct (match_here prev (x :: r)) as [m0|] eqn:E.
  - destruct Hm as [Hm|Hm]; [subst m0; apply (match_here_phrase _ _ _ Hs E)|].
    apply (IH Hr _ _ _ Hm).
  - apply (IH Hr _ _ _ Hm).
Qed.

(** A letter and a white-space character count for one code unit
    each, so a phrase has as many code units as characters and at least
    as many bytes. *)
Lemma units_of_cases (c : ascii) :
  ((JS.code c < 128 \/ 192 <= JS.code c < 240)%nat -> JS.units_of c = 1%nat) /\
  ((128 <= JS.code c <= 191)%nat -> JS.units_of c = 0%nat).
Proof.
  unfold JS.units_of, JS.between.
  destruct (Nat.leb_spec 128 (JS.code c)); destruct (Nat.leb_spec (JS.code c) 191);
    destruct (Nat.leb_spec 240 (JS.code c)); simpl; split; intros; try reflexivity; lia.
Qed.

Ltac arith_of_bool :=
  repeat match goal with
  | H : _ && _ = true |- _ => apply andb_true_iff in H; destruct H
  | H : _ || _ = true |- _ => apply orb_true_iff in H; destruct H
  | H : (_ =? _)%nat = true |- _ => apply Nat.eqb_eq in H
  | H : JS.between _ _ _ = true |- _ => unfold JS.between in H
  | H : JS.is_upper _ = true |- _ => unfold JS.is_upper in H
  | H : JS.is_lower _ = true |- _ => unfold JS.is_lower in H
  | H : (_ <=? _)%nat = true |- _ => apply Nat.leb_le in H
  end.

Lemma blank_one_unit (bytes : string) :
  bytes <> "" -> JS.space_width bytes = String.length bytes -> JS.length bytes = 1%nat.
Proof.
  intros Hne. destruct bytes as [|c1 [|c2 [|c3 [|c4 r]]]]; [contradiction| | | |];
    unfold JS.space_width; cbn [JS.begins String.length JS.length];
    rewrite ?andb_false_r, ?andb_true_r; cbn [andb];
    repeat match goal with
    | |- context [if ?b then _ else _] => destruct b eqn:?
    end; intros E; try discriminate E; arith_of_bool;
    repeat match goal with
    | |- context [JS.units_of ?c] =>
        first [ rewrite (proj1 (units_of_cases c)) by lia
              | rewrite (proj2 (units_of_cases c)) by lia ]
    end; reflexivity.
Qed.

Lemma letter_one_unit (c : ascii) :
  JS.is_upper c = true \/ JS.is_lower c = true -> JS.units_of c = 1%nat.
Proof.
  intros [H|H]; arith_of_bool; apply (proj1 (units_of_cases c)); lia.
Qed.

Lemma length_app_units (a b : string) :
  JS.length (a ++ b) = (JS.length a + JS.length b)%nat.
Proof.
  induction a as [|c r IH]; simpl; [reflexivity|]. rewrite IH. lia.
Qed.

Lemma string_length_app (a b : string) :
  String.length (a ++ b) = (String.length a + String.length b)%nat.
Proof.
  induction a as [|c r IH]; simpl; [reflexivity|]. rewrite IH. reflexivity.
Qed.

Lemma one_unit_each (cs : list JS.Char) :
  Forall one_unit cs ->
  JS.length (JS.write cs) = List.length cs /\
  (List.length cs <= String.length (JS.write cs))%nat.
Proof.
  induction 1 as [|x r Hx Hr [IH1 IH2]]; simpl; [split; [reflexivity | lia]|].
  destruct x as [bytes|c]; simpl in Hx.
  - rewrite length_app_units, string_length_app, IH1, Hx.
    assert (1 <= String.length bytes)%nat by (destruct bytes; [discriminate Hx | simpl; lia]).
    split; lia.
  - simpl. rewrite Hx, IH1. split; lia.
Qed.

Lemma word_one_unit (w : list JS.Char) : word w -> Forall one_unit w.
Proof.
  intros (c & lows & E & U & _ & L). subst w. constructor.
  - simpl. apply letter_one_unit. left. exact U.
  - clear U. induction lows as [|l lows IH]; simpl; [constructor|].
    simpl in L. apply andb_true_iff in L. destruct L as [L1 L2].
    constructor; [simpl; apply letter_one_unit; right; exact L1 | apply IH; exact L2].
Qed.

Lemma gap_one_unit (g : list JS.Char) :
  JS.gap g -> Forall well_read g -> Forall one_unit g.
Proof.
  intros [_ B] W. induction W as [|x r Hx Hr IH]; [constructor|].
  simpl in B. apply andb_true_iff in B. destruct B as [B1 B2].
  constructor; [|apply IH; exact B2].
  destruct x as [bytes|c]; [|discriminate B1].
  simpl in *. destruct Hx as [Hne Hw]. apply blank_one_unit; assumption.
Qed.

Lemma phrase_one_unit (cs : list JS.Char) :
  phrase cs -> Forall well_read cs -> Forall one_unit cs.
Proof.
  induction 1 as [w Hw | p g w Hp IH Hg Hw]; intros W.
  - apply word_one_unit. exact Hw.
  - apply Forall_app in W. destruct W as [Wp W].
    apply Forall_app in W. destruct W as [Wg Ww].
    apply Forall_app. split; [apply IH; exact Wp|].
    apply Forall_app. split; [apply gap_one_unit; assumption | apply word_one_unit; exact Hw].
Qed.

(** Every match of the pattern is a phrase, and has at least as many
    bytes as code units. *)
Lemma matches_phrases (text m : string) :
  In m (matches text) ->
  phrase_string m /\ (JS.length m <= String.length m)%nat.
Proof.
  unfold matches. intros Hm. apply in_map_iff in Hm. destruct Hm as (cs & E & Hcs).
  destruct (scan_phrases (JS.read text) (chars_well_read text 0) 0 None cs Hcs)
    as [Hp Hw].
  split; [exists cs; auto|].
  destruct (one_unit_each cs (phrase_one_unit cs Hp Hw)) as [H1 H2].
  subst m. lia.
Qed.

Lemma bump_names (name : string) (acc : list Topic) :
  map topic (bump name acc) = map topic acc.
Proof.
  induction acc as [|t rest IH]; simpl; [reflexivity|].
  destruct (String.eqb (topic t) name); simpl; [reflexivity|].
  rewrite IH. reflexivity.
Qed.

Lemma found_iff (name : string) (acc : list Topic) :
  found name acc = true <-> In name (map topic acc).
Proof.
  unfold found. rewrite existsb_exists, in_map_iff.
  split; intros [t [H1 H2]]; exists t.
  - apply String.eqb_eq in H2. auto.
  - split; [exact H2 | apply String.eqb_eq; exact H1].
Qed.

Section TopicFacts.
Variable random : nat -> Q.

(** The reduction keeps the names distinct and invents none. *)
Lemma reduce_names (names : list string) :
  forall st,
    NoDup (map topic (fst st)) ->
    NoDup (map topic (fst (fold_left (reduce_step random) names st))) /\
    (forall n, In n (map topic (fst (fold_left (reduce_step random) names st))) ->
               In n (map topic (fst st)) \/ In n names).
Proof.
  induction names as [|name rest IH]; intros [acc draws] Hnd.
  - simpl. auto.
  - cbn [fold_left]. unfold reduce_step at 2 4.
    destruct (found name acc) eqn:F.
    + destruct (IH (bump name acc, draws)) as [H1 H2].
      { cbn [fst]. rewrite bump_names. exact Hnd. }
      split; [exact H1|].
      intros n Hn. destruct (H2 n Hn) as [H|H].
      * left. cbn [fst] in *. rewrite bump_names in H. exact H.
      * right. right. exact H.
    + set (fresh := {| topic := name;
                       topic_confidence := (6 # 10) + random draws * (3 # 10) |}).
      destruct (IH ((acc ++ [fresh])%list, S draws)) as [H1 H2].
      { cbn [fst] in *. rewrite map_app. simpl.
        apply NoDup_app; [exact Hnd | |].
        - constructor; [intros []|constructor].
        - intros a Ha [Hb|[]]. subst a.
          apply found_iff in Ha. congruence. }
      split; [exact H1|].
      intros n Hn. destruct (H2 n Hn) as [H|H].
      * cbn [fst] in *. rewrite map_app in H. apply in_app_or in H.
        destruct H as [H|[H|[]]]; [left; exact H | right; left; exact H].
      * right. right. exact H.
Qed.

(** C8.  Whatever the random samples, the topic list has at most ten
    entries, none of two characters or fewer (counted in code units, as
    [length] does, and so in bytes too), none equal to a word of the
    stop list, and no name twice; the text "The Quick Brown Fox" yields
    the one phrase "The Quick Brown Fox" and so never the bare "The". *)
Theorem extractTopics_filtered_distinct_top10 (text : string) :
  let ts := extractTopics random text in
  (List.length ts <= 10)%nat /\
  Forall (fun t => (2 < JS.length (topic t))%nat) ts /\
  Forall (fun t => (2 < String.length (topic t))%nat) ts /\
  Forall (fun t => ~ In (topic t) commonWords) ts /\
  NoDup (map topic ts) /\
  map topic (extractTopics random "The Quick Brown Fox") = ["The Quick Brown Fox"] /\
  ~ In "The" (map topic (extractTopics random "The Quick Brown Fox")).
Proof.
  cbv zeta. unfold extractTopics.
  set (kept := filter (fun m => (2 <? JS.length m)%nat
                                && negb (JS.arr_includes commonWords m))
                      (matches text)).
  set (reduced := fst (fold_left (reduce_step random) kept ([], 0%nat))).
  destruct (reduce_names kept ([], 0%nat)) as [Hnd Hin]; [constructor|].
  fold reduced in Hnd, Hin.
  set (sorted := JS.sort (by_confidence) reduced).
  assert (Hperm : Permutation sorted reduced) by apply sort_perm.
  assert (Hmatch : forall t, In t (firstn 10 sorted) ->
                     In (topic t) (matches text) /\
                     (2 <? JS.length (topic t))%nat
                     && negb (JS.arr_includes commonWords (topic t)) = true).
  { intros t Ht.
    assert (In t sorted).
    { rewrite <- (firstn_skipn 10 sorted). apply in_or_app. left. exact Ht. }
    assert (In (topic t) (map topic reduced)).
    { apply in_map. apply (Permutation_in _ Hperm). assumption. }
    destruct (Hin _ H0) as [[]|Hk].
    unfold kept in Hk. apply filter_In in Hk. exact Hk. }
  assert (Hkept : forall t, In t (firstn 10 sorted) ->
                    (2 <? JS.length (topic t))%nat
                    && negb (JS.arr_includes commonWords (topic t)) = true).
  { intros t Ht. apply (Hmatch t Ht). }
  split; [apply firstn_le_length|].
  split.
  { apply Forall_forall. intros t Ht.
    apply Hkept in Ht. apply andb_true_iff in Ht. destruct Ht as [Ht _].
    apply Nat.ltb_lt. exact Ht. }
  split.
  { apply Forall_forall. intros t Ht.
    destruct (Hmatch t Ht) as [Hm Hk].
    apply andb_true_iff in Hk. destruct Hk as [Hk _]. apply Nat.ltb_lt in Hk.
    destruct (matches_phrases text (topic t) Hm) as [_ Hle]. lia. }
  split.
  { apply Forall_forall. intros t Ht Hc.
    apply Hkept in Ht. apply andb_true_iff in Ht. destruct Ht as [_ Ht].
    apply negb_true_iff in Ht.
    assert (JS.arr_includes commonWords (topic t) = true).
    { unfold JS.arr_includes. apply existsb_exists.
      exists (topic t). split; [exact Hc | apply String.eqb_refl]. }
    congruence. }
  split.
  { assert (NoDup (map topic sorted)).
    { apply (Permutation_NoDup (l := map topic reduced)); [|exact Hnd].
      apply Permutation_map, Permutation_sym, Hperm. }
    rewrite <- (firstn_skipn 10 sorted), map_app in H.
    apply NoDup_app_remove_r in H. exact H. }
  split; [reflexivity|].
  intros [H|[]]. discriminate H.
Qed.
End TopicFacts.
End GeminiFacts.

Lemma analyzeSentiment_label_and_confidence_witness :
  Gemini.words_of JS.lower_latin1 Gemini.sample_text = ["good"; "great"; "bad"] /\
  Gemini.keyword_count JS.lower_latin1 Gemini.positiveWords Gemini.sample_text = 2%Z /\
  Gemini.keyword_count JS.lower_latin1 Gemini.negativeWords Gemini.sample_text = 1%Z /\
  Gemini.sentiment (Gemini.overall
                      (Gemini.analyzeSentiment JS.lower_latin1 Gemini.sample_text))
  = "positive" /\
  Gemini.confidence (Gemini.overall
                       (Gemini.analyzeSentiment JS.lower_latin1 Gemini.sample_text))
  == 9 # 10.
Proof.
  destruct (analyzeSentiment_label_and_confidence JS.lower_latin1 Gemini.sample_text)
    as ([_ Hpos] & _ & _ & Hconf & _).
  split; [reflexivity|]. split; [reflexivity|]. split; [reflexivity|].
  split; [apply Hpos; reflexivity|].
  rewrite Hconf. vm_compute. reflexivity.
Defined.

Lemma detectLanguage_strictly_highest_witness :
  Gemini.detectLanguage JS.lower_latin1 "el gato no es tu amigo" = "es" /\
  Gemini.detectLanguage JS.lower_latin1 "le chat et le chien" = "fr" /\
  Gemini.detectLanguage JS.lower_latin1 "À demain" = "fr" /\
  Gemini.detectLanguage JS.lower_latin1 "THE cat is on it" = "en" /\
  Gemini.detectLanguage JS.lower_latin1 "le de" = "en" /\
  Gemini.detectLanguage JS.lower_latin1 "zzz qqq" = "en".
Proof.
  destruct (detectLanguage_strictly_highest JS.lower_latin1 "el gato no es tu amigo")
    as (_ & Hes & _).
  destruct (detectLanguage_strictly_highest JS.lower_latin1 "le chat et le chien")
    as (_ & _ & Hfr & _).
  destruct (detectLanguage_strictly_highest JS.lower_latin1 "À demain")
    as (_ & _ & Hfr' & _).
  destruct (detectLanguage_strictly_highest JS.lower_latin1 "THE cat is on it")
    as (Hen & _).
  destruct (detectLanguage_strictly_highest JS.lower_latin1 "le de")
    as (_ & _ & _ & Htie & _).
  destruct (detectLanguage_strictly_highest JS.lower_latin1 "zzz qqq")
    as (_ & _ & _ & _ & Hzero & _).
  split; [apply Hes; vm_compute; lia|].
  split; [apply Hfr; vm_compute; lia|].
  split; [apply Hfr'; vm_compute; lia|].
  split; [apply Hen; vm_compute; lia|].
  split; [apply Htie; vm_compute; lia|].
  apply Hzero; vm_compute; auto.
Defined.

(* ================================================================== *)
(** ** The Deepgram normaliser                                          *)
(* ================================================================== *)

Section DeepgramFacts.
Import Deepgram.

Lemma tally_counts (c : Counts) (q : Q) (seg : SentimentSegment) :
  let c' := fst (tally (c, q) seg) in
  positive c' = (positive c + bit (labelled "positive" seg))%nat /\
  negative c' = (negative c + bit (labelled "negative" seg))%nat /\
  neutral c' = (neutral c + bit (labelled "neutral" seg))%nat.
Proof.
  cbv zeta. unfold tally, labelled.
  destruct (truthy (s_sentiment seg)) as [key|]; [|simpl; lia].
  unfold hasOwnProperty, incr.
  destruct (String.eqb_spec key "positive") as [E|E1]; [subst key; simpl; lia|].
  destruct (String.eqb_spec key "negative") as [E|E2]; [subst key; simpl; lia|].
  destruct (String.eqb_spec key "neutral") as [E|E3]; [subst key; simpl; lia|].
  simpl. lia.
Qed.

Lemma tally_fold (segs : list SentimentSegment) :
  forall c q,
    let c' := fst (fold_left tally segs (c, q)) in
    positive c' = (positive c + class_count "positive" segs)%nat /\
    negative c' = (negative c + class_count "negative" segs)%nat /\
    neutral c' = (neutral c + class_count "neutral" segs)%nat.
Proof.
  induction segs as [|seg rest IH]; intros c q; cbv zeta.
  - unfold class_count. simpl. lia.
  - cbn [fold_left].
    destruct (tally_counts c q seg) as (Tp & Tn & Tu).
    destruct (tally (c, q) seg) as [c1 q1]. cbn [fst] in Tp, Tn, Tu.
    destruct (IH c1 q1) as (Hp & Hn & Hu).
    rewrite Hp, Hn, Hu, Tp, Tn, Tu.
    unfold class_count. cbn [filter].
    destruct (labelled "positive" seg), (labelled "negative" seg),
      (labelled "neutral" seg); cbn [bit List.length]; lia.
Qed.

(** C1, as amended.  On a non-empty segment list the distribution holds
    the number of segments of each class, and the overall sentiment is
    the last class, in the order positive, negative, neutral, among those
    that reach the highest count: a tie goes to the later class. *)
Theorem overall_sentiment_last_leader (segs : list SentimentSegment) :
  segs <> [] ->
  exists o,
    calculateOverallSentiment segs = Some o /\
    (forall k, In k classes -> get (distribution o) k = class_count k segs) /\
    sentiment o = last (leaders segs) "".
Proof.
  intros Hne.
  destruct segs as [|seg rest]; [congruence|].
  unfold calculateOverallSentiment.
  set (segs := seg :: rest).
  destruct (tally_fold segs {| positive := 0; negative := 0; neutral := 0 |} 0%Q)
    as (Hp & Hn & Hu).
  destruct (fold_left tally segs ({| positive := 0; negative := 0; neutral := 0 |}, 0%Q))
    as [c q].
  cbn [fst positive negative neutral Nat.add] in Hp, Hn, Hu.
  eexists. split; [reflexivity|].
  cbn [distribution sentiment]. split.
  - intros k [E|[E|[E|[]]]]; subst k; unfold get; simpl; assumption.
  - unfold leaders, max_count, classes. cbn [filter].
    rewrite <- Hp, <- Hn, <- Hu.
    cbn [JS.reduce1 entries fold_left]. unfold pick. cbn [fst].
    change (get c "positive") with (positive c).
    change (get c "negative") with (negative c).
    destruct (Nat.ltb_spec (negative c) (positive c)); cbn [fst];
      [change (get c "positive") with (positive c)
      |change (get c "negative") with (negative c)];
      change (get c "neutral") with (neutral c);
      [destruct (Nat.ltb_spec (neutral c) (positive c))
      |destruct (Nat.ltb_spec (neutral c) (negative c))];
      destruct (Nat.eqb_spec (positive c)
                  (Nat.max (positive c) (Nat.max (negative c) (neutral c))));
      destruct (Nat.eqb_spec (negative c)
                  (Nat.max (positive c) (Nat.max (negative c) (neutral c))));
      destruct (Nat.eqb_spec (neutral c)
                  (Nat.max (positive c) (Nat.max (negative c) (neutral c))));
      cbn [fst last]; try reflexivity; lia.
Qed.

Lemma overall_sentiment_last_leader_witness :
  [segment_labelled "positive"; segment_labelled "negative"] <> [] /\
  option_map sentiment
    (calculateOverallSentiment
       [segment_labelled "positive"; segment_labelled "negative"]) = Some "negative".
Proof.
  split; [discriminate|].
  destruct (overall_sentiment_last_leader
              [segment_labelled "positive"; segment_labelled "negative"])
    as (o & Ho & _ & Hs); [discriminate|].
  rewrite Ho. simpl. rewrite Hs. reflexivity.
Defined.

(** The segments [positive, negative] give the counts 1-1-0: two classes
    reach the highest count, the first of them is "positive", and the
    overall sentiment computed is "negative". *)
Lemma tie_positive_negative_counterexample :
  let segs := [segment_labelled "positive"; segment_labelled "negative"] in
  (1 < List.length (leaders segs))%nat /\
  hd "" (leaders segs) = "positive" /\
  option_map sentiment (calculateOverallSentiment segs) = Some "negative" /\
  option_map sentiment (calculateOverallSentiment segs) <> Some (hd "" (leaders segs)).
Proof.
  cbv zeta. split; [vm_compute; lia|].
  split; [reflexivity|].
  split; [reflexivity|].
  vm_compute. discriminate.
Qed.

(** *** Speakers *)

Lemma set_add_in (x y : N) (s : list N) :
  In y (JS.set_add x s) <-> y = x \/ In y s.
Proof.
  unfold JS.set_add. destruct (existsb (N.eqb x) s) eqn:E.
  - split; [auto|]. intros [H|H]; [|exact H]. subst y.
    apply existsb_exists in E. destruct E as [z [Hz Ez]].
    apply N.eqb_eq in Ez. subst z. exact Hz.
  - rewrite in_app_iff. simpl. intuition.
Qed.

Lemma set_add_nodup (x : N) (s : list N) : NoDup s -> NoDup (JS.set_add x s).
Proof.
  intros Hs. unfold JS.set_add. destruct (existsb (N.eqb x) s) eqn:E; [exact Hs|].
  apply NoDup_app; [exact Hs | constructor; [intros [] | constructor] |].
  intros a Ha [Hx|[]]. subst a.
  assert (existsb (N.eqb x) s = true); [|congruence].
  apply existsb_exists. exists x. split; [exact Ha | apply N.eqb_refl].
Qed.

Lemma note_fold (ws : list Word) :
  forall seen,
    NoDup seen ->
    NoDup (fold_left note_speaker ws seen) /\
    (forall x, In x (fold_left note_speaker ws seen) <->
               In x seen \/ In (Some x) (map w_speaker ws)).
Proof.
  induction ws as [|w rest IH]; intros seen Hnd.
  - simpl. split; [exact Hnd | intuition].
  - cbn [fold_left map].
    assert (Hnd' : NoDup (note_speaker seen w)).
    { unfold note_speaker. destruct (w_speaker w); [apply set_add_nodup|]; exact Hnd. }
    destruct (IH _ Hnd') as [H1 H2]. split; [exact H1|].
    intros x. rewrite H2. unfold note_speaker.
    destruct (w_speaker w) as [sp|]; simpl.
    + rewrite set_add_in. split.
      * intros [[E|H]|H]; [subst; auto | auto | auto].
      * intros [H|[E|H]]; [auto | injection E; intros; subst; auto | auto].
    + split; [intros [H|H]; auto | intros [H|[E|H]]; [auto | discriminate | auto]].
Qed.

Lemma map_words_speakers (ws : list Word) :
  forall index seen, snd (map_words index seen ws) = fold_left note_speaker ws seen.
Proof.
  induction ws as [|w rest IH]; intros index seen; cbn [map_words fold_left].
  - reflexivity.
  - specialize (IH (S index) (note_speaker seen w)). unfold note_speaker in IH at 1.
    destruct (map_words (S index) _ rest) as [segs final]. exact IH.
Qed.

Lemma process_words (ws : list Word) :
  exists r,
    processDeepgramResponse (response_of_words ws) = inr r /\
    out_speakers r = JS.sort JS.default_after (observed ws).
Proof.
  unfold processDeepgramResponse, response_of_words.
  cbn [results channels alternatives words].
  pose proof (map_words_speakers ws 0 []) as H.
  destruct (map_words 0 [] ws) as [segs sp]. cbn [snd] in H.
  eexists. split; [reflexivity|]. cbn [out_speakers]. rewrite H. reflexivity.
Qed.

Lemma default_after_asym (a b : N) :
  JS.default_after a b = true -> JS.default_after b a = false.
Proof.
  unfold JS.default_after, String.ltb.
  rewrite (String.compare_antisym (JS.toString b) (JS.toString a)).
  destruct (String.compare (JS.toString a) (JS.toString b)); simpl; congruence.
Qed.

(** Every speaker of the words is listed exactly once, and the list is in
    the order of the decimal spellings. *)
Lemma speakers_once_in_spelling_order (ws : list Word) :
  exists r,
    processDeepgramResponse (response_of_words ws) = inr r /\
    NoDup (out_speakers r) /\
    (forall x, In x (out_speakers r) <-> In (Some x) (map w_speaker ws)) /\
    Sorted spelled_le (out_speakers r).
Proof.
  destruct (process_words ws) as (r & Hr & Hs).
  exists r. split; [exact Hr|]. rewrite Hs.
  destruct (note_fold ws [] (NoDup_nil N)) as [Hnd Hin].
  fold (observed ws) in Hnd, Hin.
  assert (P : Permutation (JS.sort JS.default_after (observed ws)) (observed ws))
    by apply sort_perm.
  split; [|split].
  - apply (Permutation_NoDup (Permutation_sym P)). exact Hnd.
  - intros x. split.
    + intros H. apply (Permutation_in _ P) in H. apply Hin in H.
      destruct H as [[]|H]. exact H.
    + intros H. apply (Permutation_in _ (Permutation_sym P)). apply Hin. auto.
  - apply (sort_sorted JS.default_after default_after_asym).
Qed.

Lemma spelled_le_below_10 (a b : N) :
  (a < 10)%N -> (b < 10)%N -> spelled_le a b -> (a <= b)%N.
Proof.
  intros Ha Hb.
  assert (Da : In a [0; 1; 2; 3; 4; 5; 6; 7; 8; 9]%N).
  { simpl. lia. }
  assert (Db : In b [0; 1; 2; 3; 4; 5; 6; 7; 8; 9]%N).
  { simpl. lia. }
  simpl in Da, Db.
  repeat (destruct Da as [Da|Da]; [subst a|]); try contradiction;
    repeat (destruct Db as [Db|Db]; [subst b|]); try contradiction;
    vm_compute; intros H; try discriminate H; try (intros E; discriminate E).
Qed.

(** With identifiers below 10 the spelling order is the numeric one. *)
Lemma speakers_below_10_ascending (ws : list Word) :
  (forall x, In (Some x) (map w_speaker ws) -> (x < 10)%N) ->
  exists r,
    processDeepgramResponse (response_of_words ws) = inr r /\
    Sorted N.le (out_speakers r).
Proof.
  intros Hsmall.
  destruct (speakers_once_in_spelling_order ws) as (r & Hr & _ & Hin & Hs).
  exists r. split; [exact Hr|].
  assert (Hb : forall x, In x (out_speakers r) -> (x < 10)%N).
  { intros x Hx. apply Hsmall, Hin, Hx. }
  clear Hr Hin. revert Hs Hb. generalize (out_speakers r). clear r.
  intros l Hs. induction Hs as [|a l Hl IH Hhd]; intros Hb; constructor.
  - apply IH. intros x Hx. apply Hb. right. exact Hx.
  - destruct Hhd as [|b l' Hab]; constructor.
    apply spelled_le_below_10; [apply Hb; left; reflexivity
                               |apply Hb; right; left; reflexivity
                               |exact Hab].
Qed.

(** C2.  The words with speakers 0, 1, 0 give the speakers [0; 1]; the
    words of eleven speakers, 0 to 10, give 0, 1, 10, 2, ..., 9, because
    the identifiers are ordered as strings and "10" comes before "2". *)
Theorem eleven_speakers_out_of_order :
  (exists r,
     processDeepgramResponse
       (response_of_words [spoken_by 0; spoken_by 1; spoken_by 0]) = inr r /\
     out_speakers r = [0; 1]%N) /\
  (exists r,
     processDeepgramResponse
       (response_of_words (map spoken_by [0; 1; 2; 3; 4; 5; 6; 7; 8; 9; 10]%N)) = inr r /\
     out_speakers r = [0; 1; 10; 2; 3; 4; 5; 6; 7; 8; 9]%N /\
     ~ Sorted N.le (out_speakers r)).
Proof.
  split.
  - eexists. split; reflexivity.
  - eexists. split; [reflexivity|]. split; [reflexivity|].
    cbn [out_speakers]. intros H.
    change (JS.sort JS.default_after _) with [0; 1; 10; 2; 3; 4; 5; 6; 7; 8; 9]%N in H.
    inversion H as [|? ? H1 _]; subst.
    inversion H1 as [|? ? H2 _]; subst.
    inversion H2 as [|? ? _ Hhd]; subst.
    inversion Hhd as [|? ? Hle]; subst.
    revert Hle. vm_compute. intros Hle. apply Hle. reflexivity.
Qed.

(** *** Empty and malformed responses *)

Lemma empty_result_fields (response : Response) :
  let r := empty_result response in
  out_text r = "" /\ out_speakers r = [] /\ out_topics r = [] /\
  out_segments r = [] /\ out_confidence r = 0%Q /\
  out_sentiment r = None /\ out_language r = None.
Proof. cbv zeta. repeat split. Qed.

Lemma no_channel_or_no_alternative (response : Response) (res : Results) :
  results response = Some res ->
  (channels res = Some [] \/
   exists ch rest, channels res = Some (ch :: rest) /\ alternatives ch = Some []) ->
  processDeepgramResponse response = inr (empty_result response).
Proof.
  intros Hres [Hch | (ch & rest & Hch & Halt)];
    unfold processDeepgramResponse; rewrite Hres, Hch; [reflexivity|].
  rewrite Halt. reflexivity.
Qed.

(** C3.  A response whose first channel has no [alternatives] field makes
    [processDeepgramResponse] throw a [TypeError]: reading index 0 of the
    absent list is not guarded, unlike the absent [results], the absent or
    empty [channels] and the empty [alternatives], for which the all-empty
    result is returned. *)
Theorem absent_alternatives_throw (response : Response) (res : Results)
        (ch : Channel) (rest : list Channel) :
  results response = Some res ->
  channels res = Some (ch :: rest) ->
  alternatives ch = None ->
  exists message, processDeepgramResponse response = inl (TypeError message).
Proof.
  intros Hres Hch Halt. unfold processDeepgramResponse.
  rewrite Hres, Hch, Halt. eexists. reflexivity.
Qed.

Lemma absent_alternatives_throw_witness :
  exists message,
    processDeepgramResponse (response_of_channels [{| alternatives := None |}]) =
    inl (TypeError message).
Proof.
  apply (absent_alternatives_throw
           (response_of_channels [{| alternatives := None |}])
           {| channels := Some [{| alternatives := None |}]; r_topics := None;
              r_sentiment := None; r_metadata := None |}
           {| alternatives := None |} []); reflexivity.
Defined.
End DeepgramFacts.

(* ================================================================== *)
(** ** The options panel                                                *)
(* ================================================================== *)

Section OptionsFacts.
Import OptionsPanel.

(** C9.  Changing the provider to one of the three known providers
    yields the options with that provider, with the provider's default
    model, and with every other field as it was. *)
Theorem provider_change_resets_model (options : TranscriptionOptions) (p : string) :
  In p providers ->
  handleProviderChange options p =
  {| provider := p;
     model := default_model p;
     language := language options;
     diarize := diarize options;
     sentiment := sentiment options;
     topics := topics options;
     detectLanguage := detectLanguage options;
     customTopicMode := customTopicMode options;
     customTopics := customTopics options;
     includeTimestamps := includeTimestamps options;
     speakerLabels := speakerLabels options;
     punctuation := punctuation options |}.
Proof.
  intros [E|[E|[E|[]]]]; subst p; reflexivity.
Qed.

Lemma provider_change_resets_model_witness :
  In "deepgram" providers /\
  provider (handleProviderChange sample_options "deepgram") = "deepgram" /\
  model (handleProviderChange sample_options "deepgram") = "nova-3" /\
  customTopics (handleProviderChange sample_options "deepgram") = ["budget"].
Proof.
  assert (H : In "deepgram" providers) by (simpl; auto).
  split; [exact H|].
  rewrite (provider_change_resets_model sample_options "deepgram" H).
  repeat split.
Defined.
End OptionsFacts.

(* ================================================================== *)
(** ** More on the chunk combiner                                       *)
(* ================================================================== *)

Section CombinerMore.
Import TranscriptionService.

Lemma combine_segments (results : list TranscriptionResult) :
  (2 <= List.length results)%nat ->
  segments (combineTranscriptionResults results) =
  Some (JS.sort by_start (rebase_spec 0 results)).
Proof.
  intros Hlen.
  destruct results as [|r0 [|r1 rest]]; simpl in Hlen; try lia.
  unfold combineTranscriptionResults. cbv zeta. cbn [segments].
  rewrite forEach_spec by reflexivity. reflexivity.
Qed.

Lemma rebase_id_text (results : list TranscriptionResult) :
  forall offset,
    map id_text (rebase_spec offset results) =
    map id_text (flat_map segments_of results).
Proof.
  induction results as [|c rest IH]; intros offset; simpl; [reflexivity|].
  rewrite !map_app, IH, map_map. reflexivity.
Qed.

Lemma rebase_shifted (results : list TranscriptionResult) :
  forall offset o,
    In o (rebase_spec offset results) ->
    exists s t, In s (flat_map segments_of results) /\ o = adjust t s.
Proof.
  induction results as [|c rest IH]; intros offset o Ho; simpl in Ho; [contradiction|].
  apply in_app_or in Ho. destruct Ho as [Ho|Ho].
  - apply in_map_iff in Ho. destruct Ho as [s [E Hs]].
    exists s, offset. split; [|symmetry; exact E].
    simpl. apply in_or_app. left. exact Hs.
  - destruct (IH _ _ Ho) as (s & t & Hs & E).
    exists s, t. split; [|exact E].
    simpl. apply in_or_app. right. exact Hs.
Qed.

(** Combining two or more results loses no segment and invents none:
    there are as many segments as in all the chunks together, their
    identifiers and texts are those of the chunks (identifiers are not
    renumbered), and every segment is a segment of a chunk with its two
    times shifted by one amount. *)
Theorem combine_keeps_every_segment (results : list TranscriptionResult) :
  (2 <= List.length results)%nat ->
  exists segs,
    segments (combineTranscriptionResults results) = Some segs /\
    List.length segs = List.length (flat_map segments_of results) /\
    Permutation (map id_text segs) (map id_text (flat_map segments_of results)) /\
    (forall o, In o segs ->
       exists s t, In s (flat_map segments_of results) /\ o = adjust t s).
Proof.
  intros Hlen. rewrite (combine_segments results Hlen).
  eexists. split; [reflexivity|].
  assert (P : Permutation (JS.sort by_start (rebase_spec 0 results))
                          (rebase_spec 0 results)) by apply sort_perm.
  assert (E := rebase_id_text results 0).
  split; [|split].
  - rewrite (Permutation_length P).
    rewrite <- (length_map id_text (rebase_spec 0 results)), E, length_map. reflexivity.
  - rewrite <- E. apply Permutation_map. exact P.
  - intros o Ho. apply (rebase_shifted results 0).
    apply (Permutation_in _ P). exact Ho.
Qed.

Lemma combine_keeps_every_segment_witness :
  (2 <= List.length [chunkA; chunkB; chunkA])%nat /\
  exists segs,
    segments (combineTranscriptionResults [chunkA; chunkB; chunkA]) = Some segs /\
    List.length segs = 3%nat.
Proof.
  assert (H : (2 <= List.length [chunkA; chunkB; chunkA])%nat) by (simpl; lia).
  split; [exact H|].
  destruct (combine_keeps_every_segment _ H) as (segs & E & L & _).
  exists segs. split; [exact E | exact L].
Defined.

Lemma rebase_skip (e : TranscriptionResult) (before after : list TranscriptionResult) :
  segments_of e = [] ->
  forall offset,
    rebase_spec offset (before ++ e :: after) = rebase_spec offset (before ++ after).
Proof.
  intros He. induction before as [|c rest IH]; intros offset.
  - simpl. rewrite He. reflexivity.
  - simpl. rewrite IH. reflexivity.
Qed.

(** A result without segments (the field absent or the list empty) among
    the chunks changes nothing in the combined segments: the offset of
    the chunks behind it is what it would be without it. *)
Theorem combine_ignores_chunk_without_segments
        (e : TranscriptionResult) (before after : list TranscriptionResult) :
  segments_of e = [] ->
  (2 <= List.length (before ++ after))%nat ->
  segments (combineTranscriptionResults (before ++ e :: after)) =
  segments (combineTranscriptionResults (before ++ after)).
Proof.
  intros He Hlen.
  rewrite !combine_segments.
  - rewrite (rebase_skip e before after He). reflexivity.
  - exact Hlen.
  - rewrite length_app in *. simpl. lia.
Qed.

Lemma combine_ignores_chunk_without_segments_witness :
  segments (combineTranscriptionResults
              ([chunkA] ++ {| text := "noise"; segments := None; language := None |}
                        :: [chunkB])) =
  segments (combineTranscriptionResults ([chunkA] ++ [chunkB])).
Proof.
  apply (combine_ignores_chunk_without_segments
           {| text := "noise"; segments := None; language := None |} [chunkA] [chunkB]).
  - reflexivity.
  - simpl. lia.
Defined.

(** Sorting a list that is already in order returns it. *)
Lemma sort_in_order {A : Type} (after : A -> A -> bool) (l : list A) :
  Sorted (fun a b => after a b = false) l -> JS.sort after l = l.
Proof.
  induction 1 as [|a t Ht IH Hhd]; simpl; [reflexivity|].
  rewrite IH. destruct Hhd as [|b t' Hab]; simpl; [reflexivity|].
  rewrite Hab. reflexivity.
Qed.

Lemma Sorted_app_bound {A : Type} (R : A -> A -> Prop) (l1 l2 : list A) :
  Sorted R l1 -> Sorted R l2 ->
  (forall a b, In a l1 -> In b l2 -> R a b) ->
  Sorted R (l1 ++ l2).
Proof.
  intros H1 H2 H. induction H1 as [|a t Ht IH Hhd]; simpl; [exact H2|].
  constructor.
  - apply IH. intros x y Hx Hy. apply H; [right; exact Hx | exact Hy].
  - destruct Hhd as [|b t' Hab]; simpl.
    + destruct l2 as [|y l2']; constructor.
      apply H; left; reflexivity.
    + constructor. exact Hab.
Qed.

Lemma final_in {A : Type} (l : list A) (x : A) : JS.final l = Some x -> In x l.
Proof. unfold JS.final. apply nth_error_In. Qed.

Lemma adjust_sorted (offset : Q) (l : list Segment) :
  Sorted starts_le l -> Sorted starts_le (map (adjust offset) l).
Proof.
  induction 1 as [|a t Ht IH Hhd]; simpl; constructor; [exact IH|].
  destruct Hhd as [|b t' Hab]; simpl; constructor.
  unfold starts_le in *. simpl. apply Qplus_le_compat; [exact Hab | apply Qle_refl].
Qed.

Lemma rebase_in_order (results : list TranscriptionResult) :
  Forall chunk_in_order results ->
  forall offset,
    Sorted starts_le (rebase_spec offset results) /\
    (forall s, In s (rebase_spec offset results) -> offset <= start s).
Proof.
  induction 1 as [|c rest Hc Hrest IH]; intros offset; simpl.
  - split; [constructor | intros s []].
  - destruct Hc as (Hsorted & Hpos & Hlast).
    set (rebased := map (adjust offset) (segments_of c)).
    set (offset' := match JS.final rebased with
                    | Some lastSegment => end_ lastSegment
                    | None => offset
                    end).
    destruct (IH offset') as [IHs IHb].
    assert (Hup : forall s, In s (segments_of c) -> start s + offset <= offset').
    { intros s Hs. unfold offset', rebased. rewrite final_map.
      destruct (JS.final (segments_of c)) as [l|] eqn:F; simpl.
      - apply Qplus_le_compat; [apply (Hlast s l Hs eq_refl) | apply Qle_refl].
      - unfold JS.final in F. apply nth_error_None in F.
        destruct (segments_of c); [contradiction | simpl in F; lia]. }
    assert (Hmono : offset <= offset').
    { destruct (JS.final (segments_of c)) as [l|] eqn:F.
      - assert (Hl : In l (segments_of c)) by (apply final_in; exact F).
        apply Qle_trans with (start l + offset); [|apply (Hup l Hl)].
        rewrite <- (Qplus_0_l offset) at 1.
        apply Qplus_le_compat; [apply Hpos; exact Hl | apply Qle_refl].
      - unfold offset', rebased. rewrite final_map, F. simpl. apply Qle_refl. }
    split.
    + apply Sorted_app_bound; [apply adjust_sorted; exact Hsorted | exact IHs |].
      intros a b Ha Hb. unfold rebased in Ha. apply in_map_iff in Ha.
      destruct Ha as [s [E Hs]]. subst a. unfold starts_le. simpl.
      apply Qle_trans with offset'; [apply Hup; exact Hs | apply IHb; exact Hb].
    + intros s Hs. apply in_app_or in Hs. destruct Hs as [Hs|Hs].
      * unfold rebased in Hs. apply in_map_iff in Hs.
        destruct Hs as [s0 [E Hs0]]. subst s. simpl.
        rewrite <- (Qplus_0_l offset) at 1.
        apply Qplus_le_compat; [apply Hpos; exact Hs0 | apply Qle_refl].
      * apply Qle_trans with offset'; [exact Hmono | apply IHb; exact Hs].
Qed.

(** When every chunk has its segments in order of start, none starting
    before time 0 of the chunk or after the end of the chunk's final
    segment, the final sort moves nothing: the combined segments are the
    re-based chunks one after the other, in chunk order. *)
Theorem combine_keeps_chunk_order (results : list TranscriptionResult) :
  (2 <= List.length results)%nat ->
  Forall chunk_in_order results ->
  segments (combineTranscriptionResults results) = Some (rebase_spec 0 results).
Proof.
  intros Hlen Hall. rewrite (combine_segments results Hlen). f_equal.
  apply sort_in_order.
  destruct (rebase_in_order results Hall 0) as [Hs _].
  revert Hs. generalize (rebase_spec 0 results). intros l.
  induction 1 as [|a t Ht IH Hhd]; constructor; [exact IH|].
  destruct Hhd as [|b t' Hab]; constructor.
  unfold by_start. apply negb_false_iff. apply Qle_bool_iff. exact Hab.
Qed.

Lemma chunkA_in_order : chunk_in_order chunkA.
Proof.
  unfold chunk_in_order. simpl. split; [repeat constructor|]. split.
  - intros s [E|[]]. subst s. simpl. apply Qle_refl.
  - intros s l [E|[]] F. subst s. injection F as F. subst l. simpl. discriminate.
Qed.

Lemma chunkB_in_order : chunk_in_order chunkB.
Proof.
  unfold chunk_in_order. simpl. split; [repeat constructor|]. split.
  - intros s [E|[]]. subst s. simpl. apply Qle_refl.
  - intros s l [E|[]] F. subst s. injection F as F. subst l. simpl. discriminate.
Qed.

Lemma combine_keeps_chunk_order_witness :
  segments (combineTranscriptionResults [chunkA; chunkB; chunkA]) =
  Some (rebase_spec 0 [chunkA; chunkB; chunkA]).
Proof.
  apply combine_keeps_chunk_order.
  - simpl. lia.
  - repeat constructor; first [apply chunkA_in_order | apply chunkB_in_order].
Defined.
End CombinerMore.

(* ================================================================== *)
(** ** The requests of a chunked transcription                          *)
(* ================================================================== *)

Section RequestFacts.
Import TranscriptionService.
Variable Blob : Type.
Variable server : Request Blob -> string + TranscriptionResult.
Variables (key : string) (opts : Options).

Let request (chunk : Blob) : Request Blob := mkRequest Blob chunk key opts.
Let call (chunk : Blob) : M Blob TranscriptionResult :=
  transcribeAudio Blob server chunk key opts.

Lemma all_log (chunks : list Blob) :
  forall log, snd (all Blob (map call chunks) log) = (log ++ map request chunks)%list.
Proof.
  induction chunks as [|c rest IH]; intros log; simpl.
  - rewrite app_nil_r. reflexivity.
  - unfold call at 1, transcribeAudio.
    specialize (IH (log ++ [request c])%list).
    fold (request c).
    destruct (server (request c)) as [m|d];
      destruct (all Blob (map call rest) (log ++ [request c])%list) as [[e|xs] log2];
      simpl in *; rewrite IH, <- app_assoc; reflexivity.
Qed.

Lemma all_ok (chunks : list Blob) (datas : list TranscriptionResult) :
  map (fun c => server (request c)) chunks = map inr datas ->
  forall log, fst (all Blob (map call chunks) log) = inr datas.
Proof.
  revert datas. induction chunks as [|c rest IH]; intros datas H log.
  - destruct datas; [reflexivity | discriminate H].
  - destruct datas as [|d ds]; [discriminate H|].
    simpl in H. injection H as Hc Hrest.
    simpl. unfold call at 1, transcribeAudio. fold (request c). rewrite Hc.
    specialize (IH ds Hrest (log ++ [request c])%list).
    destruct (all Blob (map call rest) (log ++ [request c])%list) as [[e|xs] log2];
      simpl in *; [discriminate IH | injection IH as IH; subst xs; reflexivity].
Qed.

Lemma all_failed (chunks : list Blob) :
  (exists c m, In c chunks /\ server (request c) = inl m) ->
  forall log,
    exists c m, In c chunks /\ server (request c) = inl m /\
                fst (all Blob (map call chunks) log) =
                inl ("Transcription failed: " ++ m).
Proof.
  induction chunks as [|c rest IH]; intros (c0 & m0 & Hin & Hm) log.
  - destruct Hin.
  - simpl. unfold call at 1, transcribeAudio. fold (request c).
    destruct (server (request c)) as [m|d] eqn:E.
    + exists c, m. split; [left; reflexivity|]. split; [exact E|].
      destruct (all Blob (map call rest) (log ++ [request c])%list) as [[e|xs] log2];
        reflexivity.
    + destruct Hin as [Hin|Hin]; [subst c0; congruence|].
      destruct (IH (ex_intro _ c0 (ex_intro _ m0 (conj Hin Hm)))
                   (log ++ [request c])%list) as (c1 & m1 & Hin1 & Hm1 & Hr).
      exists c1, m1. split; [right; exact Hin1|]. split; [exact Hm1|].
      destruct (all Blob (map call rest) (log ++ [request c])%list) as [[e|xs] log2];
        simpl in *; [exact Hr | discriminate Hr].
Qed.

(** [transcribeAudioChunks] issues exactly one request per chunk, in the
    order of the chunks, whether or not any of them fails: a failure
    does not hold back the requests of the chunks after it. *)
Theorem one_request_per_chunk (chunks : list Blob) (log : list (Request Blob)) :
  snd (transcribeAudioChunks Blob server chunks key opts log) =
  (log ++ map (fun chunk => mkRequest Blob chunk key opts) chunks)%list.
Proof.
  destruct chunks as [|c [|c' rest]].
  - simpl. rewrite app_nil_r. reflexivity.
  - simpl. unfold transcribeAudio. destruct (server _); reflexivity.
  - unfold transcribeAudioChunks, bind.
    pose proof (all_log (c :: c' :: rest) log) as H.
    fold call.
    destruct (all Blob (map call (c :: c' :: rest)) log) as [[e|xs] log2];
      simpl in H; subst log2; reflexivity.
Qed.

(** All or nothing.  When every request is answered, the outcome is the
    combination of the answers in chunk order (for one chunk, the answer
    itself); when some request fails, the outcome is the failure of one
    of the failing chunks, its message behind "Transcription failed: ",
    and no partial result. *)
Theorem chunks_all_or_nothing (chunks : list Blob) (log : list (Request Blob)) :
  chunks <> [] ->
  (forall datas,
     map (fun chunk => server (mkRequest Blob chunk key opts)) chunks = map inr datas ->
     fst (transcribeAudioChunks Blob server chunks key opts log) =
     inr (combineTranscriptionResults datas)) /\
  ((exists c m, In c chunks /\ server (mkRequest Blob c key opts) = inl m) ->
   exists c m, In c chunks /\ server (mkRequest Blob c key opts) = inl m /\
               fst (transcribeAudioChunks Blob server chunks key opts log) =
               inl ("Transcription failed: " ++ m)).
Proof.
  intros Hne. destruct chunks as [|c [|c' rest]]; [congruence| |].
  - split.
    + intros datas H. destruct datas as [|d [|d' ds]]; try discriminate H.
      simpl in H. injection H as H.
      simpl. unfold transcribeAudio. rewrite H. reflexivity.
    + intros (c0 & m0 & [E|[]] & Hm). subst c0.
      exists c, m0. split; [left; reflexivity|]. split; [exact Hm|].
      simpl. unfold transcribeAudio. rewrite Hm. reflexivity.
  - split.
    + intros datas H. unfold transcribeAudioChunks, bind. fold call.
      pose proof (all_ok (c :: c' :: rest) datas H log) as Hok.
      destruct (all Blob (map call (c :: c' :: rest)) log) as [[e|xs] log2];
        simpl in Hok; [discriminate Hok | injection Hok as Hok; subst xs; reflexivity].
    + intros Hfail. unfold transcribeAudioChunks, bind. fold call.
      destruct (all_failed (c :: c' :: rest) Hfail log) as (c1 & m1 & Hin & Hm & Hr).
      exists c1, m1. split; [exact Hin|]. split; [exact Hm|].
      destruct (all Blob (map call (c :: c' :: rest)) log) as [[e|xs] log2];
        simpl in Hr; [injection Hr as Hr; subst e; reflexivity | discriminate Hr].
Qed.
End RequestFacts.

Lemma chunks_all_or_nothing_witness :
  fst (TranscriptionService.transcribeAudioChunks nat TranscriptionService.sample_server
         [1; 2]%nat "key" TranscriptionService.sample_options []) =
    inr (TranscriptionService.combineTranscriptionResults
           [TranscriptionService.chunkA; TranscriptionService.chunkA]) /\
  exists c m,
    fst (TranscriptionService.transcribeAudioChunks nat TranscriptionService.sample_server
           [1; 0; 2]%nat "key" TranscriptionService.sample_options []) =
    inl ("Transcription failed: " ++ m) /\ In c [1; 0; 2]%nat.
Proof.
  split.
  - apply (chunks_all_or_nothing nat TranscriptionService.sample_server "key"
             TranscriptionService.sample_options [1; 2]%nat []);
      [discriminate | reflexivity].
  - destruct (chunks_all_or_nothing nat TranscriptionService.sample_server "key"
                TranscriptionService.sample_options [1; 0; 2]%nat [])
      as [_ H]; [discriminate|].
    destruct H as (c & m & Hin & _ & Hr).
    + exists 0%nat, "API Error: 500 Internal Server Error".
      split; [simpl; auto | reflexivity].
    + exists c, m. split; [exact Hr | exact Hin].
Defined.

(* ================================================================== *)
(** ** More on the Gemini heuristics                                    *)
(* ================================================================== *)

Section GeminiMore.
Import Gemini.

Lemma filter_length_le {A : Type} (f : A -> bool) (l : list A) :
  (List.length (filter f l) <= List.length l)%nat.
Proof.
  induction l as [|x t IH]; simpl; [lia|].
  destruct (f x); simpl; lia.
Qed.

Variable toLowerCase : string -> string.

(** The confidence of the keyword sentiment lies between 0 and 0.9; it is
    0 exactly when the label is neutral.  Neither keyword count exceeds
    the number of words, the pieces of the lower-cased text between its
    runs of white space.  This holds whatever the lower-casing does. *)
Theorem sentiment_confidence_range (text : string) :
  let o := overall (analyzeSentiment toLowerCase text) in
  let T := Z.of_nat (List.length (words_of toLowerCase text)) in
  0 <= confidence o /\ confidence o <= 9 # 10 /\
  (sentiment o = "neutral" <-> confidence o == 0) /\
  (0 <= positive (distribution o) <= T)%Z /\
  (0 <= negative (distribution o) <= T)%Z /\
  JS.pieces_of (toLowerCase text) (words_of toLowerCase text).
Proof.
  cbv zeta. unfold analyzeSentiment. fold (words_of toLowerCase text).
  cbv zeta. cbn [overall sentiment confidence distribution positive negative].
  destruct (count_fold (words_of toLowerCase text) {| positiveCount := 0; negativeCount := 0 |})
    as [Hp Hn].
  cbn [positiveCount negativeCount] in Hp, Hn.
  rewrite Hp, Hn, !Z.add_0_l.
  pose proof (filter_length_le (some_included positiveWords) (words_of toLowerCase text)) as Lp.
  pose proof (filter_length_le (some_included negativeWords) (words_of toLowerCase text)) as Ln.
  assert (HT : (1 <= List.length (words_of toLowerCase text))%nat) by apply split_go_length.
  set (P := Z.of_nat (List.length (filter (some_included positiveWords)
                                          (words_of toLowerCase text)))) in *.
  set (N := Z.of_nat (List.length (filter (some_included negativeWords)
                                          (words_of toLowerCase text)))) in *.
  set (T := Z.of_nat (List.length (words_of toLowerCase text))) in *.
  assert (HT' : 0 < inject_Z T).
  { change (inject_Z 0 < inject_Z T). rewrite <- Zlt_Qlt. lia. }
  assert (Hinv : 0 < / inject_Z T) by (apply Qinv_lt_0_compat; exact HT').
  set (x := inject_Z (Z.abs (P - N)) / inject_Z T * inject_Z 10).
  assert (Hx0 : P = N -> x == 0).
  { intros E. unfold x. rewrite E, Z.sub_diag. simpl.
    unfold Qdiv. rewrite Qmult_0_l, Qmult_0_l. reflexivity. }
  assert (Hxpos : P <> N -> 0 < x).
  { intros E. unfold x, Qdiv.
    apply Qmult_lt_0_compat; [apply Qmult_lt_0_compat; [|exact Hinv] | reflexivity].
    change (inject_Z 0 < inject_Z (Z.abs (P - N))). rewrite <- Zlt_Qlt. lia. }
  assert (Hx : 0 <= x).
  { destruct (Z.eq_dec P N) as [E|E].
    - rewrite (Hx0 E). apply Qle_refl.
    - apply Qlt_le_weak, Hxpos, E. }
  split; [apply Q.min_glb; [discriminate | exact Hx]|].
  split; [apply Q.le_min_l|].
  split; [|split; [lia | split; [lia | apply split_ws_pieces]]].
  split.
  - intros Hs.
    assert (E : P = N).
    { destruct (Z.ltb_spec N P); [discriminate Hs|].
      destruct (Z.ltb_spec P N); [discriminate Hs | lia]. }
    rewrite Q.min_r; [apply Hx0, E|].
    rewrite (Hx0 E). discriminate.
  - intros Hc.
    destruct (Z.eq_dec P N) as [E|E].
    + rewrite E, Z.ltb_irrefl. reflexivity.
    + exfalso.
      assert (L : 0 < Qmin (9 # 10) x) by (apply Q.min_glb_lt; [reflexivity | apply Hxpos, E]).
      rewrite Hc in L. discriminate L.
Qed.

Section TopicConfidence.
Variable random : nat -> Q.

Lemma count_snoc (n name : string) (seen : list string) :
  count_occ string_dec (seen ++ [name]) n =
  (count_occ string_dec seen n + if string_dec name n then 1 else 0)%nat.
Proof.
  rewrite count_occ_app. simpl.
  destruct (string_dec name n); reflexivity.
Qed.

Lemma bump_spec (name : string) (acc : list Topic) :
  NoDup (map topic acc) ->
  forall t, In t (bump name acc) ->
    (In t acc /\ topic t <> name) \/
    (topic t = name /\
     exists t0, In t0 acc /\ topic t0 = name /\
                topic_confidence t = topic_confidence t0 + (1 # 10)).
Proof.
  induction acc as [|a rest IH]; intros Hnd t Ht; simpl in Ht; [contradiction|].
  inversion Hnd as [|? ? Hnotin Hnd']; subst.
  destruct (String.eqb_spec (topic a) name) as [E|E].
  - destruct Ht as [Ht|Ht].
    + subst t. right. simpl. split; [exact E|].
      exists a. split; [left; reflexivity|]. split; [exact E | reflexivity].
    + left. split; [right; exact Ht|].
      intros Et. apply Hnotin. rewrite E, <- Et. apply in_map. exact Ht.
  - destruct Ht as [Ht|Ht].
    + subst t. left. split; [left; reflexivity | exact E].
    + destruct (IH Hnd' t Ht) as [[H1 H2]|[H1 (t0 & H2 & H3 & H4)]].
      * left. split; [right; exact H1 | exact H2].
      * right. split; [exact H1|]. exists t0. split; [right; exact H2|]. auto.
Qed.

Lemma reduce_step_inv (seen : list string) (st : list Topic * nat) (name : string) :
  reduced_inv random seen st ->
  reduced_inv random (seen ++ [name]) (reduce_step random st name).
Proof.
  destruct st as [acc draws]. intros (Hnd & Hin & Hconf). cbn [fst snd] in *.
  unfold reduce_step. destruct (found name acc) eqn:F.
  - apply found_iff in F.
    split; [|split]; cbn [fst snd].
    + rewrite bump_names. exact Hnd.
    + intros n. rewrite bump_names, in_app_iff, Hin. simpl.
      split; [auto|]. intros [H|[H|[]]]; [exact H|]. subst n. apply Hin. exact F.
    + intros t Ht. rewrite count_snoc.
      destruct (bump_spec name acc Hnd t Ht) as [[H1 H2]|[H1 (t0 & H2 & H3 & H4)]].
      * destruct (Hconf t H1) as (k & Hk & Hc). exists k. split; [exact Hk|].
        destruct (string_dec name (topic t)); [congruence|].
        rewrite Nat.add_0_r. exact Hc.
      * destruct (Hconf t0 H2) as (k & Hk & Hc). exists k. split; [exact Hk|].
        rewrite H4, Hc, H3, H1.
        destruct (string_dec name name); [|congruence].
        replace (Z.of_nat (count_occ string_dec seen name + 1) - 1)%Z
          with ((Z.of_nat (count_occ string_dec seen name) - 1) + 1)%Z by lia.
        rewrite inject_Z_plus. simpl (inject_Z 1). ring.
  - assert (Hfresh : ~ In name seen).
    { intros H. apply Hin in H. apply found_iff in H. congruence. }
    split; [|split]; cbn [fst snd].
    + rewrite map_app. simpl. apply NoDup_app; [exact Hnd | |].
      * constructor; [intros []|constructor].
      * intros a Ha [Hb|[]]. subst a. apply Hfresh, Hin, Ha.
    + intros n. rewrite map_app, !in_app_iff, Hin. simpl. reflexivity.
    + intros t Ht. rewrite count_snoc. apply in_app_or in Ht.
      destruct Ht as [Ht|[Ht|[]]].
      * destruct (Hconf t Ht) as (k & Hk & Hc). exists k. split; [lia|].
        destruct (string_dec name (topic t)) as [E|E].
        -- exfalso. apply Hfresh, Hin. rewrite E. apply in_map. exact Ht.
        -- rewrite Nat.add_0_r. exact Hc.
      * subst t. cbn [topic topic_confidence]. exists draws. split; [lia|].
        destruct (string_dec name name); [|congruence].
        assert (Z : count_occ string_dec seen name = 0%nat).
        { apply count_occ_not_In. exact Hfresh. }
        rewrite Z. simpl. unfold base_confidence. ring.
Qed.

Lemma reduce_inv (names : list string) :
  forall seen st,
    reduced_inv random seen st ->
    reduced_inv random (seen ++ names) (fold_left (reduce_step random) names st).
Proof.
  induction names as [|name rest IH]; intros seen st H; simpl.
  - rewrite app_nil_r. exact H.
  - replace (seen ++ name :: rest)%list with ((seen ++ [name]) ++ rest)%list
      by (rewrite <- app_assoc; reflexivity).
    apply IH. apply reduce_step_inv. exact H.
Qed.

Lemma by_confidence_asym (a b : Topic) :
  by_confidence a b = true -> by_confidence b a = false.
Proof.
  unfold by_confidence. intros H.
  apply negb_true_iff in H. apply negb_false_iff. apply Qle_bool_iff.
  destruct (Qlt_le_dec (topic_confidence a) (topic_confidence b)) as [L|L].
  - apply Qlt_le_weak. exact L.
  - apply Qle_bool_iff in L. congruence.
Qed.

Lemma Sorted_firstn {A : Type} (R : A -> A -> Prop) (n : nat) (l : list A) :
  Sorted R l -> Sorted R (firstn n l).
Proof.
  intros H. revert n. induction H as [|a t Ht IH Hhd]; intros n.
  - rewrite firstn_nil. constructor.
  - destruct n as [|n]; simpl; constructor; [apply IH|].
    destruct Hhd as [|b t' Hab]; [rewrite firstn_nil; constructor|].
    destruct n; simpl; constructor. exact Hab.
Qed.

(** The topics come most confident first, and the confidence of a topic
    is its starting value [0.6 + r * 0.3], for one of the random samples
    [r], plus 0.1 for every further occurrence of the phrase in the
    text: it is not capped. *)
Theorem topics_ranked_by_occurrences (text : string) :
  let ts := extractTopics random text in
  Sorted less_confident ts /\
  forall t, In t ts ->
    (1 <= occurrences (topic t) (kept_matches text))%nat /\
    exists k,
      topic_confidence t ==
      (6 # 10) + random k * (3 # 10)
      + inject_Z (Z.of_nat (occurrences (topic t) (kept_matches text)) - 1) * (1 # 10).
Proof.
  cbv zeta. unfold extractTopics. fold (kept_matches text).
  set (reduced := fst (fold_left (reduce_step random) (kept_matches text) ([], 0%nat))).
  split.
  - apply Sorted_firstn.
    assert (S : Sorted (fun a b => by_confidence a b = false)
                       (JS.sort by_confidence reduced))
      by (apply sort_sorted, by_confidence_asym).
    revert S. generalize (JS.sort by_confidence reduced). intros l.
    induction 1 as [|a t Ht IH Hhd]; constructor; [exact IH|].
    destruct Hhd as [|b t' Hab]; constructor.
    unfold by_confidence in Hab. apply negb_false_iff in Hab.
    apply Qle_bool_iff. exact Hab.
  - intros t Ht.
    assert (Hr : In t reduced).
    { apply (Permutation_in _ (sort_perm by_confidence reduced)).
      rewrite <- (firstn_skipn 10 (JS.sort by_confidence reduced)).
      apply in_or_app. left. exact Ht. }
    assert (I : reduced_inv random ([] ++ kept_matches text)
                  (fold_left (reduce_step random) (kept_matches text) ([], 0%nat))).
    { apply reduce_inv. split; [constructor|]. split; [reflexivity|].
      intros ? []. }
    simpl in I. destruct I as (_ & Hin & Hconf). fold reduced in Hin, Hconf.
    split.
    + unfold occurrences. apply count_occ_In. apply Hin. apply in_map. exact Hr.
    + destruct (Hconf t Hr) as (k & _ & Hc). exists k. exact Hc.
Qed.
End TopicConfidence.

(** Every topic is a match of the pattern in the text that the filter
    kept, and it is a phrase: capitalised words, a capital and one or
    more lower-case letters each, with a non-empty run of white-space
    characters between each two. *)
Theorem topics_are_capitalised_phrases (random : nat -> Q) (text : string) (t : Topic) :
  In t (extractTopics random text) ->
  In (topic t) (kept_matches text) /\ phrase_string (topic t).
Proof.
  intros Ht. unfold extractTopics in Ht. fold (kept_matches text) in Ht.
  set (reduced := fst (fold_left (reduce_step random) (kept_matches text) ([], 0%nat))) in *.
  assert (Hr : In t reduced).
  { apply (Permutation_in _ (sort_perm (by_confidence) reduced)).
    rewrite <- (firstn_skipn 10 (JS.sort by_confidence reduced)).
    apply in_or_app. left. exact Ht. }
  destruct (reduce_names random (kept_matches text) ([], 0%nat)) as [_ Hin];
    [constructor|].
  assert (Hk : In (topic t) (kept_matches text)).
  { destruct (Hin (topic t)) as [[]|H]; [apply in_map; exact Hr | exact H]. }
  split; [exact Hk|].
  unfold kept_matches in Hk. apply filter_In in Hk. destruct Hk as [Hm _].
  apply (matches_phrases text (topic t) Hm).
Qed.

End GeminiMore.

Lemma sentiment_confidence_range_witness :
  (0 <= Gemini.positive
          (Gemini.distribution
             (Gemini.overall (Gemini.analyzeSentiment JS.lower_latin1 Gemini.sample_text)))
   <= 3)%Z /\
  Gemini.confidence
    (Gemini.overall (Gemini.analyzeSentiment JS.lower_latin1 Gemini.sample_text))
  <= 9 # 10.
Proof.
  destruct (sentiment_confidence_range JS.lower_latin1 Gemini.sample_text)
    as (_ & Hc & _ & Hp & _).
  split; [exact Hp | exact Hc].
Defined.

Lemma topics_ranked_by_occurrences_witness :
  Gemini.occurrences Gemini.new_york (Gemini.kept_matches Gemini.sample_cities) = 2%nat /\
  exists k,
    (6 # 10) + (1 # 2) * (3 # 10) + (1 # 10)
    == (6 # 10) + (fun _ : nat => 1 # 2) k * (3 # 10)
       + inject_Z (Z.of_nat (Gemini.occurrences Gemini.new_york
                               (Gemini.kept_matches Gemini.sample_cities)) - 1)
         * (1 # 10).
Proof.
  split; [reflexivity|].
  destruct (topics_ranked_by_occurrences (fun _ => 1 # 2) Gemini.sample_cities)
    as [_ H].
  destruct (H {| Gemini.topic := Gemini.new_york;
                 Gemini.topic_confidence := (6 # 10) + (1 # 2) * (3 # 10) + (1 # 10) |})
    as [_ [k Hk]].
  - vm_compute. left. reflexivity.
  - exists k. exact Hk.
Defined.

Lemma topics_are_capitalised_phrases_witness :
  Gemini.phrase_string Gemini.new_york.
Proof.
  apply (topics_are_capitalised_phrases (fun _ => 1 # 2) Gemini.sample_cities
           {| Gemini.topic := Gemini.new_york;
              Gemini.topic_confidence := (6 # 10) + (1 # 2) * (3 # 10) + (1 # 10) |}).
  vm_compute. left. reflexivity.
Defined.

(* ================================================================== *)
(** ** More on the Deepgram normaliser                                  *)
(* ================================================================== *)

Section DeepgramMore.
Import Deepgram.

(** [processDeepgramResponse] throws exactly when the first channel has
    no [alternatives] field; in every other case it returns, and the
    result carries the response it was given as [raw]. *)
Theorem throws_exactly_without_alternatives (response : Response) :
  ((exists message, processDeepgramResponse response = inl (TypeError message)) <->
   alternatives_absent response) /\
  (forall r, processDeepgramResponse response = inr r -> raw r = response).
Proof.
  unfold processDeepgramResponse, alternatives_absent.
  destruct (results response) as [res|] eqn:R.
  2:{ split.
      - split; [intros [m H]; discriminate H|].
        intros (res & ch & rest & H & _). discriminate H.
      - intros r H. injection H as H. subst r. reflexivity. }
  destruct (channels res) as [[|ch rest]|] eqn:C.
  1,3: split;
       [split; [intros [m H]; discriminate H|];
        intros (res' & ch' & rest' & H1 & H2 & _);
        injection H1 as H1; subst res'; rewrite C in H2; discriminate H2
       |intros r H; injection H as H; subst r; reflexivity].
  destruct (alternatives ch) as [[|alt alts]|] eqn:A.
  - split.
    + split; [intros [m H]; discriminate H|].
      intros (res' & ch' & rest' & H1 & H2 & H3).
      injection H1 as H1. subst res'. rewrite C in H2. injection H2 as H2 H2'.
      subst ch'. rewrite A in H3. discriminate H3.
    + intros r H. injection H as H. subst r. reflexivity.
  - split.
    + split.
      * intros [m H]. destruct (match words alt with Some _ => _ | None => _ end).
        discriminate H.
      * intros (res' & ch' & rest' & H1 & H2 & H3).
        injection H1 as H1. subst res'. rewrite C in H2. injection H2 as H2 H2'.
        subst ch'. rewrite A in H3. discriminate H3.
    + intros r H. destruct (match words alt with Some _ => _ | None => _ end).
      injection H as H. subst r. reflexivity.
  - split.
    + split.
      * intros _. exists res, ch, rest. auto.
      * intros _. eexists. reflexivity.
    + intros r H. discriminate H.
Qed.

Lemma process_first_alternative (response : Response) (alt : Alternative) :
  first_alternative response = Some alt ->
  exists r,
    processDeepgramResponse response = inr r /\
    out_speakers r = JS.sort JS.default_after (observed (words_of alt)) /\
    out_segments r = fst (map_words 0 [] (words_of alt)).
Proof.
  unfold first_alternative, processDeepgramResponse, words_of.
  destruct (results response) as [res|]; [|discriminate].
  destruct (channels res) as [[|ch rest]|]; try discriminate.
  destruct (alternatives ch) as [[|a alts]|]; try discriminate.
  intros E. injection E as E. subst a.
  destruct (words alt) as [ws|].
  - pose proof (map_words_speakers ws 0 []) as H.
    destruct (map_words 0 [] ws) as [segs sp]. cbn [snd] in H.
    eexists. split; [reflexivity|]. cbn [out_speakers out_segments fst].
    rewrite H. split; reflexivity.
  - eexists. split; [reflexivity|]. split; reflexivity.
Qed.

(** Whenever the response has a first alternative, every speaker of its
    words is listed exactly once, in the order of the decimal spellings
    of the identifiers; that order is the numeric one as long as every
    identifier is below 10. *)
Theorem speakers_listed_once (response : Response) (alt : Alternative) :
  first_alternative response = Some alt ->
  exists r,
    processDeepgramResponse response = inr r /\
    NoDup (out_speakers r) /\
    (forall x, In x (out_speakers r) <-> In (Some x) (map w_speaker (words_of alt))) /\
    Sorted spelled_le (out_speakers r) /\
    ((forall x, In (Some x) (map w_speaker (words_of alt)) -> (x < 10)%N) ->
     Sorted N.le (out_speakers r)).
Proof.
  intros Hfirst.
  destruct (process_first_alternative response alt Hfirst) as (r & Hr & Hs & _).
  exists r. split; [exact Hr|]. rewrite Hs.
  destruct (note_fold (words_of alt) [] (NoDup_nil N)) as [Hnd Hin].
  fold (observed (words_of alt)) in Hnd, Hin.
  set (sorted := JS.sort JS.default_after (observed (words_of alt))).
  assert (P : Permutation sorted (observed (words_of alt))) by apply sort_perm.
  assert (Hmem : forall x, In x sorted <-> In (Some x) (map w_speaker (words_of alt))).
  { intros x. split.
    - intros H. apply (Permutation_in _ P) in H. apply Hin in H.
      destruct H as [[]|H]. exact H.
    - intros H. apply (Permutation_in _ (Permutation_sym P)). apply Hin. auto. }
  assert (Hsorted : Sorted spelled_le sorted)
    by apply (sort_sorted JS.default_after default_after_asym).
  split; [apply (Permutation_NoDup (Permutation_sym P)); exact Hnd|].
  split; [exact Hmem|]. split; [exact Hsorted|].
  intros Hsmall.
  assert (Hb : forall x, In x sorted -> (x < 10)%N).
  { intros x Hx. apply Hsmall, Hmem, Hx. }
  clear Hmem P. revert Hb. induction Hsorted as [|a l Hl IH Hhd]; intros Hb; constructor.
  - apply IH. intros x Hx. apply Hb. right. exact Hx.
  - destruct Hhd as [|b l' Hab]; constructor.
    apply spelled_le_below_10; [apply Hb; left; reflexivity
                               |apply Hb; right; left; reflexivity
                               |exact Hab].
Qed.

Lemma speakers_listed_once_witness :
  exists r,
    processDeepgramResponse sample_response = inr r /\
    NoDup (out_speakers r) /\ Sorted N.le (out_speakers r).
Proof.
  destruct (speakers_listed_once sample_response sample_alternative eq_refl)
    as (r & Hr & Hnd & Hin & _ & Hnum).
  exists r. split; [exact Hr|]. split; [exact Hnd|].
  apply Hnum. simpl. intros x [E|[E|[]]]; injection E as E; subst x; reflexivity.
Defined.

Lemma map_words_nth (ws : list Word) :
  forall index seen i w,
    nth_error ws i = Some w ->
    nth_error (fst (map_words index seen ws)) i = Some (word_segment (index + i) w).
Proof.
  induction ws as [|w0 rest IH]; intros index seen i w H.
  - destruct i; discriminate H.
  - cbn [map_words].
    specialize (IH (S index)
                   (match w_speaker w0 with
                    | Some sp => JS.set_add sp seen
                    | None => seen
                    end)).
    destruct (map_words (S index) _ rest) as [segs final]. cbn [fst] in *.
    destruct i as [|i]; simpl in *.
    + injection H as H. subst w0. rewrite Nat.add_0_r. reflexivity.
    + rewrite (IH i w H). f_equal. f_equal. lia.
Qed.

Lemma map_words_length (ws : list Word) :
  forall index seen, List.length (fst (map_words index seen ws)) = List.length ws.
Proof.
  induction ws as [|w0 rest IH]; intros index seen; cbn [map_words]; [reflexivity|].
  specialize (IH (S index)
                 (match w_speaker w0 with
                  | Some sp => JS.set_add sp seen
                  | None => seen
                  end)).
  destruct (map_words (S index) _ rest) as [segs final]. simpl in *. lia.
Qed.

(** There is one segment per word, in word order: the [i]-th word gives
    the [i]-th segment, its identifier is [i], its text is the
    punctuated form when the word has a non-empty one and the raw word
    otherwise, and times, speaker and confidence are the word's. *)
Theorem one_segment_per_word (response : Response) (alt : Alternative) :
  first_alternative response = Some alt ->
  exists r,
    processDeepgramResponse response = inr r /\
    List.length (out_segments r) = List.length (words_of alt) /\
    (forall i w, nth_error (words_of alt) i = Some w ->
       exists seg,
         nth_error (out_segments r) i = Some seg /\
         id seg = i /\
         text seg = match punctuated_word w with
                    | Some p => if String.eqb p "" then word w else p
                    | None => word w
                    end /\
         start seg = w_start w /\ end_ seg = w_end w /\
         speaker seg = w_speaker w /\ seg_confidence seg = w_confidence w).
Proof.
  intros Hfirst.
  destruct (process_first_alternative response alt Hfirst) as (r & Hr & _ & Hs).
  exists r. split; [exact Hr|]. rewrite Hs.
  split; [apply map_words_length|].
  intros i w Hw. exists (word_segment i w).
  split; [apply (map_words_nth (words_of alt) 0 [] i w Hw)|].
  unfold word_segment, truthy. cbn [id text start end_ speaker seg_confidence].
  repeat split.
  destruct (punctuated_word w) as [p|]; [|reflexivity].
  destruct (String.eqb p ""); reflexivity.
Qed.

Lemma one_segment_per_word_witness :
  exists r,
    processDeepgramResponse sample_response = inr r /\
    map text (out_segments r) = ["Hi"; "there"].
Proof.
  destruct (one_segment_per_word sample_response sample_alternative eq_refl)
    as (r & Hr & _ & _).
  exists r. split; [exact Hr|].
  revert Hr. unfold sample_response, sample_alternative. cbn.
  intros Hr. injection Hr as Hr. subst r. reflexivity.
Defined.

(** *** The overall confidence *)

Lemma tally_total (segs : list SentimentSegment) :
  forall c q,
    snd (fold_left tally segs (c, q)) == q + Qsum (recognised_scores segs).
Proof.
  induction segs as [|seg rest IH]; intros c q.
  - simpl. ring.
  - cbn [fold_left]. unfold recognised_scores. cbn [filter].
    unfold tally at 2. unfold recognised at 1.
    destruct (truthy (s_sentiment seg)) as [key|].
    + destruct (hasOwnProperty key).
      * rewrite IH. unfold recognised_scores. simpl. ring.
      * rewrite IH. reflexivity.
    + rewrite IH. reflexivity.
Qed.

Lemma recognised_bits (seg : SentimentSegment) :
  (bit (labelled "positive" seg) + bit (labelled "negative" seg)
   + bit (labelled "neutral" seg))%nat = bit (recognised seg).
Proof.
  unfold labelled, recognised, hasOwnProperty.
  destruct (truthy (s_sentiment seg)) as [key|]; [|reflexivity].
  destruct (String.eqb_spec key "positive") as [E|E1]; [subst key; reflexivity|].
  destruct (String.eqb_spec key "negative") as [E|E2]; [subst key; reflexivity|].
  destruct (String.eqb_spec key "neutral") as [E|E3]; [subst key; reflexivity|].
  reflexivity.
Qed.

Lemma class_counts_total (segs : list SentimentSegment) :
  (class_count "positive" segs + class_count "negative" segs
   + class_count "neutral" segs)%nat = List.length (filter recognised segs).
Proof.
  unfold class_count. induction segs as [|seg rest IH]; [reflexivity|].
  cbn [filter]. pose proof (recognised_bits seg) as B.
  destruct (labelled "positive" seg), (labelled "negative" seg),
    (labelled "neutral" seg), (recognised seg);
    cbn [bit List.length] in *; lia.
Qed.

(** The overall confidence is the sum of the scores of the segments
    whose label is one of the three classes, divided by the number of
    all segments: a segment with another label, or with none, adds
    nothing to the sum and still counts in the divisor.  The three counts
    of the distribution add up to the number of labelled segments. *)
Theorem overall_confidence_over_all_segments (segs : list SentimentSegment) :
  segs <> [] ->
  exists o,
    calculateOverallSentiment segs = Some o /\
    confidence o ==
      Qsum (recognised_scores segs) / inject_Z (Z.of_nat (List.length segs)) /\
    (positive (distribution o) + negative (distribution o)
     + neutral (distribution o))%nat = List.length (filter recognised segs) /\
    (List.length (filter recognised segs) <= List.length segs)%nat.
Proof.
  intros Hne. destruct segs as [|seg rest]; [congruence|].
  unfold calculateOverallSentiment.
  set (segs := seg :: rest).
  destruct (tally_fold segs {| positive := 0; negative := 0; neutral := 0 |} 0%Q)
    as (Hp & Hn & Hu).
  pose proof (tally_total segs {| positive := 0; negative := 0; neutral := 0 |} 0%Q) as Ht.
  destruct (fold_left tally segs ({| positive := 0; negative := 0; neutral := 0 |}, 0%Q))
    as [c q].
  cbn [fst snd positive negative neutral Nat.add] in Hp, Hn, Hu, Ht.
  eexists. split; [reflexivity|].
  cbn [confidence distribution]. split; [|split].
  - rewrite Ht. rewrite Qplus_0_l. reflexivity.
  - rewrite Hp, Hn, Hu. apply class_counts_total.
  - clear. induction segs as [|x t IH]; simpl; [lia|].
    destruct (recognised x); simpl; lia.
Qed.

Lemma overall_confidence_over_all_segments_witness :
  exists o,
    calculateOverallSentiment
      [segment_labelled "positive"; segment_labelled "mixed"] = Some o /\
    confidence o == 1 # 4.
Proof.
  destruct (overall_confidence_over_all_segments
              [segment_labelled "positive"; segment_labelled "mixed"])
    as (o & Ho & Hc & _); [discriminate|].
  exists o. split; [exact Ho|]. rewrite Hc. reflexivity.
Defined.

(** When no segment carries one of the three labels, the overall
    sentiment is "neutral" with confidence 0 and an all-zero
    distribution. *)
Theorem unlabelled_segments_are_neutral (segs : list SentimentSegment) :
  segs <> [] ->
  (forall seg, In seg segs -> recognised seg = false) ->
  exists o,
    calculateOverallSentiment segs = Some o /\
    sentiment o = "neutral" /\
    confidence o == 0 /\
    distribution o = {| positive := 0; negative := 0; neutral := 0 |}.
Proof.
  intros Hne Hnone.
  assert (F : filter recognised segs = []).
  { clear Hne. induction segs as [|x t IH]; [reflexivity|]. simpl.
    rewrite (Hnone x (or_introl eq_refl)). apply IH.
    intros seg Hs. apply Hnone. right. exact Hs. }
  pose proof (class_counts_total segs) as Tot. rewrite F in Tot. simpl in Tot.
  destruct segs as [|seg rest]; [congruence|].
  unfold calculateOverallSentiment.
  set (segs := seg :: rest) in *.
  destruct (tally_fold segs {| positive := 0; negative := 0; neutral := 0 |} 0%Q)
    as (Hp & Hn & Hu).
  pose proof (tally_total segs {| positive := 0; negative := 0; neutral := 0 |} 0%Q) as Ht.
  destruct (fold_left tally segs ({| positive := 0; negative := 0; neutral := 0 |}, 0%Q))
    as [c q].
  cbn [fst snd positive negative neutral Nat.add] in Hp, Hn, Hu, Ht.
  assert (Ec : c = {| positive := 0; negative := 0; neutral := 0 |}).
  { destruct c as [p n u]. cbn [positive negative neutral] in *. f_equal; lia. }
  subst c. eexists. split; [reflexivity|].
  cbn [sentiment confidence distribution]. split; [reflexivity|]. split; [|reflexivity].
  rewrite Ht. unfold recognised_scores. rewrite F. simpl.
  unfold Qdiv. rewrite Qplus_0_l, Qmult_0_l. reflexivity.
Qed.

Lemma unlabelled_segments_are_neutral_witness :
  exists o,
    calculateOverallSentiment [segment_labelled "mixed"; segment_labelled ""] = Some o /\
    sentiment o = "neutral".
Proof.
  destruct (unlabelled_segments_are_neutral
              [segment_labelled "mixed"; segment_labelled ""])
    as (o & Ho & Hs & _); [discriminate | |].
  - intros seg [E|[E|[]]]; subst seg; reflexivity.
  - exists o. split; [exact Ho | exact Hs].
Defined.
End DeepgramMore.

(* ================================================================== *)
(** ** More on the options panel                                        *)
(* ================================================================== *)

Section OptionsMore.
Import OptionsPanel.

(** Changing the provider twice is changing it to the second one, for a
    second provider among the three known ones.  A provider outside the
    three replaces the provider alone and leaves the model as it was. *)
Theorem provider_change_last_wins (options : TranscriptionOptions) (p q : string) :
  (In q providers ->
   handleProviderChange (handleProviderChange options p) q =
   handleProviderChange options q) /\
  (~ In p providers ->
   handleProviderChange options p = with_provider options p /\
   model (handleProviderChange options p) = model options).
Proof.
  split.
  - intros [E|[E|[E|[]]]]; subst q; unfold handleProviderChange;
      cbn [String.eqb Ascii.eqb Bool.eqb andb];
      destruct (String.eqb p "openai"), (String.eqb p "gemini"),
        (String.eqb p "deepgram"); reflexivity.
  - intros Hp. unfold handleProviderChange.
    destruct (String.eqb_spec p "openai") as [E|_];
      [exfalso; apply Hp; subst p; simpl; auto|].
    destruct (String.eqb_spec p "gemini") as [E|_];
      [exfalso; apply Hp; subst p; simpl; auto|].
    destruct (String.eqb_spec p "deepgram") as [E|_];
      [exfalso; apply Hp; subst p; simpl; auto|].
    split; reflexivity.
Qed.

Lemma provider_change_last_wins_witness :
  handleProviderChange (handleProviderChange sample_options "azure") "deepgram" =
  handleProviderChange sample_options "deepgram" /\
  model (handleProviderChange sample_options "azure") = "whisper-1".
Proof.
  destruct (provider_change_last_wins sample_options "azure" "deepgram") as [H1 H2].
  split.
  - apply H1. simpl. auto.
  - destruct H2 as [_ H2].
    + simpl. intros [E|[E|[E|[]]]]; discriminate E.
    + rewrite H2. reflexivity.
Defined.

Lemma with_customTopics_same (options : TranscriptionOptions) :
  with_customTopics options (customTopics options) = options.
Proof. destruct options. reflexivity. Qed.

Lemma arr_includes_iff (arr : list string) (x : string) :
  JS.arr_includes arr x = true <-> In x arr.
Proof.
  unfold JS.arr_includes. rewrite existsb_exists. split.
  - intros [y [Hy E]]. apply String.eqb_eq in E. subst y. exact Hy.
  - intros H. exists x. split; [exact H | apply String.eqb_refl].
Qed.

Lemma filter_other (topic : string) (l : list string) :
  ~ In topic l -> filter (fun t => negb (String.eqb t topic)) l = l.
Proof.
  induction l as [|x t IH]; intros H; simpl; [reflexivity|].
  destruct (String.eqb_spec x topic) as [E|E].
  - exfalso. apply H. left. exact E.
  - simpl. rewrite IH; [reflexivity|]. intros Hin. apply H. right. exact Hin.
Qed.

Lemma addCustomTopic_fresh (p : Panel) :
  JS.trim (newTopic p) <> "" ->
  ~ In (JS.trim (newTopic p)) (customTopics (panel_options p)) ->
  addCustomTopic p =
  {| panel_options :=
       with_customTopics (panel_options p)
         (customTopics (panel_options p) ++ [JS.trim (newTopic p)]);
     newTopic := "" |}.
Proof.
  intros Hne Hnot. unfold addCustomTopic. cbv zeta.
  apply String.eqb_neq in Hne. rewrite Hne. cbn [negb andb].
  destruct (JS.arr_includes (customTopics (panel_options p)) (JS.trim (newTopic p)))
    eqn:I; [|reflexivity].
  apply arr_includes_iff in I. contradiction.
Qed.

(** Adding a topic never adds a blank one and never a duplicate: a blank
    input or a topic already in the list leaves the panel as it is;
    otherwise the trimmed topic goes to the end of the list, the input
    field is cleared and nothing else changes.  A list without
    duplicates stays so. *)
Theorem addCustomTopic_adds_once (p : Panel) :
  let t := JS.trim (newTopic p) in
  let old := customTopics (panel_options p) in
  (t = "" \/ In t old -> addCustomTopic p = p) /\
  (t <> "" -> ~ In t old ->
   addCustomTopic p =
   {| panel_options := with_customTopics (panel_options p) (old ++ [t]);
      newTopic := "" |}) /\
  (NoDup old -> NoDup (customTopics (panel_options (addCustomTopic p)))) /\
  (~ In "" old -> ~ In "" (customTopics (panel_options (addCustomTopic p)))).
Proof.
  cbv zeta. unfold addCustomTopic. cbv zeta.
  set (t := JS.trim (newTopic p)). set (old := customTopics (panel_options p)).
  destruct (String.eqb_spec t "") as [E|E]; cbn [negb andb].
  - split; [reflexivity|]. split; [congruence|]. split; auto.
  - destruct (JS.arr_includes old t) eqn:I; cbn [negb].
    + apply arr_includes_iff in I.
      split; [reflexivity|]. split; [contradiction|]. split; auto.
    + assert (Hnot : ~ In t old).
      { intros H. apply arr_includes_iff in H. congruence. }
      split; [intros [H|H]; contradiction|]. split; [reflexivity|].
      cbn [panel_options customTopics with_customTopics]. split.
      * intros Hnd. apply NoDup_app; [exact Hnd | constructor; [intros []|constructor] |].
        intros a Ha [Hb|[]]. subst a. contradiction.
      * intros H Hin. apply in_app_or in Hin. destruct Hin as [Hin|[Hin|[]]];
          [contradiction | congruence].
Qed.

Lemma addCustomTopic_adds_once_witness :
  addCustomTopic {| panel_options := sample_options; newTopic := "  budget " |} =
  {| panel_options := sample_options; newTopic := "  budget " |} /\
  addCustomTopic {| panel_options := sample_options; newTopic := JS.nbsp |} =
  {| panel_options := sample_options; newTopic := JS.nbsp |} /\
  customTopics (panel_options
    (addCustomTopic {| panel_options := sample_options;
                       newTopic := " revenue" ++ JS.nbsp |})) =
  ["budget"; "revenue"].
Proof.
  split; [|split].
  - apply (addCustomTopic_adds_once
             {| panel_options := sample_options; newTopic := "  budget " |}).
    right. simpl. auto.
  - apply (addCustomTopic_adds_once
             {| panel_options := sample_options; newTopic := JS.nbsp |}).
    left. reflexivity.
  - destruct (addCustomTopic_adds_once
                {| panel_options := sample_options;
                   newTopic := " revenue" ++ JS.nbsp |})
      as (_ & H & _).
    rewrite H; [reflexivity | discriminate |].
    simpl. intros [E|[]]. discriminate E.
Defined.

(** Removing a topic that was just added gives back the options as they
    were; in general removal takes out every occurrence of the topic,
    keeps every other topic as many times as it was there, and removing
    twice is removing once. *)
Theorem removeCustomTopic_undoes_add (p : Panel) :
  let t := JS.trim (newTopic p) in
  (t <> "" -> ~ In t (customTopics (panel_options p)) ->
   removeCustomTopic (panel_options (addCustomTopic p)) t = panel_options p) /\
  (forall options topic,
     ~ In topic (customTopics (removeCustomTopic options topic)) /\
     (forall other, other <> topic ->
        filter (String.eqb other) (customTopics (removeCustomTopic options topic)) =
        filter (String.eqb other) (customTopics options)) /\
     removeCustomTopic (removeCustomTopic options topic) topic =
     removeCustomTopic options topic).
Proof.
  cbv zeta. split.
  - intros Hne Hnot.
    rewrite (addCustomTopic_fresh p Hne Hnot). unfold removeCustomTopic.
    cbn [panel_options customTopics with_customTopics].
    rewrite filter_app, (filter_other _ _ Hnot). simpl.
    rewrite String.eqb_refl. simpl. rewrite app_nil_r.
    destruct (panel_options p). reflexivity.
  - intros options topic. unfold removeCustomTopic.
    cbn [customTopics with_customTopics]. split; [|split].
    + intros H. apply filter_In in H. destruct H as [_ H].
      rewrite String.eqb_refl in H. discriminate H.
    + intros other Hother. induction (customTopics options) as [|x l IH]; [reflexivity|].
      simpl. destruct (String.eqb_spec x topic) as [E|E]; simpl.
      * subst x. destruct (String.eqb_spec other topic); [contradiction | exact IH].
      * rewrite IH. reflexivity.
    + unfold with_customTopics. simpl. f_equal.
      generalize (customTopics options). intros l.
      induction l as [|x l IH]; [reflexivity|].
      simpl. destruct (String.eqb x topic) eqn:E; simpl; [exact IH|].
      rewrite E. simpl. rewrite IH. reflexivity.
Qed.

Lemma removeCustomTopic_undoes_add_witness :
  removeCustomTopic
    (panel_options
       (addCustomTopic {| panel_options := sample_options;
                          newTopic := " revenue" ++ JS.nbsp |}))
    "revenue" = sample_options.
Proof.
  apply (removeCustomTopic_undoes_add
           {| panel_options := sample_options; newTopic := " revenue" ++ JS.nbsp |}).
  - discriminate.
  - simpl. intros [E|[]]. discriminate E.
Defined.

(** *** Preset topics *)

Lemma str_set_add_in (s : list string) (x y : string) :
  In y (JS.str_set_add s x) <-> In y s \/ y = x.
Proof.
  unfold JS.str_set_add. destruct (existsb (String.eqb x) s) eqn:E.
  - split; [auto|]. intros [H|H]; [exact H|]. subst y.
    apply existsb_exists in E. destruct E as [z [Hz Ez]].
    apply String.eqb_eq in Ez. subst z. exact Hz.
  - rewrite in_app_iff. simpl. intuition.
Qed.

Lemma str_set_add_nodup (s : list string) (x : string) :
  NoDup s -> NoDup (JS.str_set_add s x).
Proof.
  intros Hs. unfold JS.str_set_add. destruct (existsb (String.eqb x) s) eqn:E; [exact Hs|].
  apply NoDup_app; [exact Hs | constructor; [intros [] | constructor] |].
  intros a Ha [Hx|[]]. subst a.
  assert (existsb (String.eqb x) s = true); [|congruence].
  apply existsb_exists. exists x. split; [exact Ha | apply String.eqb_refl].
Qed.

Lemma str_set_fold (l : list string) :
  forall acc,
    NoDup acc ->
    NoDup (fold_left JS.str_set_add l acc) /\
    (forall x, In x (fold_left JS.str_set_add l acc) <-> In x acc \/ In x l) /\
    (exists added, fold_left JS.str_set_add l acc = (acc ++ added)%list).
Proof.
  induction l as [|y rest IH]; intros acc Hnd; simpl.
  - split; [exact Hnd|]. split; [intuition|]. exists []. rewrite app_nil_r. reflexivity.
  - destruct (IH _ (str_set_add_nodup acc y Hnd)) as (H1 & H2 & added & H3).
    split; [exact H1|]. split.
    + intros x. rewrite H2, str_set_add_in. intuition.
    + rewrite H3. unfold JS.str_set_add.
      destruct (existsb (String.eqb y) acc).
      * exists added. reflexivity.
      * exists ([y] ++ added)%list. rewrite <- app_assoc. reflexivity.
Qed.

Lemma str_set_absorb (l : list string) :
  forall acc, (forall x, In x l -> In x acc) -> fold_left JS.str_set_add l acc = acc.
Proof.
  induction l as [|y rest IH]; intros acc H; simpl; [reflexivity|].
  assert (E : JS.str_set_add acc y = acc).
  { unfold JS.str_set_add.
    assert (existsb (String.eqb y) acc = true) as ->; [|reflexivity].
    apply existsb_exists. exists y. split; [apply H; left; reflexivity
                                           |apply String.eqb_refl]. }
  rewrite E. apply IH. intros x Hx. apply H. right. exact Hx.
Qed.

Lemma str_set_fresh (l : list string) :
  forall acc, NoDup (acc ++ l) -> fold_left JS.str_set_add l acc = (acc ++ l)%list.
Proof.
  induction l as [|y rest IH]; intros acc H; simpl.
  - rewrite app_nil_r. reflexivity.
  - assert (Hy : ~ In y acc).
    { intros Hin. apply NoDup_remove_2 in H. apply H.
      apply in_or_app. left. exact Hin. }
    assert (E : JS.str_set_add acc y = (acc ++ [y])%list).
    { unfold JS.str_set_add. destruct (existsb (String.eqb y) acc) eqn:Ex; [|reflexivity].
      exfalso. apply Hy. apply existsb_exists in Ex. destruct Ex as [z [Hz Ez]].
      apply String.eqb_eq in Ez. subst z. exact Hz. }
    rewrite E, IH; rewrite <- app_assoc; [reflexivity | exact H].
Qed.

(** Adding one of the five presets merges its topics into the list: the
    result has no duplicates, holds exactly the topics that were there
    and those of the preset, and adding the same preset again changes
    nothing.  When the list had no duplicates its topics stay where they
    were, in front of the new ones. *)
Theorem addPresetTopics_merges (options : TranscriptionOptions) (preset : string) :
  In preset preset_names ->
  let old := customTopics options in
  let new := customTopics (addPresetTopics options preset) in
  NoDup new /\
  (forall x, In x new <-> In x old \/ In x (lookup presets preset)) /\
  (NoDup old -> exists added, new = (old ++ added)%list) /\
  addPresetTopics (addPresetTopics options preset) preset =
  addPresetTopics options preset.
Proof.
  intros _. cbv zeta. unfold addPresetTopics. cbv zeta.
  cbn [customTopics with_customTopics].
  set (old := customTopics options). set (add := lookup presets preset).
  unfold JS.str_set_of.
  destruct (str_set_fold (old ++ add) [] (NoDup_nil _)) as (Hnd & Hin & _).
  split; [exact Hnd|]. split; [|split].
  - intros x. rewrite Hin, in_app_iff. simpl. intuition.
  - intros Hold. rewrite fold_left_app.
    rewrite (str_set_fresh old []) by exact Hold. simpl.
    destruct (str_set_fold add old Hold) as (_ & _ & H). exact H.
  - unfold with_customTopics. simpl. f_equal.
    rewrite fold_left_app.
    set (merged := fold_left JS.str_set_add (old ++ add) []) in *.
    rewrite (str_set_fresh merged []) by exact Hnd. simpl.
    apply str_set_absorb. intros x Hx. apply Hin. right.
    apply in_or_app. right. exact Hx.
Qed.

Lemma addPresetTopics_merges_witness :
  In "business" preset_names /\
  customTopics (addPresetTopics sample_options "business") =
  ["budget"; "meeting"; "project"; "deadline"; "strategy"; "client"; "revenue";
   "marketing"] /\
  addPresetTopics (addPresetTopics sample_options "business") "business" =
  addPresetTopics sample_options "business".
Proof.
  assert (H : In "business" preset_names) by (simpl; auto).
  split; [exact H|]. split; [reflexivity|].
  apply (addPresetTopics_merges sample_options "business" H).
Defined.
End OptionsMore.

(* ================================================================== *)
(** ** Chunking an audio buffer                                         *)
(* ================================================================== *)

Section ChunkFacts.
Import AudioProcessor.

Lemma nth_skipn {A : Type} (d : A) (s : nat) :
  forall (l : list A) (j : nat), nth (s + j) l d = nth j (skipn s l) d.
Proof.
  induction s as [|s IH]; intros l j; [reflexivity|].
  destruct l as [|x t]; simpl.
  - destruct j; reflexivity.
  - apply IH.
Qed.

Lemma map_nth_firstn {A : Type} (d : A) (l : list A) :
  forall k, (k <= List.length l)%nat ->
            map (fun j => nth j l d) (seq 0 k) = firstn k l.
Proof.
  induction l as [|x t IH]; intros k Hk.
  - simpl in Hk. assert (k = 0%nat) by lia. subst k. reflexivity.
  - destruct k as [|k]; [reflexivity|].
    simpl. f_equal. rewrite <- seq_shift, map_map. simpl.
    apply IH. simpl in Hk. lia.
Qed.

Lemma firstn_add {A : Type} (a b : nat) :
  forall l : list A, firstn (a + b) l = (firstn a l ++ firstn b (skipn a l))%list.
Proof.
  induction a as [|a IH]; intros l; [reflexivity|].
  destruct l as [|x t]; simpl.
  - rewrite firstn_nil. reflexivity.
  - rewrite IH. reflexivity.
Qed.

(** A chunk read by index is a slice of the channel. *)
Lemma copy_chunk_slice (max start : nat) (data : list Q) :
  copy_chunk start (Nat.min (start + max) (List.length data) - start) data =
  firstn max (skipn start data).
Proof.
  unfold copy_chunk.
  rewrite (map_ext _ (fun j => nth j (skipn start data) 0))
    by (intros j; apply nth_skipn).
  rewrite map_nth_firstn by (rewrite length_skipn; lia).
  set (rest := skipn start data).
  assert (L : List.length rest = (List.length data - start)%nat)
    by apply length_skipn.
  destruct (Nat.le_ge_cases max (List.length rest)) as [H|H].
  - f_equal. lia.
  - rewrite (firstn_all2 rest) by lia. rewrite (firstn_all2 rest) by lia. reflexivity.
Qed.

Lemma concat_slices {A : Type} (max : nat) (l : list A) :
  forall n,
    List.concat (map (fun i => firstn max (skipn (i * max) l)) (seq 0 n)) =
    firstn (n * max) l.
Proof.
  induction n as [|n IH]; [reflexivity|].
  rewrite seq_S, map_app, concat_app, IH. simpl.
  rewrite app_nil_r.
  replace (max + n * max)%nat with (n * max + max)%nat by lia.
  rewrite firstn_add. reflexivity.
Qed.

Lemma ceil_div_bounds (len max : nat) :
  (1 <= max)%nat -> (1 <= len)%nat ->
  (len <= ceil_div len max * max)%nat /\
  ((ceil_div len max - 1) * max < len)%nat /\
  (1 <= ceil_div len max)%nat.
Proof.
  intros Hmax Hlen. unfold ceil_div.
  pose proof (Nat.div_mod_eq (len + max - 1) max) as E.
  pose proof (Nat.mod_upper_bound (len + max - 1) max) as U.
  assert (Hq : (1 <= (len + max - 1) / max)%nat).
  { apply Nat.div_le_lower_bound; lia. }
  nia.
Qed.

Lemma build_all (f : nat -> option AudioBuffer) (g : nat -> AudioBuffer) (l : list nat) :
  (forall i, In i l -> f i = Some (g i)) -> build f l = Some (map g l).
Proof.
  induction l as [|i rest IH]; intros H; simpl; [reflexivity|].
  rewrite (H i (or_introl eq_refl)), IH; [reflexivity|].
  intros j Hj. apply H. right. exact Hj.
Qed.

Lemma map_getChannelData (b : AudioBuffer) (f : list Q -> list Q) :
  map (fun channel => f (getChannelData b channel)) (seq 0 (numberOfChannels b)) =
  map f (channels b).
Proof.
  unfold getChannelData, numberOfChannels.
  rewrite <- (map_map (fun channel => nth channel (channels b) []) f).
  f_equal. rewrite map_nth_firstn by lia. apply firstn_all.
Qed.

Lemma chunk_at_slice (b : AudioBuffer) (max i : nat) :
  well_formed b -> (1 <= max)%nat -> (i * max < buffer_length b)%nat ->
  chunk_at b max i = Some (slice_chunk b max i).
Proof.
  intros (Hc & Hl & Hr & Hall) Hmax Hi. unfold chunk_at, createBuffer. cbv zeta.
  destruct (Nat.eqb_spec (numberOfChannels b) 0); [lia|].
  destruct (Nat.eqb_spec (Nat.min (i * max + max) (buffer_length b) - i * max) 0); [lia|].
  destruct (Nat.eqb_spec (sampleRate b) 0); [lia|].
  cbn [orb sampleRate buffer_length]. unfold slice_chunk. f_equal. f_equal.
  rewrite (map_getChannelData b
             (copy_chunk (i * max) (Nat.min (i * max + max) (buffer_length b) - i * max))).
  apply map_ext_in. intros data Hd.
  rewrite Forall_forall in Hall. rewrite <- (Hall data Hd).
  apply copy_chunk_slice.
Qed.

Lemma chunkAudio_slices (b : AudioBuffer) (d : nat) :
  well_formed b -> (1 <= d)%nat ->
  chunkAudio b d =
  Some (map (slice_chunk b (d * sampleRate b))
            (seq 0 (ceil_div (buffer_length b) (d * sampleRate b)))).
Proof.
  intros Hwf Hd. pose proof Hwf as (Hc & Hl & Hr & Hall).
  unfold chunkAudio. cbv zeta.
  set (max := (d * sampleRate b)%nat).
  assert (Hmax : (1 <= max)%nat) by (unfold max; nia).
  destruct (Nat.eqb_spec max 0); [lia|].
  apply build_all. intros i Hi. apply in_seq in Hi.
  apply chunk_at_slice; [exact Hwf | exact Hmax |].
  destruct (ceil_div_bounds (buffer_length b) max Hmax Hl) as (_ & H & _).
  nia.
Qed.

Lemma nth_map_nil {A B : Type} (f : list A -> list B) (l : list (list A)) :
  f [] = [] -> forall k, nth k (map f l) [] = f (nth k l []).
Proof.
  intros Hf. induction l as [|x t IH]; intros k; simpl.
  - destruct k; symmetry; exact Hf.
  - destruct k; [reflexivity | apply IH].
Qed.

Lemma slice_chunk_channel (b : AudioBuffer) (max i k : nat) :
  getChannelData (slice_chunk b max i) k =
  firstn max (skipn (i * max) (getChannelData b k)).
Proof.
  unfold getChannelData, slice_chunk. cbn [channels].
  apply (nth_map_nil (fun data => firstn max (skipn (i * max) data))).
  rewrite skipn_nil. apply firstn_nil.
Qed.

Lemma slice_chunk_well_formed (b : AudioBuffer) (max i : nat) :
  well_formed b -> (1 <= max)%nat -> (i * max < buffer_length b)%nat ->
  well_formed (slice_chunk b max i).
Proof.
  intros (Hc & Hl & Hr & Hall) Hmax Hi. unfold well_formed, numberOfChannels, slice_chunk.
  cbn [channels buffer_length sampleRate]. rewrite length_map.
  split; [exact Hc|]. split; [lia|]. split; [exact Hr|].
  apply Forall_forall. intros data Hd. apply in_map_iff in Hd.
  destruct Hd as [src [E Hsrc]]. subst data.
  rewrite Forall_forall in Hall.
  rewrite length_firstn, length_skipn, (Hall src Hsrc). lia.
Qed.

(** Chunking loses nothing: for a well-formed buffer and a chunk
    duration of at least one second, [chunkAudio] returns chunks whose
    samples, put end to end, are the samples of the buffer, channel by
    channel; every chunk is itself a well-formed buffer with the rate
    and the number of channels of the original. *)
Theorem chunkAudio_partitions (b : AudioBuffer) (maxChunkDuration : nat) :
  well_formed b -> (1 <= maxChunkDuration)%nat ->
  exists chunks,
    chunkAudio b maxChunkDuration = Some chunks /\
    (forall k, (k < numberOfChannels b)%nat ->
               List.concat (map (fun c => getChannelData c k) chunks) =
               getChannelData b k) /\
    Forall (fun c => well_formed c /\ sampleRate c = sampleRate b /\
                     numberOfChannels c = numberOfChannels b) chunks.
Proof.
  intros Hwf Hd. pose proof Hwf as (Hc & Hl & Hr & Hall).
  rewrite (chunkAudio_slices b maxChunkDuration Hwf Hd).
  set (max := (maxChunkDuration * sampleRate b)%nat).
  assert (Hmax : (1 <= max)%nat) by (unfold max; nia).
  destruct (ceil_div_bounds (buffer_length b) max Hmax Hl) as (Hup & Hlow & Hn).
  eexists. split; [reflexivity|]. split.
  - intros k Hk. rewrite map_map.
    rewrite (map_ext _ (fun i => firstn max (skipn (i * max) (getChannelData b k))))
      by (intros i; apply slice_chunk_channel).
    rewrite concat_slices. apply firstn_all2.
    unfold getChannelData. rewrite Forall_forall in Hall.
    rewrite (Hall (nth k (channels b) []) (nth_In _ _ Hk)). exact Hup.
  - apply Forall_forall. intros c Hin. apply in_map_iff in Hin.
    destruct Hin as [i [E Hi]]. subst c. apply in_seq in Hi.
    split; [|split].
    + apply slice_chunk_well_formed; [exact Hwf | exact Hmax | nia].
    + reflexivity.
    + unfold numberOfChannels, slice_chunk. cbn [channels]. apply length_map.
Qed.

Lemma sample_buffer_well_formed : well_formed sample_buffer.
Proof.
  unfold well_formed, numberOfChannels. simpl.
  repeat split; try lia. repeat constructor.
Qed.

Lemma chunkAudio_partitions_witness :
  exists chunks,
    chunkAudio sample_buffer 1 = Some chunks /\
    List.concat (map (fun c => getChannelData c 1) chunks) = [0; 0; 1; 1; 1].
Proof.
  destruct (chunkAudio_partitions sample_buffer 1 sample_buffer_well_formed (le_n 1))
    as (chunks & Hc & Hk & _).
  exists chunks. split; [exact Hc|]. rewrite Hk; [reflexivity | unfold numberOfChannels; simpl; lia].
Defined.

(** The number and the sizes of the chunks: there are
    [ceil(length / maxChunkSamples)] of them, every chunk but the last
    has exactly [maxChunkSamples] frames, the last has between 1 and
    [maxChunkSamples], and a buffer that fits in one chunk comes back as
    the single chunk, unchanged. *)
Theorem chunkAudio_sizes (b : AudioBuffer) (maxChunkDuration : nat) :
  well_formed b -> (1 <= maxChunkDuration)%nat ->
  let maxChunkSamples := (maxChunkDuration * sampleRate b)%nat in
  exists chunks,
    chunkAudio b maxChunkDuration = Some chunks /\
    List.length chunks = ceil_div (buffer_length b) maxChunkSamples /\
    (forall i c, nth_error chunks i = Some c ->
       (1 <= buffer_length c <= maxChunkSamples)%nat /\
       ((S i < List.length chunks)%nat -> buffer_length c = maxChunkSamples) /\
       ((S i = List.length chunks)%nat ->
        buffer_length c = (buffer_length b - i * maxChunkSamples)%nat)) /\
    ((buffer_length b <= maxChunkSamples)%nat -> chunks = [b]).
Proof.
  intros Hwf Hd. cbv zeta. pose proof Hwf as (Hc & Hl & Hr & Hall).
  rewrite (chunkAudio_slices b maxChunkDuration Hwf Hd).
  set (max := (maxChunkDuration * sampleRate b)%nat).
  assert (Hmax : (1 <= max)%nat) by (unfold max; nia).
  destruct (ceil_div_bounds (buffer_length b) max Hmax Hl) as (Hup & Hlow & Hn).
  set (n := ceil_div (buffer_length b) max) in *.
  eexists. split; [reflexivity|].
  rewrite length_map, length_seq. split; [reflexivity|]. split.
  - intros i c Hnth.
    assert (Hi : (i < n)%nat).
    { assert (H : nth_error (map (slice_chunk b max) (seq 0 n)) i <> None)
        by (rewrite Hnth; discriminate).
      apply nth_error_Some in H.
      rewrite length_map, length_seq in H. exact H. }
    rewrite nth_error_map, nth_error_seq in Hnth.
    destruct (Nat.ltb_spec i n) as [_|]; [|lia].
    simpl in Hnth. injection Hnth as E. subst c.
    unfold slice_chunk. cbn [buffer_length]. nia.
  - intros Hfit.
    assert (En : n = 1%nat) by nia.
    rewrite En. simpl. f_equal.
    unfold slice_chunk. destruct b as [rate len chans]. cbn [sampleRate buffer_length channels] in *.
    f_equal; [lia|].
    rewrite <- (map_id chans) at 2. apply map_ext_in. intros data Hdata.
    rewrite Forall_forall in Hall. simpl. apply firstn_all2.
    rewrite (Hall data Hdata). fold max. exact Hfit.
Qed.

Lemma chunkAudio_sizes_witness :
  exists chunks,
    chunkAudio sample_buffer 1 = Some chunks /\ List.length chunks = 3%nat.
Proof.
  destruct (chunkAudio_sizes sample_buffer 1 sample_buffer_well_formed (le_n 1))
    as (chunks & Hc & Hn & _).
  exists chunks. split; [exact Hc|]. rewrite Hn. reflexivity.
Defined.
End ChunkFacts.

(* ================================================================== *)
(** ** Detecting silence                                                *)
(* ================================================================== *)

Section SilenceFacts.
Import AudioProcessor.
Variable th : Q.
Variable minFrames : Z.
Variable data : list Q.

Lemma quiet_at_here (i : nat) (x : Q) :
  nth_error data i = Some x -> (quiet_at th data i <-> quiet th x = true).
Proof.
  intros H. unfold quiet_at. rewrite H. split.
  - intros [y [E Q]]. injection E as E. subst y. exact Q.
  - intros Q. exists x. auto.
Qed.

Lemma StronglySorted_snoc {A : Type} (R : A -> A -> Prop) (l : list A) (x : A) :
  StronglySorted R l -> (forall a, In a l -> R a x) -> StronglySorted R (l ++ [x]).
Proof.
  induction 1 as [|a t Ht IH Hall]; intros H; simpl.
  - constructor; constructor.
  - constructor.
    + apply IH. intros b Hb. apply H. right. exact Hb.
    + apply Forall_app. split; [exact Hall|].
      constructor; [apply H; left; reflexivity | constructor].
Qed.

(** A stretch of silence that cannot be extended to the left is fixed by
    its end. *)
Lemma left_end_unique (s s' e : nat) :
  (s < e)%nat -> (s' < e)%nat ->
  (forall k, (s <= k < e)%nat -> quiet_at th data k) ->
  (forall k, (s' <= k < e)%nat -> quiet_at th data k) ->
  (s = 0%nat \/ ~ quiet_at th data (s - 1)) ->
  (s' = 0%nat \/ ~ quiet_at th data (s' - 1)) ->
  s = s'.
Proof.
  intros Hs Hs' Hq Hq' Hl Hl'.
  destruct (Nat.lt_trichotomy s s') as [L|[E|L]]; [|exact E|].
  - exfalso. destruct Hl' as [Z|N]; [lia|]. apply N, Hq. lia.
  - exfalso. destruct Hl as [Z|N]; [lia|]. apply N, Hq'. lia.
Qed.

Lemma frame_inv (i : nat) (x : Q) (st : Scan (nat * nat)) :
  nth_error data i = Some x ->
  scan_inv th minFrames data i st ->
  scan_inv th minFrames data (S i) (frame pair th minFrames st i x).
Proof.
  intros Hx (HA & HB & HC & HD).
  pose proof (quiet_at_here i x Hx) as Hq.
  unfold frame. destruct (quiet th x) eqn:Q.
  - (* a quiet frame *)
    assert (Qi : quiet_at th data i) by (apply Hq; reflexivity).
    unfold scan_inv. cbn [isSilence silenceStart consecutiveSilenceFrames silenceRanges].
    split; [|split; [discriminate|split]].
    + intros _. destruct (isSilence st) eqn:Sil.
      * destruct (HA eq_refl) as (A1 & A2 & A3 & A4).
        split; [lia|]. split; [lia|]. split; [|exact A4].
        intros k Hk. destruct (Nat.eq_dec k i) as [E|E]; [subst k; exact Qi|].
        apply A3. lia.
      * destruct (HB eq_refl) as (B1 & B2).
        split; [lia|]. split; [lia|]. split.
        -- intros k Hk. assert (k = i) by lia. subst k. exact Qi.
        -- exact B2.
    + intros s e. rewrite HC. unfold ended_before. split.
      * intros (H1 & H2 & H3 & H4 & H5 & H6). repeat split; auto; lia.
      * intros (H1 & H2 & H3 & H4 & H5 & H6). repeat split; auto.
        destruct (Nat.eq_dec e i) as [E|E]; [subst e; contradiction | lia].
    + exact HD.
  - (* a loud frame *)
    assert (Ni : ~ quiet_at th data i).
    { intros H. apply Hq in H. discriminate H. }
    unfold scan_inv. cbn [isSilence silenceStart consecutiveSilenceFrames silenceRanges].
    split; [discriminate|]. split.
    { intros _. split; [reflexivity|]. right.
      replace (S i - 1)%nat with i by lia. exact Ni. }
    unfold long_enough. destruct (isSilence st) eqn:Sil; cbn [andb].
    + destruct (HA eq_refl) as (A1 & A2 & A3 & A4).
      assert (Hnew : forall s e,
                 ended_before th minFrames data (S i) s e <->
                 ended_before th minFrames data i s e \/
                 ((s, e) = (silenceStart st, i) /\
                  (minFrames <= Z.of_nat (consecutiveSilenceFrames st))%Z)).
      { intros s e. unfold ended_before. split.
        - intros (H1 & H2 & H3 & H4 & H5 & H6).
          destruct (Nat.eq_dec e i) as [E|E].
          + right. subst e.
            assert (s = silenceStart st)
              by (apply (left_end_unique s (silenceStart st) i); auto).
            subst s. split; [reflexivity|]. rewrite A2. exact H6.
          + left. repeat split; auto; lia.
        - intros [(H1 & H2 & H3 & H4 & H5 & H6)|[E H]].
          + repeat split; auto; lia.
          + injection E as E1 E2. subst s e. rewrite A2 in H.
            repeat split; auto. }
      destruct (Z.leb_spec minFrames (Z.of_nat (consecutiveSilenceFrames st))) as [L|L].
      * split.
        -- intros s e. rewrite Hnew, in_app_iff, HC. simpl.
           split; intros [H|H]; auto.
           ++ destruct H as [H|[]]. right. split; [symmetry; exact H | exact L].
           ++ right. left. symmetry. apply H.
        -- apply StronglySorted_snoc; [exact HD|].
           intros [s' e'] Hin. apply HC in Hin.
           destruct Hin as (H1 & H2 & H3 & H4 & H5 & H6).
           unfold apart. simpl.
           destruct (Nat.lt_ge_cases e' (silenceStart st)) as [Hlt|Hge]; [exact Hlt|].
           exfalso. apply H5, A3. lia.
      * split; [|exact HD].
        intros s e. rewrite Hnew, HC. split; [auto|].
        intros [H|[_ H]]; [exact H | lia].
    + destruct (HB eq_refl) as (B1 & B2).
      split; [|exact HD].
      intros s e. rewrite HC. unfold ended_before. split.
      * intros (H1 & H2 & H3 & H4 & H5 & H6). repeat split; auto; lia.
      * intros (H1 & H2 & H3 & H4 & H5 & H6).
        destruct (Nat.eq_dec e i) as [E|E]; [|repeat split; auto; lia].
        exfalso. subst e. destruct B2 as [Z|N]; [lia|]. apply N, H3. lia.
Qed.

Lemma frames_from_inv (rest : list Q) :
  forall done st,
    data = (done ++ rest)%list ->
    scan_inv th minFrames data (List.length done) st ->
    scan_inv th minFrames data (List.length data)
             (frames_from pair th minFrames st (List.length done) rest).
Proof.
  induction rest as [|x rest IH]; intros done st Hd Hinv.
  - simpl. rewrite app_nil_r in Hd. rewrite <- Hd in Hinv. exact Hinv.
  - cbn [frames_from].
    replace (S (List.length done)) with (List.length (done ++ [x]))
      by (rewrite length_app; simpl; lia).
    apply IH.
    + rewrite Hd, <- app_assoc. reflexivity.
    + rewrite length_app. simpl. rewrite Nat.add_1_r.
      apply frame_inv; [|exact Hinv].
      rewrite Hd, nth_error_app2 by lia. rewrite Nat.sub_diag. reflexivity.
Qed.

(** The ranges in frames are exactly the stretches of silence that can
    be extended on neither side and last at least [minFrames] frames;
    they come in order, each ending before the next begins. *)
Lemma silent_frames_spec :
  (forall s e,
     In (s, e) (silent_frames th minFrames data) <->
     silent_stretch th data s e /\ (minFrames <= Z.of_nat (e - s))%Z) /\
  StronglySorted apart (silent_frames th minFrames data).
Proof.
  unfold silent_frames, silences. cbv zeta.
  set (st0 := {| isSilence := false; silenceStart := 0;
                 consecutiveSilenceFrames := 0; silenceRanges := [] |}).
  assert (I0 : scan_inv th minFrames data (List.length (@nil Q)) st0).
  { unfold scan_inv, st0. simpl. split; [discriminate|]. split; [auto|]. split.
    - intros s e. split; [intros []|]. intros (_ & H & _). lia.
    - constructor. }
  pose proof (frames_from_inv data [] st0 eq_refl I0) as (HA & HB & HC & HD).
  simpl (List.length []) in HA, HB, HC, HD.
  set (st := frames_from pair th minFrames st0 0 data) in *.
  set (len := List.length data) in *.
  assert (Nlen : ~ quiet_at th data len).
  { intros [x [E _]]. assert (H : nth_error data len <> None) by (rewrite E; discriminate).
    apply nth_error_Some in H. unfold len in H. lia. }
  assert (Hclosed : forall s e,
             ended_before th minFrames data len s e <->
             (silent_stretch th data s e /\ (minFrames <= Z.of_nat (e - s))%Z) /\
             (e < len)%nat).
  { intros s e. unfold ended_before, silent_stretch. fold len. split.
    - intros (H1 & H2 & H3 & H4 & H5 & H6). repeat split; auto; lia.
    - intros (((H1 & H2 & H3 & H4) & H5) & H6). repeat split; auto; try lia.
      destruct H4 as [E|N]; [lia | exact N]. }
  unfold long_enough. destruct (isSilence st) eqn:Sil; cbn [andb].
  - destruct (HA eq_refl) as (A1 & A2 & A3 & A4).
    assert (Hopen : forall s,
               silent_stretch th data s len <-> s = silenceStart st).
    { intros s. unfold silent_stretch. fold len. split.
      - intros (H1 & H2 & H3 & H4).
        apply (left_end_unique s (silenceStart st) len); auto; lia.
      - intros E. subst s. repeat split; auto; lia. }
    destruct (Z.leb_spec minFrames (Z.of_nat (consecutiveSilenceFrames st))) as [L|L].
    + split.
      * intros s e. rewrite in_app_iff, HC, Hclosed. simpl. split.
        -- intros [[H _]|[H|[]]]; [exact H|]. injection H as E1 E2. subst s e.
           split; [apply Hopen; reflexivity | rewrite <- A2; exact L].
        -- intros [Hs Hm].
           destruct (Nat.eq_dec e len) as [E|E].
           ++ right. left. subst e. apply Hopen in Hs. subst s. reflexivity.
           ++ left. split; [split; assumption|].
              destruct Hs as ((_ & H) & _). fold len in H. lia.
      * apply StronglySorted_snoc; [exact HD|].
        intros [s' e'] Hin. apply HC in Hin.
        destruct Hin as (H1 & H2 & H3 & H4 & H5 & H6).
        unfold apart. simpl.
        destruct (Nat.lt_ge_cases e' (silenceStart st)) as [Hlt|Hge]; [exact Hlt|].
        exfalso. apply H5, A3. lia.
    + split; [|exact HD].
      intros s e. rewrite HC, Hclosed. split; [intros [H _]; exact H|].
      intros [Hs Hm]. split; [split; assumption|].
      destruct (Nat.eq_dec e len) as [E|E].
      * exfalso. subst e. apply Hopen in Hs. subst s. rewrite <- A2 in Hm. lia.
      * destruct Hs as ((_ & H) & _). fold len in H. lia.
  - destruct (HB eq_refl) as (B1 & B2).
    split; [|exact HD].
    intros s e. rewrite HC, Hclosed. split; [intros [H _]; exact H|].
    intros [Hs Hm]. split; [split; assumption|].
    destruct (Nat.eq_dec e len) as [E|E].
    + exfalso. subst e. destruct Hs as ((H1 & _) & H3 & _).
      destruct B2 as [Z|N]; [lia|]. apply N, H3. lia.
    + destruct Hs as ((_ & H) & _). fold len in H. lia.
Qed.
End SilenceFacts.

Section SilenceSeconds.
Import AudioProcessor.
Context {A B : Type} (f : A -> B) (mkA : nat -> nat -> A) (mkB : nat -> nat -> B).
Hypothesis mk_f : forall s e, f (mkA s e) = mkB s e.

Lemma frame_map (th : Q) (n : Z) (st : Scan A) (i : nat) (x : Q) :
  frame mkB th n (scan_map f st) i x = scan_map f (frame mkA th n st i x).
Proof.
  unfold frame, scan_map, long_enough.
  cbn [isSilence silenceStart consecutiveSilenceFrames silenceRanges].
  destruct (quiet th x); [reflexivity|].
  destruct (isSilence st && _)%bool; cbn [silenceRanges]; [|reflexivity].
  rewrite map_app. simpl. rewrite mk_f. reflexivity.
Qed.

Lemma frames_from_map (th : Q) (n : Z) (data : list Q) :
  forall st i,
    frames_from mkB th n (scan_map f st) i data =
    scan_map f (frames_from mkA th n st i data).
Proof.
  induction data as [|x rest IH]; intros st i; simpl; [reflexivity|].
  rewrite frame_map. apply IH.
Qed.

Lemma silences_map (th : Q) (n : Z) (data : list Q) :
  silences mkB th n data = map f (silences mkA th n data).
Proof.
  unfold silences. cbv zeta.
  pose proof (frames_from_map th n data
                {| isSilence := false; silenceStart := 0;
                   consecutiveSilenceFrames := 0; silenceRanges := [] |} 0) as H.
  unfold scan_map at 1 in H. simpl in H. rewrite H.
  unfold long_enough, scan_map.
  cbn [isSilence silenceStart consecutiveSilenceFrames silenceRanges].
  destruct (isSilence _ && _)%bool; [|reflexivity].
  rewrite map_app. simpl. rewrite mk_f. reflexivity.
Qed.
End SilenceSeconds.


(* ================================================================== *)
(** ** Recordings: names and the in-memory store                        *)
(* ================================================================== *)

Section RecordingNames.
Import Recordings.

Lemma digit_facts (c : ascii) :
  JS.is_digit c = true ->
  Ascii.eqb c ":" = false /\ Ascii.eqb c "." = false /\ Ascii.eqb c "/" = false.
Proof.
  destruct c as [[] [] [] [] [] [] [] []]; vm_compute; intros H;
    first [discriminate H | repeat split].
Qed.

Lemma safe_char_facts (c : ascii) :
  safe_char c = true -> Ascii.eqb c "/" = false.
Proof.
  destruct c as [[] [] [] [] [] [] [] []]; vm_compute; intros H;
    first [discriminate H | reflexivity].
Qed.

Lemma no_slash_app (a b : string) :
  no_slash (a ++ b) = no_slash a && no_slash b.
Proof.
  induction a as [|c r IH]; simpl; [reflexivity|].
  rewrite IH, andb_assoc. reflexivity.
Qed.

Lemma underscores_no_slash (n : nat) : no_slash (underscores n) = true.
Proof. induction n as [|n IH]; simpl; [reflexivity | exact IH]. Qed.

Lemma sanitize_no_slash (name : string) : no_slash (sanitize name) = true.
Proof.
  induction name as [|c r IH]; cbn [sanitize]; [reflexivity|].
  rewrite no_slash_app, IH, andb_true_r.
  destruct (safe_char c) eqn:S; [|apply underscores_no_slash].
  simpl. rewrite (safe_char_facts c S). reflexivity.
Qed.

Lemma snoc_app (acc : string) (c : ascii) (s : string) :
  (JS.snoc acc c ++ s)%string = (acc ++ String c s)%string.
Proof.
  unfold JS.snoc. induction acc as [|a r IH]; simpl; [reflexivity|].
  rewrite IH. reflexivity.
Qed.

Lemma split_no_slash (s : string) :
  forall acc, no_slash s = true -> split_slash acc s = [(acc ++ s)%string].
Proof.
  induction s as [|c r IH]; intros acc H; simpl in *.
  - unfold JS.snoc. induction acc; simpl; [reflexivity|].
    f_equal. f_equal. injection IHacc as E. exact E.
  - apply andb_true_iff in H. destruct H as [Hc Hr].
    apply negb_true_iff in Hc. rewrite Hc, (IH _ Hr), snoc_app. reflexivity.
Qed.

Lemma fits_dash (slot : Slot) (c : ascii) :
  fits slot c = true -> fits (dash_slot slot) (dash c) = true.
Proof.
  destruct slot as [|d]; simpl; intros H.
  - destruct (digit_facts c H) as (H1 & H2 & _). unfold dash.
    rewrite H1, H2. exact H.
  - apply Ascii.eqb_eq in H. subst d. apply Ascii.eqb_refl.
Qed.

Lemma strip_dashes (slots : list Slot) :
  forall s r, strip slots s = Some r ->
              strip (map dash_slot slots) (dashes s) = Some (dashes r).
Proof.
  induction slots as [|slot more IH]; intros s r H; simpl in *.
  - injection H as H. subst r. reflexivity.
  - destruct s as [|c t]; [discriminate H|]. simpl.
    destruct (fits slot c) eqn:F; [|discriminate H].
    fold (dash c). rewrite (fits_dash slot c F). apply IH. exact H.
Qed.

Lemma strip_app (slots more : list Slot) :
  forall s t, strip slots s = Some "" ->
              strip (slots ++ more) (s ++ t) = strip more t.
Proof.
  induction slots as [|slot rest IH]; intros s t H; simpl in *.
  - injection H as H. subst s. reflexivity.
  - destruct s as [|c r]; [discriminate H|]. simpl.
    destruct (fits slot c); [apply IH; exact H | discriminate H].
Qed.

Lemma strip_no_slash (slots : list Slot) :
  forallb slot_no_slash slots = true ->
  forall s, strip slots s = Some "" -> no_slash s = true.
Proof.
  induction slots as [|slot rest IH]; intros Hs s H; simpl in *.
  - injection H as H. subst s. reflexivity.
  - destruct s as [|c r]; [discriminate H|]. simpl.
    apply andb_true_iff in Hs. destruct Hs as [Hslot Hrest].
    destruct (fits slot c) eqn:F; [|discriminate H].
    rewrite (IH Hrest r H), andb_true_r.
    destruct slot as [|d]; simpl in *.
    + destruct (digit_facts c F) as (_ & _ & H3). rewrite H3. reflexivity.
    + apply Ascii.eqb_eq in F. subst d. exact Hslot.
Qed.

Section WithRoute.
Variables (Date Content : Type).
Variable base64 : Content -> string.
Variable formatFileSize : nat -> string.
Variable formatDate : Date -> string.

(** A recording saved by [POST] is shown under the name it was given.
    When the blob store does not answer, or stores under the pathname it
    is given, [POST] answers with a recording whose pathname ends, for
    every instant the clock can print, in the time stamp, an underscore
    and the sanitised name; [getRecordingMetadata] gives this back as
    [filename] and, with the time stamp taken off, the sanitised name as
    [displayName].  The sanitised name holds no slash. *)
Theorem saved_name_is_displayed
        (recordings : list (Recording Date)) (file : File Content)
        (fname : option string) (iso : string) (now : Date)
        (put : Store (string * string)) :
  iso_instant iso ->
  stored_as put (pathname_of Content iso fname file) ->
  let clean := sanitize (or_else fname (name Content file)) in
  exists r,
    snd (POST Date Content base64 recordings (Some file) fname iso now put)
    = {| status := 200; body := saved Date r |} /\
    (fell_back put ->
     fst (POST Date Content base64 recordings (Some file) fname iso now put)
     = (recordings ++ [r])%list) /\
    no_slash clean = true /\
    filename (getRecordingMetadata Date formatFileSize formatDate r)
    = (dashes iso ++ "_" ++ clean)%string /\
    displayName (getRecordingMetadata Date formatFileSize formatDate r) = clean.
Proof.
  intros Hiso Hput. cbv zeta.
  set (clean := sanitize (or_else fname (name Content file))).
  assert (Hclean : no_slash clean = true) by apply sanitize_no_slash.
  unfold iso_instant in Hiso.
  pose proof (strip_dashes _ _ _ Hiso) as Hd. simpl (dashes "") in Hd.
  change (map dash_slot (stamp_pattern ":" ".")) with (stamp_pattern "-" "-") in Hd.
  assert (Hns : no_slash (dashes iso) = true).
  { apply (strip_no_slash (stamp_pattern "-" "-")); [reflexivity | exact Hd]. }
  assert (Hlast : last_piece (pathname_of Content iso fname file)
                  = (dashes iso ++ "_" ++ clean)%string).
  { unfold pathname_of, last_piece. cbv zeta. fold clean.
    change (split_slash "" ("recordings/" ++ dashes iso ++ "_" ++ clean))
      with ("recordings" :: split_slash "" (dashes iso ++ "_" ++ clean)).
    rewrite split_no_slash; [reflexivity|].
    rewrite no_slash_app, Hns. simpl. exact Hclean. }
  assert (Hne : String.eqb (dashes iso ++ "_" ++ clean) "" = false).
  { destruct iso as [|c t]; [discriminate Hiso | reflexivity]. }
  assert (Hmeta : forall r : Recording Date,
             pathname Date r = pathname_of Content iso fname file ->
             filename (getRecordingMetadata Date formatFileSize formatDate r)
             = (dashes iso ++ "_" ++ clean)%string /\
             displayName (getRecordingMetadata Date formatFileSize formatDate r) = clean).
  { intros r Hp. unfold getRecordingMetadata. cbv zeta. cbn [filename displayName].
    rewrite Hp, Hlast, Hne. split; [reflexivity|].
    unfold displayName_of.
    rewrite (strip_app (stamp_pattern "-" "-") [exactly "_"%char]
                       (dashes iso) ("_" ++ clean) Hd).
    simpl. reflexivity. }
  unfold POST. cbv zeta.
  destruct put as [| |[u q]]; cbn [fst snd].
  1,2: eexists; split; [reflexivity|]; split; [intros _; reflexivity|];
       split; [exact Hclean|]; apply Hmeta; reflexivity.
  simpl in Hput. subst q.
  eexists. split; [reflexivity|]. split; [intros []|].
  split; [exact Hclean|]. apply Hmeta. reflexivity.
Qed.
End WithRoute.

Lemma saved_name_is_displayed_witness :
  iso_instant "2025-01-02T03:04:05.678Z" /\
  exists r,
    snd (POST unit unit (fun _ => "AAAA") [] (Some cafe_file) None
              "2025-01-02T03:04:05.678Z" tt no_token)
    = {| status := 200; body := saved unit r |} /\
    filename (getRecordingMetadata unit (fun _ => "7 Bytes") (fun _ => "Jan 2, 2025") r)
    = "2025-01-02T03-04-05-678Z_caf_.webm" /\
    displayName (getRecordingMetadata unit (fun _ => "7 Bytes") (fun _ => "Jan 2, 2025") r)
    = "caf_.webm".
Proof.
  assert (H : iso_instant "2025-01-02T03:04:05.678Z") by reflexivity.
  split; [exact H|].
  destruct (saved_name_is_displayed unit unit (fun _ => "AAAA")
              (fun _ => "7 Bytes") (fun _ => "Jan 2, 2025")
              [] cafe_file None "2025-01-02T03:04:05.678Z" tt no_token H I)
    as (r & H1 & _ & _ & H2 & H3).
  exists r. split; [exact H1|]. split; [exact H2 | exact H3].
Defined.
End RecordingNames.

Section MemoryStore.
Import Recordings.
Variables (Date Content : Type).
Variable base64 : Content -> string.

Lemma filter_length_lt {A : Type} (f : A -> bool) (l : list A) :
  (List.length (filter f l) < List.length l)%nat <-> exists x, In x l /\ f x = false.
Proof.
  induction l as [|x t IH]; simpl.
  - split; [lia | intros [x [[] _]]].
  - pose proof (filter_length_le f t) as L.
    destruct (f x) eqn:F; simpl.
    + rewrite <- Nat.succ_lt_mono, IH. split.
      * intros [y [Hy Fy]]. exists y. auto.
      * intros [y [[E|Hy] Fy]]; [subst y; congruence | exists y; auto].
    + split; [|lia]. intros _. exists x. auto.
Qed.

(** Deleting from the in-memory store (the blob store gave no answer):
    the call reports success exactly when some recording had the
    pathname, it removes every recording with that pathname and no
    other, and deleting the same pathname again reports failure and
    changes nothing. *)
Theorem memory_delete (recordings : list (Recording Date)) (p : string)
        (del : Store unit) :
  p <> "" -> fell_back del ->
  let kept := fst (DELETE Date recordings (Some p) del) in
  (exists ok,
     snd (DELETE Date recordings (Some p) del) =
       {| status := 200; body := success Date ok |} /\
     (ok = true <-> exists r, In r recordings /\ pathname Date r = p)) /\
  (forall r, In r kept <-> In r recordings /\ pathname Date r <> p) /\
  DELETE Date kept (Some p) del =
    (kept, {| status := 200; body := success Date false |}).
Proof.
  intros Hp Hdel. cbv zeta. unfold DELETE.
  apply String.eqb_neq in Hp. rewrite Hp.
  set (keep := fun r : Recording Date => negb (String.eqb (pathname Date r) p)).
  assert (Hkept : forall r, In r (filter keep recordings) <->
                            In r recordings /\ pathname Date r <> p).
  { intros r. rewrite filter_In. unfold keep. rewrite negb_true_iff, String.eqb_neq.
    reflexivity. }
  destruct del as [| |u]; [| |contradiction]; cbn [fst snd].
  all: split; [|split; [exact Hkept|]].
  1,3: eexists; split; [reflexivity|];
       rewrite Nat.ltb_lt, (filter_length_lt keep recordings);
       split; intros [r [Hr E]]; exists r; (split; [exact Hr|]);
       unfold keep in *;
       [apply negb_false_iff, String.eqb_eq in E; exact E
       |apply negb_false_iff, String.eqb_eq; exact E].
  all: assert (Hsame : filter keep (filter keep recordings) = filter keep recordings)
         by (clear; induction recordings as [|x t IH]; simpl; [reflexivity|];
             destruct (keep x) eqn:K; simpl; [rewrite K, IH; reflexivity | exact IH]);
       rewrite Hsame, Nat.ltb_irrefl; reflexivity.
Qed.

(** Saving to the in-memory store and then deleting the pathname of
    the recording that [POST] answered with gives back the store as it
    was, and the deletion reports success, provided no recording already
    had that pathname; a recording with the same pathname would be
    deleted with it. *)
Theorem memory_save_then_delete (recordings : list (Recording Date))
        (file : File Content) (fname : option string) (iso : string) (now : Date)
        (put : Store (string * string)) (del : Store unit)
        (after_save : list (Recording Date)) (r : Recording Date) :
  fell_back put -> fell_back del ->
  POST Date Content base64 recordings (Some file) fname iso now put
  = (after_save, {| status := 200; body := saved Date r |}) ->
  (forall r0, In r0 recordings -> pathname Date r0 <> pathname Date r) ->
  after_save = (recordings ++ [r])%list /\
  DELETE Date after_save (Some (pathname Date r)) del =
    (recordings, {| status := 200; body := success Date true |}).
Proof.
  intros Hput Hdel Hpost Hfresh.
  assert (Hsaved : after_save = (recordings ++ [r])%list /\
                   pathname Date r = pathname_of Content iso fname file).
  { unfold POST in Hpost. cbv zeta in Hpost.
    destruct put as [| |[u v]]; [| |contradiction];
      injection Hpost as E1 E2; subst after_save r; split; reflexivity. }
  destruct Hsaved as [Hafter Hp]. split; [exact Hafter|]. subst after_save.
  set (p := pathname Date r) in *.
  assert (Hne : String.eqb p "" = false) by (rewrite Hp; reflexivity).
  assert (Hfilter : filter (fun r0 => negb (String.eqb (pathname Date r0) p)) recordings
                    = recordings).
  { clear - Hfresh. induction recordings as [|x t IH]; simpl; [reflexivity|].
    destruct (String.eqb_spec (pathname Date x) p) as [E|E].
    - exfalso. apply (Hfresh x); [left; reflexivity | exact E].
    - simpl. rewrite IH; [reflexivity|]. intros r0 Hr. apply Hfresh. right. exact Hr. }
  unfold DELETE. rewrite Hne.
  destruct del as [| |u]; [| |contradiction];
    rewrite filter_app, Hfilter; cbn [filter]; fold p;
    rewrite String.eqb_refl; cbn [negb]; rewrite app_nil_r, length_app;
    cbn [List.length];
    (assert ((List.length recordings <? List.length recordings + 1)%nat = true) as ->
       by (apply Nat.ltb_lt; lia)); reflexivity.
Qed.

End MemoryStore.

Lemma memory_delete_witness :
  snd (Recordings.DELETE unit
         [{| Recordings.url := "data:a"; Recordings.pathname := "recordings/a";
             Recordings.rec_size := 1; Recordings.uploadedAt := tt;
             Recordings.contentType := "audio/webm" |}]
         (Some "recordings/b") Recordings.no_token) =
  {| Recordings.status := 200; Recordings.body := Recordings.success unit false |}.
Proof.
  destruct (memory_delete unit
              [{| Recordings.url := "data:a"; Recordings.pathname := "recordings/a";
                  Recordings.rec_size := 1; Recordings.uploadedAt := tt;
                  Recordings.contentType := "audio/webm" |}]
              "recordings/b" Recordings.no_token) as ((ok & E & Hok) & _);
    [discriminate | exact I |].
  rewrite E. destruct ok; [|reflexivity].
  destruct Hok as [H _]. destruct (H eq_refl) as (r & [Hr|[]] & Hp).
  subst r. discriminate Hp.
Defined.

Lemma memory_save_then_delete_witness :
  Recordings.DELETE unit
    (fst (Recordings.POST unit unit (fun _ => "AAAA") []
            (Some Recordings.cafe_file) None
            "2025-01-02T03:04:05.678Z" tt Recordings.no_token))
    (Some "recordings/2025-01-02T03-04-05-678Z_caf_.webm") Recordings.throws =
  ([], {| Recordings.status := 200; Recordings.body := Recordings.success unit true |}).
Proof.
  apply (memory_save_then_delete unit unit (fun _ => "AAAA") []
           Recordings.cafe_file None "2025-01-02T03:04:05.678Z" tt
           Recordings.no_token Recordings.throws
           (fst (Recordings.POST unit unit (fun _ => "AAAA") []
                   (Some Recordings.cafe_file) None
                   "2025-01-02T03:04:05.678Z" tt Recordings.no_token))
           {| Recordings.url := "data:audio/webm;base64,AAAA";
              Recordings.pathname := "recordings/2025-01-02T03-04-05-678Z_caf_.webm";
              Recordings.rec_size := 7; Recordings.uploadedAt := tt;
              Recordings.contentType := "" |}); try exact I.
  - reflexivity.
  - intros r0 [].
Defined.

(* ================================================================== *)
(** ** The Gemini response: lines, speakers and time stamps             *)
(* ================================================================== *)

Section GeminiResponse.
Import Gemini.
Variable toLowerCase : string -> string.

(** What the loop over the lines has built after some lines: the
    segments follow the lines, and the speakers are the labels of the
    segments, each once. *)
Lemma lines_from_spec (lines : list string) :
  forall speakers segments index,
    index = List.length segments ->
    NoDup speakers ->
    (forall s, In s speakers <-> exists seg, In seg segments /\ speaker seg = Some s) ->
    let (speakers', segments') := lines_from (speakers, segments) index lines in
    NoDup speakers' /\
    (forall s, In s speakers' <-> exists seg, In seg segments' /\ speaker seg = Some s) /\
    List.length segments' = (List.length segments + List.length lines)%nat /\
    (forall i seg, nth_error segments i = Some seg -> nth_error segments' i = Some seg) /\
    (forall i line, nth_error lines i = Some line ->
       exists seg,
         nth_error segments' (index + i) = Some seg /\
         id seg = (index + i)%nat /\
         match speakerMatch line with
         | Some (label, said) =>
             speaker seg = Some (JS.trim label) /\ text seg = JS.trim said
         | None => speaker seg = None /\ text seg = JS.trim line
         end).
Proof.
  induction lines as [|line rest IH]; intros speakers segments index Hi Hnd Hsp.
  - simpl. split; [exact Hnd|]. split; [exact Hsp|]. split; [lia|].
    split; [auto|]. intros i l H. destruct i; discriminate H.
  - cbn [lines_from].
    set (new := match speakerMatch line with
                | Some (label, said) =>
                    {| id := index; speaker := Some (JS.trim label); text := JS.trim said |}
                | None => {| id := index; speaker := None; text := JS.trim line |}
                end).
    assert (Estep : line_step (speakers, segments) index line =
                    (match speaker new with
                     | Some s => JS.str_set_add speakers s
                     | None => speakers
                     end, (segments ++ [new])%list)).
    { unfold line_step, new. destruct (speakerMatch line) as [[label said]|]; reflexivity. }
    rewrite Estep.
    specialize (IH (match speaker new with
                    | Some s => JS.str_set_add speakers s
                    | None => speakers
                    end) (segments ++ [new])%list (S index)).
    destruct (lines_from _ (S index) rest) as [speakers' segments'].
    destruct IH as (H1 & H2 & H3 & H4 & H5).
    + rewrite length_app. simpl. lia.
    + destruct (speaker new); [apply str_set_add_nodup|]; exact Hnd.
    + intros s. destruct (speaker new) as [sp|] eqn:E.
      * rewrite str_set_add_in, Hsp. split.
        -- intros [[seg [Hin Hs]]|Hs].
           ++ exists seg. split; [apply in_or_app; left; exact Hin | exact Hs].
           ++ subst s. exists new. split; [apply in_or_app; right; left; reflexivity | exact E].
        -- intros [seg [Hin Hs]]. apply in_app_or in Hin.
           destruct Hin as [Hin|[Hin|[]]].
           ++ left. exists seg. auto.
           ++ right. subst seg. congruence.
      * rewrite Hsp. split.
        -- intros [seg [Hin Hs]]. exists seg.
           split; [apply in_or_app; left; exact Hin | exact Hs].
        -- intros [seg [Hin Hs]]. apply in_app_or in Hin.
           destruct Hin as [Hin|[Hin|[]]]; [exists seg; auto | subst seg; congruence].
    + split; [exact H1|]. split; [exact H2|]. split.
      { rewrite H3, length_app. simpl. lia. }
      split.
      { intros i seg Hn. apply H4. rewrite nth_error_app1; [exact Hn|].
        apply nth_error_Some. rewrite Hn. discriminate. }
      intros i l Hl. destruct i as [|i].
      * simpl in Hl. injection Hl as Hl. subst l. exists new.
        rewrite Nat.add_0_r. split.
        -- apply H4. rewrite nth_error_app2 by lia.
           rewrite Hi, Nat.sub_diag. reflexivity.
        -- unfold new. destruct (speakerMatch line) as [[label said]|]; simpl; auto.
      * simpl in Hl. destruct (H5 i l Hl) as (seg & Hn & Hid & Hm).
        exists seg. replace (index + S i)%nat with (S index + i)%nat by lia. auto.
Qed.

Lemma trim_kept (text line : string) :
  In line (lines_of text) -> JS.trim line <> "".
Proof.
  unfold lines_of. intros H. apply filter_In in H. destruct H as [_ H].
  apply negb_true_iff in H. apply String.eqb_neq. exact H.
Qed.

(** There is one segment per non-blank line, in order, numbered from 0.
    A line that is not a speaker line gives a segment without speaker
    whose text is the trimmed line, never empty; a speaker line gives
    the trimmed label and the trimmed text behind the colon, which may
    be empty.  The paragraphs are the segments with a non-empty text. *)
Theorem segments_follow_lines (random : nat -> Q) (text : string) :
  let r := processGeminiResponse toLowerCase random text in
  let lines := lines_of text in
  List.length (segments r) = List.length lines /\
  map id (segments r) = seq 0 (List.length lines) /\
  (forall i line, nth_error lines i = Some line ->
     exists seg,
       nth_error (segments r) i = Some seg /\
       match speakerMatch line with
       | Some (label, said) =>
           speaker seg = Some (JS.trim label) /\ Gemini.text seg = JS.trim said
       | None =>
           speaker seg = None /\ Gemini.text seg = JS.trim line /\
           Gemini.text seg <> "" /\ In seg (paragraphs r)
       end) /\
  (forall seg, In seg (paragraphs r) <->
               In seg (segments r) /\ Gemini.text seg <> "").
Proof.
  cbv zeta. unfold processGeminiResponse. cbv zeta.
  pose proof (lines_from_spec (lines_of text) [] [] 0 eq_refl (NoDup_nil _)) as H.
  destruct (lines_from ([], []) 0 (lines_of text)) as [sp segs].
  cbn [segments paragraphs].
  destruct H as (_ & _ & Hlen & _ & Hnth).
  { intros s. split; [intros [] | intros [seg [[] _]]]. }
  simpl in Hlen, Hnth.
  assert (Hpar : forall seg,
             In seg (filter (fun s => (0 <? String.length (Gemini.text s))%nat) segs) <->
             In seg segs /\ Gemini.text seg <> "").
  { intros seg. rewrite filter_In, Nat.ltb_lt.
    destruct (Gemini.text seg); simpl; split; intros [H1 H2]; split; auto;
      try lia; try congruence; discriminate. }
  split; [exact Hlen|]. split; [|split; [|exact Hpar]].
  - apply (nth_ext _ _ 0%nat 0%nat).
    + rewrite length_map, length_seq. exact Hlen.
    + intros n Hn. rewrite length_map in Hn.
      assert (Hl : (n < List.length (lines_of text))%nat) by lia.
      destruct (nth_error (lines_of text) n) as [line|] eqn:E;
        [|apply nth_error_None in E; lia].
      destruct (Hnth n line E) as (seg & Hs & Hid & _).
      rewrite seq_nth by exact Hl. simpl.
      rewrite (nth_indep _ 0%nat (id seg)) by (rewrite length_map; exact Hn).
      rewrite map_nth. rewrite (nth_error_nth _ _ _ Hs). exact Hid.
  - intros i line Hl. destruct (Hnth i line Hl) as (seg & Hs & _ & Hm).
    exists seg. split; [exact Hs|].
    destruct (speakerMatch line) as [[label said]|]; [exact Hm|].
    destruct Hm as [H1 H2]. split; [exact H1|]. split; [exact H2|].
    assert (Hne : Gemini.text seg <> "").
    { rewrite H2. apply (trim_kept text). apply (nth_error_In _ _ Hl). }
    split; [exact Hne|]. apply Hpar. split; [|exact Hne].
    apply (nth_error_In _ _ Hs).
Qed.

Lemma lines_from_labels (lines : list string) :
  forall speakers segments index,
    exists new,
      snd (lines_from (speakers, segments) index lines) = (segments ++ new)%list /\
      fst (lines_from (speakers, segments) index lines)
      = fold_left JS.str_set_add (labels new) speakers.
Proof.
  induction lines as [|line rest IH]; intros speakers segments index.
  - exists []. simpl. rewrite app_nil_r. split; reflexivity.
  - cbn [lines_from]. unfold line_step.
    destruct (speakerMatch line) as [[label said]|].
    + destruct (IH (JS.str_set_add speakers (JS.trim label))
                   (segments ++ [{| id := index; speaker := Some (JS.trim label);
                                    text := JS.trim said |}])%list
                   (S index)) as (new & H1 & H2).
      exists ({| id := index; speaker := Some (JS.trim label); text := JS.trim said |}
                :: new).
      rewrite H1, H2, <- app_assoc. split; reflexivity.
    + destruct (IH speakers
                   (segments ++ [{| id := index; speaker := None;
                                    text := JS.trim line |}])%list
                   (S index)) as (new & H1 & H2).
      exists ({| id := index; speaker := None; text := JS.trim line |} :: new).
      rewrite H1, H2, <- app_assoc. split; reflexivity.
Qed.

(** The speakers are the labels of the speaker lines, each listed once,
    in the order in which they first speak; the raw part of the result
    carries the same speakers and segments. *)
Theorem gemini_speakers_listed_once (random : nat -> Q) (text : string) :
  let r := processGeminiResponse toLowerCase random text in
  NoDup (speakers r) /\
  (forall s, In s (speakers r) <->
             exists seg, In seg (segments r) /\ speaker seg = Some s) /\
  speakers r = JS.str_set_of (labels (segments r)) /\
  raw_speakers (raw r) = speakers r /\ raw_segments (raw r) = segments r.
Proof.
  cbv zeta. unfold processGeminiResponse. cbv zeta.
  pose proof (lines_from_spec (lines_of text) [] [] 0 eq_refl (NoDup_nil _)) as H.
  destruct (lines_from_labels (lines_of text) [] [] 0) as (new & L1 & L2).
  destruct (lines_from ([], []) 0 (lines_of text)) as [sp segs].
  cbn [segments speakers raw raw_speakers raw_segments].
  destruct H as (H1 & H2 & _).
  { intros s. split; [intros [] | intros [seg [[] _]]]. }
  simpl in L1, L2. subst segs sp.
  split; [exact H1|]. split; [exact H2|]. split; [reflexivity|]. split; reflexivity.
Qed.
End GeminiResponse.

Lemma segments_follow_lines_witness :
  Gemini.lines_of Gemini.sample_lines
  = ["good morning"; " hello" ++ JS.nbsp] /\
  map Gemini.text
      (Gemini.segments
         (Gemini.processGeminiResponse JS.lower_latin1 (fun _ => 0) Gemini.sample_lines))
  = ["good morning"; "hello"] /\
  map Gemini.id
      (Gemini.segments
         (Gemini.processGeminiResponse JS.lower_latin1 (fun _ => 0) Gemini.sample_lines))
  = [0; 1]%nat.
Proof.
  destruct (segments_follow_lines JS.lower_latin1 (fun _ => 0) Gemini.sample_lines)
    as (_ & Hids & _).
  split; [reflexivity|]. split; [reflexivity|]. exact Hids.
Defined.

Section GeminiPatterns.
Import Gemini.
Variable toLowerCase : string -> string.

Lemma take_while_app (p : ascii -> bool) (a : string) (c : ascii) (b : string) :
  all_chars p a = true -> p c = false ->
  take_while p (a ++ String c b) = (a, String c b).
Proof.
  intros Ha Hc. induction a as [|x a IH]; simpl.
  - rewrite Hc. reflexivity.
  - simpl in Ha. apply andb_true_iff in Ha. destruct Ha as [Hx Ha].
    rewrite Hx, (IH Ha). reflexivity.
Qed.

Lemma take_while_all (p : ascii -> bool) (s : string) :
  all_chars p (fst (take_while p s)) = true.
Proof.
  induction s as [|c r IH]; simpl; [reflexivity|].
  destruct (p c) eqn:E; [|reflexivity].
  destruct (take_while p r) as [taken rest]. simpl in *. rewrite E, IH. reflexivity.
Qed.

Lemma eqb_empty_false (s : string) : s <> "" -> String.eqb s "" = false.
Proof. intros H. apply String.eqb_neq. exact H. Qed.

Lemma strip_prefix_app (p s : string) : strip_prefix p (p ++ s) = Some s.
Proof.
  induction p as [|a p IH]; simpl; [reflexivity|].
  rewrite Ascii.eqb_refl. exact IH.
Qed.

(** A word of letters followed by a colon does not begin with a prefix
    that has a blank behind its letters. *)
Lemma strip_prefix_blank (p1 p2 : string) :
  all_chars (fun c => JS.is_upper c || JS.is_lower c) p1 = true ->
  forall w rest,
    all_chars (fun c => JS.is_upper c || JS.is_lower c) w = true ->
    strip_prefix (p1 ++ String " " p2) (w ++ String ":" rest) = None.
Proof.
  induction p1 as [|a p1 IH]; intros Hp w rest Hw.
  - destruct w as [|c w]; cbn [strip_prefix append].
    + reflexivity.
    + simpl in Hw. apply andb_true_iff in Hw. destruct Hw as [Hc _].
      destruct (Ascii.eqb " " c) eqn:E; [|reflexivity].
      apply Ascii.eqb_eq in E. subst c. discriminate Hc.
  - simpl in Hp. apply andb_true_iff in Hp. destruct Hp as [Ha Hp].
    destruct w as [|c w]; cbn [strip_prefix append].
    + destruct (Ascii.eqb a ":") eqn:E; [|reflexivity].
      apply Ascii.eqb_eq in E. subst a. discriminate Ha.
    + simpl in Hw. apply andb_true_iff in Hw. destruct Hw as [_ Hw].
      destruct (Ascii.eqb a c); [apply IH; assumption | reflexivity].
Qed.

Lemma lower_is_letter (s : string) :
  all_chars JS.is_lower s = true ->
  all_chars (fun c => JS.is_upper c || JS.is_lower c) s = true.
Proof.
  induction s as [|c r IH]; simpl; [reflexivity|].
  intros H. apply andb_true_iff in H. destruct H as [Hc Hr].
  rewrite Hc, (IH Hr), orb_true_r. reflexivity.
Qed.

(** A line [Speaker <digits>:<text>] is a speaker line: the label is
    [Speaker <digits>] and the text is what stands behind the colon up
    to the first line terminator, provided this is not empty. *)
Theorem numbered_speaker_recognised (number said : string) :
  digit_string number ->
  dot_run said <> "" ->
  speakerMatch ("Speaker " ++ number ++ ":" ++ said)
  = Some ("Speaker " ++ number, dot_run said).
Proof.
  intros [Hne Hd] Hs. unfold speakerMatch, label_speaker.
  rewrite strip_prefix_app.
  change (number ++ ":" ++ said) with (number ++ String ":" said).
  rewrite (take_while_app JS.is_digit number ":" said Hd eq_refl).
  rewrite (eqb_empty_false _ Hne). unfold with_text, after_label.
  rewrite Ascii.eqb_refl. cbv zeta. rewrite (eqb_empty_false _ Hs). reflexivity.
Qed.

Lemma numbered_speaker_recognised_witness :
  digit_string "12" /\ dot_run " hello" <> "" /\
  speakerMatch "Speaker 12: hello" = Some ("Speaker 12", " hello").
Proof.
  assert (H1 : digit_string "12") by (split; [discriminate | reflexivity]).
  assert (H2 : dot_run " hello" <> "") by (vm_compute; discriminate).
  split; [exact H1|]. split; [exact H2|].
  exact (numbered_speaker_recognised "12" " hello" H1 H2).
Defined.

(** A capitalised name directly followed by the colon, as in [John: hi],
    is not a speaker line: the third form of the label wants a blank
    between the name and the colon. *)
Theorem bare_name_not_a_speaker (c : ascii) (lows said : string) :
  JS.is_upper c = true ->
  all_chars JS.is_lower lows = true ->
  speakerMatch (String c lows ++ ":" ++ said) = None.
Proof.
  intros Hc Hl.
  assert (Hw : all_chars (fun c => JS.is_upper c || JS.is_lower c) (String c lows) = true).
  { simpl. rewrite Hc, (lower_is_letter _ Hl). reflexivity. }
  change (String c lows ++ ":" ++ said) with (String c lows ++ String ":" said).
  unfold speakerMatch, label_speaker, label_person.
  pose proof (strip_prefix_blank "Speaker" "" eq_refl _ said Hw) as H1.
  pose proof (strip_prefix_blank "Person" "" eq_refl _ said Hw) as H2.
  change ("Speaker" ++ " ") with "Speaker " in H1.
  change ("Person" ++ " ") with "Person " in H2.
  rewrite H1, H2.
  cbn [with_text]. unfold label_name. cbn [append]. rewrite Hc.
  rewrite (take_while_app JS.is_lower lows ":" said Hl eq_refl).
  destruct (String.eqb lows ""); reflexivity.
Qed.

Lemma bare_name_not_a_speaker_witness :
  speakerMatch "John: hi" = None.
Proof.
  exact (bare_name_not_a_speaker "J" "ohn" " hi" eq_refl eq_refl).
Defined.

Lemma stamp_here_shaped (s t : string) :
  stamp_here s = Some t ->
  stamp_shaped t /\ exists r, s = String "[" r.
Proof.
  unfold stamp_here. destruct s as [|c r]; [discriminate|].
  destruct (Ascii.eqb c "[") eqn:Ec; [|discriminate].
  apply Ascii.eqb_eq in Ec. subst c.
  pose proof (take_while_all JS.is_digit r) as Hm.
  destruct (take_while JS.is_digit r) as [minutes r1]. simpl in Hm.
  destruct (String.eqb minutes "") eqn:Em; [discriminate|].
  apply String.eqb_neq in Em.
  destruct r1 as [|c1 r2]; [discriminate|].
  destruct (Ascii.eqb c1 ":"); [|discriminate].
  pose proof (take_while_all JS.is_digit r2) as Hs.
  destruct (take_while JS.is_digit r2) as [secs r3]. simpl in Hs.
  destruct (String.eqb secs "") eqn:Es; [discriminate|].
  apply String.eqb_neq in Es.
  intros H.
  assert (Hshape : forall fraction,
             (fraction = "" \/ exists d, fraction = String "." d /\ digit_string d) ->
             stamp_shaped (minutes ++ ":" ++ secs ++ fraction)).
  { intros fraction Hf. exists minutes, secs, fraction.
    split; [reflexivity|]. split; [split; assumption|]. split; [split; assumption|].
    exact Hf. }
  split; [|exists r; reflexivity].
  destruct r3 as [|c3 r3'].
  - discriminate H.
  - revert H. destruct (Ascii.eqb c3 ".") eqn:E3.
    + apply Ascii.eqb_eq in E3. subst c3.
      pose proof (take_while_all JS.is_digit r3') as Hd.
      destruct (take_while JS.is_digit r3') as [d r4]. simpl in Hd.
      destruct (String.eqb d "") eqn:Ed.
      * rewrite Ascii.eqb_sym. simpl. discriminate.
      * apply String.eqb_neq in Ed.
        destruct r4 as [|c4 r5]; [discriminate|].
        destruct (Ascii.eqb c4 "]"); [|discriminate].
        intros H. injection H as H. subst t. apply Hshape. right.
        exists d. split; [reflexivity | split; assumption].
    + destruct (Ascii.eqb c3 "]"); [|discriminate].
      intros H. injection H as H. subst t. apply Hshape. left. reflexivity.
Qed.

Lemma stamps_spec (s : string) :
  forall skip units,
    Forall (fun t => (units <= position t)%nat /\ stamp_shaped (time t))
           (stamps skip units s) /\
    StronglySorted (fun a b => (position a < position b)%nat) (stamps skip units s).
Proof.
  induction s as [|c r IH]; intros skip units; cbn [stamps].
  - split; constructor.
  - assert (Hweak : forall k,
               Forall (fun t => (units <= position t)%nat /\ stamp_shaped (time t))
                      (stamps k (units + JS.units_of c) r)).
    { intros k. destruct (IH k (units + JS.units_of c)%nat) as [H _].
      eapply Forall_impl; [|exact H]. simpl. intros t [H1 H2]. split; [lia | exact H2]. }
    destruct skip as [|k].
    + destruct (stamp_here (String c r)) as [t|] eqn:E.
      * destruct (stamp_here_shaped _ _ E) as [Hshape [r' Hr]].
        injection Hr as Hc _. subst c.
        destruct (IH (String.length t + 1)%nat (units + JS.units_of "[")%nat) as [H1 H2].
        split.
        -- constructor; [simpl; split; [lia | exact Hshape] | apply Hweak].
        -- constructor; [exact H2|].
           eapply Forall_impl; [|exact H1]. simpl. intros a [Ha _].
           change (JS.units_of "[") with 1%nat in Ha. lia.
      * split; [apply Hweak | apply IH].
    + split; [apply Hweak | apply IH].
Qed.

(** The time stamps come in the order of the text: their positions
    increase strictly, and each text has the form minutes, colon,
    seconds, with or without a fraction. *)
Theorem timestamps_in_text_order (random : nat -> Q) (text : string) :
  let r := processGeminiResponse toLowerCase random text in
  StronglySorted (fun a b => (position a < position b)%nat) (timestamps r) /\
  Forall (fun t => stamp_shaped (time t)) (timestamps r).
Proof.
  cbv zeta. unfold processGeminiResponse. cbv zeta.
  destruct (lines_from ([], []) 0 (lines_of text)) as [sp segs].
  cbn [timestamps].
  destruct (stamps_spec text 0 0) as [H1 H2]. split; [exact H2|].
  eapply Forall_impl; [|exact H1]. simpl. intros t [_ H]. exact H.
Qed.
End GeminiPatterns.

(* ================================================================== *)
(** ** The application page                                             *)
(* ================================================================== *)

Section PageFacts.
Import TranscriptionService App.

Lemma gather_simulated (l : list nat) :
  forall acc,
    fold_left gather (map simulated l) acc = (acc ++ map simulated_segment l)%list.
Proof.
  induction l as [|i l IH]; intros acc; simpl.
  - rewrite app_nil_r. reflexivity.
  - rewrite IH. unfold gather. simpl. rewrite <- app_assoc. reflexivity.
Qed.

Lemma simulated_in_order (n : nat) :
  forall a,
    Sorted (fun x y => by_start x y = false) (map simulated_segment (seq a n)).
Proof.
  induction n as [|n IH]; intros a; simpl; constructor; [apply IH|].
  destruct n as [|n]; simpl; constructor.
  unfold by_start. apply negb_false_iff. apply Qle_bool_iff. simpl.
  rewrite <- Zle_Qle. lia.
Qed.

Lemma join_not_empty (sep : string) (l : list string) :
  l <> [] -> (forall x, In x l -> x <> "") -> JS.join sep l <> "".
Proof.
  destruct l as [|x rest]; intros Hne Hin; [contradiction|].
  assert (Hx : x <> "") by (apply Hin; left; reflexivity).
  destruct x as [|c x]; [contradiction|].
  destruct rest; simpl; discriminate.
Qed.

Section WithPage.
Variable toFixed2 : Q -> string.
Variable Body : Type.
Variable body_text : Body -> Field string.
Variable body_paragraphs : Body -> Field (list Paragraph).
Variable Blob : Type.
Variable transcribeWithDeepgram : option Blob -> string + Body.
Variable transcribeWithGemini : option Blob -> string + Body.

(** With a provider other than Deepgram and Gemini the page combines
    twice: [transcribeWithOpenAI] combines the made-up results of the
    chunks, and the caller combines its answer again, as a single
    object.  The first combination has one time-stamped line per chunk,
    in chunk order; the second finds no paragraphs in it, so the
    time-stamped text that is displayed is empty, while the first
    combination is displayed as the JSON. *)
Theorem openai_timestamped_text_lost (provider : string) (chunks : list Blob) :
  provider <> "deepgram" ->
  provider <> "gemini" ->
  let numbers := seq 0 (List.length chunks) in
  let first := transcribeWithOpenAI toFixed2 chunks in
  transcribe_and_combine toFixed2 body_text body_paragraphs
                         transcribeWithDeepgram transcribeWithGemini provider chunks
  = inr (of_object
           {| s_text := present (JS.join " " (map (fun i => text (simulated i)) numbers));
              s_timestamped := "";
              s_json := chunked first;
              s_fullResults := chunked first |}) /\
  j_segments (c_json first) = map simulated_segment numbers /\
  c_timestamped first
  = JS.join newline_string
            (map (fun i => segment_line toFixed2 (simulated_segment i)) numbers) /\
  (chunks <> [] -> c_timestamped first <> "").
Proof.
  intros Hd Hg. cbv zeta.
  assert (Hsegs : JS.sort by_start
                    (fold_left gather (map simulated (seq 0 (List.length chunks))) [])
                  = map simulated_segment (seq 0 (List.length chunks))).
  { rewrite gather_simulated. simpl. apply sort_in_order. apply simulated_in_order. }
  assert (Hlines : c_timestamped (transcribeWithOpenAI toFixed2 chunks)
                   = JS.join newline_string
                       (map (fun i => segment_line toFixed2 (simulated_segment i))
                            (seq 0 (List.length chunks)))).
  { unfold transcribeWithOpenAI, combine_array. cbv zeta. cbn [c_timestamped].
    rewrite Hsegs, map_map. reflexivity. }
  split; [|split; [|split]].
  - unfold transcribe_and_combine, transcribeAudioChunks.
    apply String.eqb_neq in Hd. apply String.eqb_neq in Hg. rewrite Hd, Hg.
    unfold combineTranscriptionResults, combine_object. cbv zeta.
    cbn [paragraphs_of text_of].
    unfold transcribeWithOpenAI at 1, combine_array at 1. cbv zeta. cbn [c_text].
    rewrite map_map. reflexivity.
  - unfold transcribeWithOpenAI, combine_array. cbv zeta. cbn [c_json j_segments].
    exact Hsegs.
  - exact Hlines.
  - intros Hne. rewrite Hlines. apply join_not_empty.
    + destruct chunks; [contradiction | discriminate].
    + intros x Hx. apply in_map_iff in Hx. destruct Hx as [i [E _]]. subst x.
      unfold segment_line. simpl. discriminate.
Qed.

(** What the loop over the lines builds when no line names a speaker. *)
Lemma lines_from_plain (lines : list string) :
  Forall plain_line lines ->
  forall speakers segments index,
    Gemini.lines_from (speakers, segments) index lines
    = (speakers,
       (segments ++
        map (fun entry : nat * string =>
               {| Gemini.id := fst entry; Gemini.speaker := None;
                  Gemini.text := JS.trim (snd entry) |})
            (combine (seq index (List.length lines)) lines))%list).
Proof.
  induction 1 as [|line rest Hline Hrest IH]; intros speakers segments index.
  - simpl. rewrite app_nil_r. reflexivity.
  - cbn [Gemini.lines_from]. unfold Gemini.line_step.
    unfold plain_line in Hline. rewrite Hline. rewrite IH.
    simpl. rewrite <- app_assoc. reflexivity.
Qed.

End WithPage.

(** For a transcript of Gemini in which no line names a speaker, the
    time-stamped text of the page is the non-blank lines, trimmed, each
    behind the times 0.00 and the speaker [null]. *)
Theorem gemini_plain_lines_displayed
        (toFixed2 : Q -> string) (toLowerCase : string -> string)
        (random : nat -> Q) (transcript : string) :
  Forall plain_line (Gemini.lines_of transcript) ->
  s_timestamped
    (combine_object toFixed2 gemini_text gemini_paragraphs
                    (parsed (Gemini.processGeminiResponse toLowerCase random transcript)))
  = JS.join newline_string
            (map (fun line => "[0.00s - 0.00s] [Speaker null] " ++ JS.trim line)
                 (Gemini.lines_of transcript)).
Proof.
  intros Hplain. unfold combine_object. cbv zeta. cbn [paragraphs_of s_timestamped].
  unfold gemini_paragraphs, Gemini.processGeminiResponse. cbv zeta.
  rewrite (lines_from_plain _ Hplain). cbn [Gemini.paragraphs app].
  assert (Hall : forall (l : list string) (ns : list nat),
             (forall line, In line l -> JS.trim line <> "") ->
             map (paragraph_line toFixed2)
                 (map as_paragraph
                      (filter (fun s => (0 <? String.length (Gemini.text s))%nat)
                              (map (fun entry : nat * string =>
                                      {| Gemini.id := fst entry; Gemini.speaker := None;
                                         Gemini.text := JS.trim (snd entry) |})
                                   (combine ns l))))
             = map (fun line => "[0.00s - 0.00s] [Speaker null] " ++ JS.trim line)
                   (map snd (combine ns l))).
  { induction l as [|line l IH]; intros ns Hin.
    - destruct ns; reflexivity.
    - destruct ns as [|n ns]; [reflexivity|].
      cbn [combine map filter Gemini.text snd].
      assert (Hne : JS.trim line <> "") by (apply Hin; left; reflexivity).
      destruct (JS.trim line) as [|c r] eqn:E; [contradiction|].
      cbn [String.length Nat.ltb Nat.leb map]. rewrite IH.
      + reflexivity.
      + intros x Hx. apply Hin. right. exact Hx. }
  rewrite Hall by (intros line Hl; apply (trim_kept transcript); exact Hl).
  assert (Hsnd : forall (l : list string) a,
             map snd (combine (seq a (List.length l)) l) = l).
  { induction l as [|x l IH]; intros a; simpl; [reflexivity|]. rewrite IH. reflexivity. }
  rewrite Hsnd.
  unfold or_string.
  destruct (String.eqb _ "") eqn:E; [|reflexivity].
  apply String.eqb_eq in E. rewrite E. reflexivity.
Qed.

End PageFacts.

Lemma openai_timestamped_text_lost_witness :
  "openai" <> "deepgram" /\ "openai" <> "gemini" /\
  App.c_timestamped (App.transcribeWithOpenAI (fun _ : Q => "0.00") [tt; tt]) <> "".
Proof.
  assert (H1 : "openai" <> "deepgram") by discriminate.
  assert (H2 : "openai" <> "gemini") by discriminate.
  split; [exact H1|]. split; [exact H2|].
  destruct (openai_timestamped_text_lost
              (fun _ : Q => "0.00") unit (fun _ => App.absent) (fun _ => App.absent)
              unit (fun _ => inl "refused") (fun _ => inl "refused")
              "openai" [tt; tt] H1 H2) as (_ & _ & _ & H).
  apply H. discriminate.
Defined.

Lemma gemini_plain_lines_displayed_witness :
  Forall App.plain_line (Gemini.lines_of Gemini.sample_lines) /\
  App.s_timestamped
    (App.combine_object (fun _ : Q => "0.00") App.gemini_text App.gemini_paragraphs
       (App.parsed (Gemini.processGeminiResponse JS.lower_latin1 (fun _ => 0)
                                                   Gemini.sample_lines)))
  = "[0.00s - 0.00s] [Speaker null] good morning"
    ++ String Gemini.newline "[0.00s - 0.00s] [Speaker null] hello".
Proof.
  assert (H : Forall App.plain_line (Gemini.lines_of Gemini.sample_lines)).
  { repeat constructor. }
  split; [exact H|].
  exact (gemini_plain_lines_displayed (fun _ : Q => "0.00") JS.lower_latin1
           (fun _ => 0) Gemini.sample_lines H).
Defined.
